(** * Protective mechanisms of the Cloudflare MCP server

    A shallow embedding of the four guards every outbound request of
    the server passes through, and of the two client routines that
    compose them:

    - [src/graphql-validator.ts]  the GraphQL query guard,
    - [src/audit-logger.ts]       the audit sanitizer and emitter,
    - [src/rate-limiter.ts]       the token bucket,
    - [src/api-client.ts]         the credential store, [request] and
                                  [graphqlAnalytics].

    JavaScript strings are sequences of UTF-16 code units and are
    modelled as lists of integers; the numbers that the program
    computes with (the token count, the refill rate) are IEEE
    doubles, each finite one given by its rational value, with every
    operation rounded to nearest, ties to even; [Date.now()] is an
    integer number of milliseconds. *)

From Stdlib Require Import ZArith List String Ascii Bool Lia.
From Stdlib Require Import QArith Qminmax Qround Qabs Qpower Lqa.
From Stdlib Require DecimalString DecimalNat.
Import ListNotations.
Open Scope Z_scope.

Set Implicit Arguments.

(** ** JavaScript strings *)

Module JsString.

(** A string is its sequence of UTF-16 code units. *)
Definition t := list Z.

(** An ASCII literal as a JavaScript string. *)
Definition js (s : string) : t :=
  map (fun a => Z.of_N (N_of_ascii a)) (list_ascii_of_string s).

Definition eq_dec : forall a b : t, {a = b} + {a <> b} :=
  list_eq_dec Z.eq_dec.

Definition eqb (a b : t) : bool := if eq_dec a b then true else false.

(** [s.startsWith(p)] *)
Fixpoint startsWith (s p : t) {struct p} : bool :=
  match p, s with
  | [], _ => true
  | _ :: _, [] => false
  | x :: p', y :: s' => (y =? x) && startsWith s' p'
  end.

(** [s.includes(k)] *)
Fixpoint includes (s k : t) : bool :=
  startsWith s k ||
  match s with
  | [] => false
  | _ :: s' => includes s' k
  end.

(** WhiteSpace and LineTerminator of ECMAScript: what [trim] strips
    and what [\s] matches. *)
Definition isWhiteSpace (c : Z) : bool :=
  ((9 <=? c) && (c <=? 13)) || (c =? 32) || (c =? 160) || (c =? 5760)
  || ((8192 <=? c) && (c <=? 8202)) || (c =? 8232) || (c =? 8233)
  || (c =? 8239) || (c =? 8287) || (c =? 12288) || (c =? 65279).

Fixpoint trimStart (s : t) : t :=
  match s with
  | [] => []
  | c :: s' => if isWhiteSpace c then trimStart s' else s
  end.

Definition trimEnd (s : t) : t := rev (trimStart (rev s)).

Definition trim (s : t) : t := trimEnd (trimStart s).

(** [toLowerCase], one code unit at a time.  The Unicode lower-case
    mapping sends to ASCII only the letters A-Z, the Kelvin sign
    (U+212A, to k) and the dotted capital I (U+0130, to i followed by
    U+0307).  Every other unit has a lower-case form outside ASCII;
    the program only compares lower-cased text with ASCII words, so
    those units are kept as they are. *)
Definition lower_unit (c : Z) : list Z :=
  if (65 <=? c) && (c <=? 90) then [c + 32]
  else if c =? 8490 then [107]
  else if c =? 304 then [105; 775]
  else [c].

Definition toLowerCase (s : t) : t := flat_map lower_unit s.

(** [l.join(sep)] *)
Fixpoint join (sep : t) (l : list t) : t :=
  match l with
  | [] => []
  | [x] => x
  | x :: l' => x ++ sep ++ join sep l'
  end.

End JsString.

Abbreviation jsstring := JsString.t.
Abbreviation js := JsString.js.

(** ** JavaScript values and exceptions *)

(** The values that travel as parameters and response bodies.  A
    number is carried as an integer: no routine modelled here computes
    on a parameter, it only copies or replaces it.  An object is the
    list of its own enumerable properties in [Object.entries] order. *)
#[warnings="-register-all"]
Inductive value : Type :=
| VUndefined
| VNull
| VBool (b : bool)
| VNum (n : Z)
| VStr (s : jsstring)
| VArr (items : list value)
| VObj (props : list (jsstring * value)).

Abbreviation obj := (list (jsstring * value)).

(** ToBoolean *)
Definition truthy (v : value) : bool :=
  match v with
  | VUndefined | VNull => false
  | VBool b => b
  | VNum n => negb (n =? 0)
  | VStr s => match s with [] => false | _ => true end
  | VArr _ | VObj _ => true
  end.

(** [o[key]] for an own property of [o]. *)
Fixpoint get_prop (o : obj) (key : jsstring) : option value :=
match o with
| [] => None
| (k, v) :: rest => if JsString.eqb k key then Some v else get_prop rest key
end.

(** [o[key] = v] for a key that is an ordinary property name: an
    existing property keeps its place, a new one goes last. *)
Fixpoint put_prop (o : obj) (key : jsstring) (v : value) : obj :=
match o with
| [] => [(key, v)]
| (k, w) :: rest =>
    if JsString.eqb k key then (k, v) :: rest
    else (k, w) :: put_prop rest key v
end.

(** What a [throw] carries: an [Error] with its message, or any other
    value. *)
Inductive thrown : Type :=
| ErrorObj (message : jsstring)
| NonError (v : value).

Inductive outcome (A : Type) : Type :=
| Return (a : A)
| Throw (e : thrown).
Arguments Return {A} a.
Arguments Throw {A} e.

Definition throw_Error {A} (msg : string) : outcome A :=
  Throw (ErrorObj (js msg)).

(** ** Regular expressions *)

Module Regex.

(** The fragment of the pattern language that the blocklist uses,
    closed under derivatives. *)
Inductive regex : Type :=
| Void
| Eps
| Class (p : Z -> bool)
| Seq (r1 r2 : regex)
| Alt (r1 r2 : regex)
| Star (r : regex).

(** The words a pattern matches. *)
Inductive lang : regex -> list Z -> Prop :=
| LEps : lang Eps []
| LClass p c : p c = true -> lang (Class p) [c]
| LSeq r1 r2 u v : lang r1 u -> lang r2 v -> lang (Seq r1 r2) (u ++ v)
| LAltL r1 r2 u : lang r1 u -> lang (Alt r1 r2) u
| LAltR r1 r2 u : lang r2 u -> lang (Alt r1 r2) u
| LStarNil r : lang (Star r) []
| LStarCons r u v : lang r u -> lang (Star r) v -> lang (Star r) (u ++ v).

Fixpoint nullable (r : regex) : bool :=
  match r with
  | Void => false
  | Eps => true
  | Class _ => false
  | Seq a b => nullable a && nullable b
  | Alt a b => nullable a || nullable b
  | Star _ => true
  end.

Fixpoint deriv (c : Z) (r : regex) : regex :=
  match r with
  | Void | Eps => Void
  | Class p => if p c then Eps else Void
  | Seq a b =>
      if nullable a then Alt (Seq (deriv c a) b) (deriv c b)
      else Seq (deriv c a) b
  | Alt a b => Alt (deriv c a) (deriv c b)
  | Star a => Seq (deriv c a) (Star a)
  end.

(** Does a match of [r] start at the head of [s]? *)
Fixpoint matches_at (r : regex) (s : list Z) : bool :=
  nullable r ||
  match s with
  | [] => false
  | c :: s' => matches_at (deriv c r) s'
  end.

(** [r.test(s)] for a pattern without anchors and without the [g] or
    [y] flag: is there a match starting anywhere in [s]? *)
Fixpoint test (r : regex) (s : list Z) : bool :=
  matches_at r s ||
  match s with
  | [] => false
  | _ :: s' => test r s'
  end.

(** Canonicalize of a pattern with the [i] flag and without the [u]
    flag: the upper-case form, except that a unit outside ASCII never
    maps into ASCII.  Units outside ASCII are kept; all patterns here
    are ASCII. *)
Definition canonicalize (c : Z) : Z :=
  if (97 <=? c) && (c <=? 122) then c - 32 else c.

(** A pattern character under the [i] flag. *)
Definition chr_i (x : Z) : regex :=
  Class (fun c => canonicalize c =? canonicalize x).

(** A literal word under the [i] flag. *)
Fixpoint lit_i (w : list Z) : regex :=
  match w with
  | [] => Eps
  | x :: w' => Seq (chr_i x) (lit_i w')
  end.

(** [\s] and [[{(]] *)
Definition space : regex := Class JsString.isWhiteSpace.
Definition opener : regex := Class (fun c => (c =? 123) || (c =? 40)).

End Regex.

(** ** The GraphQL query guard ([src/graphql-validator.ts]) *)

Module GraphqlValidator.
Import Regex.

Definition BLOCKED_PATTERNS : list regex :=
  [ lit_i (js "__schema");
    lit_i (js "__type");
    Seq (lit_i (js "mutation")) (Seq (Star space) opener);
    Seq (lit_i (js "subscription")) (Seq (Star space) opener) ].

Definition ALLOWED_OPERATION_STARTS : list jsstring :=
  [ js "query"; js "{" ].

Definition validateGraphQLQuery (query : value) : outcome unit :=
  match query with
  | VStr q =>
      if negb (truthy query) then
        throw_Error "GraphQL query must be a non-empty string"
      else
        let trimmed := JsString.trim q in
        if (Z.of_nat (List.length trimmed) =? 0) then
          throw_Error "GraphQL query cannot be empty"
        else if existsb (fun pattern => test pattern trimmed) BLOCKED_PATTERNS then
          throw_Error "GraphQL query contains disallowed operations"
        else
          let lowerTrimmed := JsString.toLowerCase trimmed in
          let startsWithAllowed :=
            existsb (fun op => JsString.startsWith lowerTrimmed op)
                    ALLOWED_OPERATION_STARTS in
          if negb startsWithAllowed then
            throw_Error "GraphQL query must be a read-only query operation"
          else Return tt
  | _ => throw_Error "GraphQL query must be a non-empty string"
  end.

Section Parsing.
(** [JSON.parse]; [None] stands for its [SyntaxError]. *)
Variable JSON_parse : jsstring -> option value.

(** [validateGraphQLVariables(variables)] *)
Definition validateGraphQLVariables (variables : jsstring) : outcome obj :=
  match variables with
  | [] => Return []
  | _ =>
      match JSON_parse variables with
      | None => throw_Error "Invalid JSON in GraphQL variables parameter"
      | Some (VObj props) => Return props
      | Some _ => throw_Error "GraphQL variables must be a JSON object"
      end
  end.
End Parsing.

End GraphqlValidator.


(** ** The audit sanitizer and emitter ([src/audit-logger.ts]) *)

Module AuditLogger.

Record AuditEvent : Type := {
  timestamp : Z;
  tool : jsstring;
  parameters : obj;
  success : bool;
  errorMessage : option jsstring;
  durationMs : Z
}.

Definition REDACT_KEYS : list jsstring :=
  [ js "api_key"; js "token"; js "secret"; js "password"; js "key";
    js "credential" ].

Definition REDACTED : value := VStr (js "[REDACTED]").

(** [REDACT_KEYS.some(k => key.toLowerCase().includes(k))] *)
Definition redact_key (key : jsstring) : bool :=
  existsb (fun k => JsString.includes (JsString.toLowerCase key) k)
          REDACT_KEYS.

(** [typeof value === "object" && value !== null] *)
Definition is_object (v : value) : bool :=
  match v with
  | VArr _ | VObj _ => true
  | _ => false
  end.

(** The one property name whose assignment makes no property. *)
Definition PROTO : jsstring := js "__proto__".

(** [result[key] = v] on the object literal [result].  Under the key
    [__proto__] the assignment calls the setter that [result]
    inherits: it replaces the prototype of [result] when [v] is an
    object or [null] and does nothing otherwise; in both cases the
    own properties of [result] stay as they are, and so do the later
    assignments, none of which is under this key again. *)
Definition set_prop (result : obj) (key : jsstring) (v : value) : obj :=
  if JsString.eqb key PROTO then result else put_prop result key v.

(** The key of an array element: its index in decimal. *)
Definition index_key (i : nat) : jsstring :=
  js (DecimalString.NilZero.string_of_uint (Nat.to_uint i)).

(** [Object.entries] of an array, from index [i] on. *)
Fixpoint array_entries (i : nat) (items : list value) : obj :=
  match items with
  | [] => []
  | v :: items' => (index_key i, v) :: array_entries (S i) items'
  end.

(** [Object.entries(v)] for the values the sanitizer is applied to. *)
Definition entries (v : value) : obj :=
  match v with
  | VObj props => props
  | VArr items => array_entries 0 items
  | _ => []
  end.

(** One turn of the loop of [sanitizeParams]; [recur] is the
    recursive call. *)
Definition sanitize_entry (recur : value -> obj) (result : obj)
           (key : jsstring) (v : value) : obj :=
  if redact_key key then set_prop result key REDACTED
  else if is_object v then set_prop result key (VObj (recur v))
  else set_prop result key v.

(** [sanitizeParams(params)].  The argument is an object or, in a
    recursive call, possibly an array, whose entries are its indexed
    elements. *)
Fixpoint sanitizeParams (params : value) : obj :=
  match params with
  | VObj props =>
      fold_left
        (fun result kv => sanitize_entry sanitizeParams result (fst kv) (snd kv))
        props []
  | VArr items =>
      fst (fold_left
             (fun st v =>
                (sanitize_entry sanitizeParams (fst st) (index_key (snd st)) v,
                 S (snd st)))
             items ([], O))
  | _ => []
  end.

(** What [JSON.stringify] keeps of a value: a property whose value
    is [undefined] is left out, an element of an array that is
    [undefined] is written as [null]. *)
Fixpoint jsonify (v : value) : value :=
  match v with
  | VArr items =>
      VArr (map (fun x => match x with
                          | VUndefined => VNull
                          | _ => jsonify x
                          end) items)
  | VObj props =>
      VObj ((fix keep (ps : list (jsstring * value)) : list (jsstring * value) :=
               match ps with
               | [] => []
               | (k, x) :: rest =>
                   match x with
                   | VUndefined => keep rest
                   | _ => (k, jsonify x) :: keep rest
                   end
               end) props)
  | _ => v
  end.

(** The properties of an object that reach its JSON text. *)
Definition kept (o : obj) : obj :=
  match jsonify (VObj o) with
  | VObj props => props
  | _ => []
  end.

(** The line written to the diagnostic channel, as the JSON text
    says it: what [JSON.stringify] keeps of the object
    [sanitized]. *)
Record AuditLine : Type := {
  line_type : jsstring;
  line_timestamp : Z;
  line_tool : jsstring;
  line_parameters : obj;
  line_success : bool;
  line_durationMs : Z;
  line_errorMessage : option jsstring
}.

(** [...(m && { errorMessage: m })]: an absent or empty message
    leaves no field. *)
Definition spread_message (m : option jsstring) : option jsstring :=
  match m with
  | Some ((_ :: _) as msg) => Some msg
  | _ => None
  end.

(** [logAuditEvent(event)]: appends one line to [stderr]. *)
Definition logAuditEvent (event : AuditEvent) (stderr : list AuditLine)
  : list AuditLine :=
  let sanitized :=
    {| line_type := js "audit";
       line_timestamp := timestamp event;
       line_tool := tool event;
       line_parameters := kept (sanitizeParams (VObj (parameters event)));
       line_success := success event;
       line_durationMs := durationMs event;
       line_errorMessage := spread_message (errorMessage event) |} in
  stderr ++ [sanitized].

End AuditLogger.

(** ** The numbers of JavaScript *)

Module Double.

(** A number of JavaScript: a finite double, given by its value, an
    infinity, or NaN.  The sign of a zero is not kept: the routines
    modelled here compare, add, multiply and round their numbers,
    which gives the same for either zero, and divide by a number that
    can be zero only to set a timer, for which either infinity counts
    as one millisecond. *)
Inductive number : Type :=
| Fin (q : Q)
| PInf
| NInf
| NaN.

Definition pow2 (k : Z) : Q := Qpower 2 k.

(** [floor (log2 x)] for a positive [x]. *)
Definition ilog2 (x : Q) : Z :=
  let k := Z.log2 (Qnum x) - Z.log2 (Zpos (Qden x)) in
  if Qle_bool (pow2 k) x then k else k - 1.

(** The nearest integer, a tie going to the even one. *)
Definition round_half_even (y : Q) : Z :=
  let f := Qfloor y in
  match Qcompare (y - inject_Z f) (1 # 2) with
  | Lt => f
  | Gt => f + 1
  | Eq => if Z.even f then f else f + 1
  end.

(** The exponent of the last place of a double near the positive
    [a]: 52 below the exponent of [a], and never below that of the
    subnormal numbers. *)
Definition ulp_exp (a : Q) : Z := Z.max (ilog2 a) (-1022) - 52.

(** The double nearest to the positive [a], were the exponent range
    unbounded above. *)
Definition rnd_pos (a : Q) : Q :=
  (inject_Z (round_half_even (a / pow2 (ulp_exp a))) * pow2 (ulp_exp a))%Q.

(** Rounding to nearest, ties to even, of binary64. *)
Definition rnd (x : Q) : number :=
  match Qcompare x 0 with
  | Eq => Fin 0
  | Gt => if Qle_bool (pow2 1024) (rnd_pos x) then PInf else Fin (rnd_pos x)
  | Lt => if Qle_bool (pow2 1024) (rnd_pos (- x)) then NInf
          else Fin (- rnd_pos (- x))
  end.

Definition neg (x : number) : number :=
  match x with
  | Fin a => Fin (- a)
  | PInf => NInf
  | NInf => PInf
  | NaN => NaN
  end.

(** [x + y] *)
Definition add (x y : number) : number :=
  match x, y with
  | NaN, _ | _, NaN => NaN
  | PInf, NInf | NInf, PInf => NaN
  | PInf, _ | _, PInf => PInf
  | NInf, _ | _, NInf => NInf
  | Fin a, Fin b => rnd (a + b)
  end.

(** [x - y] *)
Definition sub (x y : number) : number := add x (neg y).

(** An infinity times the finite [a]. *)
Definition scale_inf (inf : number) (a : Q) : number :=
  match Qcompare a 0 with
  | Eq => NaN
  | Gt => inf
  | Lt => neg inf
  end.

(** [x * y] *)
Definition mul (x y : number) : number :=
  match x, y with
  | NaN, _ | _, NaN => NaN
  | Fin a, Fin b => rnd (a * b)
  | Fin a, inf => scale_inf inf a
  | inf, Fin b => scale_inf inf b
  | PInf, PInf | NInf, NInf => PInf
  | PInf, NInf | NInf, PInf => NInf
  end.

(** [x / y]; a zero divisor is taken as the positive zero. *)
Definition div (x y : number) : number :=
  match x, y with
  | NaN, _ | _, NaN => NaN
  | Fin a, Fin b =>
      if Qeq_bool b 0 then
        match Qcompare a 0 with Eq => NaN | Gt => PInf | Lt => NInf end
      else rnd (a / b)
  | Fin _, _ => Fin 0
  | inf, Fin b => if Qle_bool 0 b then inf else neg inf
  | _, _ => NaN
  end.

(** [x < y] *)
Definition ltb (x y : number) : bool :=
  match x, y with
  | NaN, _ | _, NaN => false
  | Fin a, Fin b => negb (Qle_bool b a)
  | NInf, NInf | PInf, _ => false
  | NInf, _ => true
  | Fin _, PInf => true
  | Fin _, NInf => false
  end.

(** [Math.min(x, y)] *)
Definition min (x y : number) : number :=
  match x, y with
  | NaN, _ | _, NaN => NaN
  | _, _ => if ltb y x then y else x
  end.

(** The double of an integer. *)
Definition of_Z (z : Z) : number := rnd (inject_Z z).

(** [Math.ceil(x)] and [Math.floor(x)] *)
Definition ceil (x : number) : number :=
  match x with
  | Fin a => Fin (inject_Z (Qceiling a))
  | _ => x
  end.

Definition floor (x : number) : number :=
  match x with
  | Fin a => Fin (inject_Z (Qfloor a))
  | _ => x
  end.

(** The order of the numbers; NaN is not compared. *)
Definition num_le (x y : number) : Prop :=
  match x, y with
  | NaN, _ | _, NaN => False
  | NInf, _ | _, PInf => True
  | Fin a, Fin b => (a <= b)%Q
  | _, _ => False
  end.

(** The values of the finite doubles that are not negative: a
    mantissa of 53 bits at an exponent no lower than that of the
    subnormal numbers, below the overflow threshold. *)
Definition representable (q : Q) : Prop :=
  exists m e : Z,
    0 <= m < 2 ^ 53 /\ -1074 <= e /\
    (q == inject_Z m * pow2 e)%Q /\ (q < pow2 1024)%Q.

End Double.

(** ** The token bucket ([src/rate-limiter.ts]) *)

Module RateLimiter.
Import Double.

Record t : Type := {
  tokens : number;
  lastRefill : Z;
  maxTokens : number;
  refillRate : number
}.

(** [new RateLimiter(maxTokens, refillRate)] at time [now]. *)
Definition create (maxTokens refillRate : number) (now : Z) : t :=
  {| tokens := maxTokens; lastRefill := now;
     maxTokens := maxTokens; refillRate := refillRate |}.

Definition default_maxTokens : number := Fin 100.
Definition default_refillRate : number := Fin 10.

(** [refill()] when [Date.now()] reads [now]:
    [elapsed = (now - this.lastRefill) / 1000] and
    [Math.min(this.maxTokens, this.tokens + elapsed * this.refillRate)],
    each operation rounded.  The two readings of the clock are
    integers that doubles hold exactly, so their difference is the
    rounding of the exact difference. *)
Definition refill (now : Z) (b : t) : t :=
  let elapsed := div (of_Z (now - lastRefill b)) (Fin 1000) in
  {| tokens := min (maxTokens b) (add (tokens b) (mul elapsed (refillRate b)));
     lastRefill := now;
     maxTokens := maxTokens b;
     refillRate := refillRate b |}.

(** [Math.ceil((1 / this.refillRate) * 1000)] *)
Definition waitMs (b : t) : number :=
  ceil (mul (div (Fin 1) (refillRate b)) (Fin 1000)).

(** The delay a timer really gets: Node replaces a delay that is not
    between 1 and 2147483647 by 1. *)
Definition timer_delay (ms : number) : Z :=
  match ms with
  | Fin d => if Qle_bool 1 d && Qle_bool d 2147483647 then Qfloor d else 1
  | _ => 1
  end.

(** [this.tokens < 1] *)
Definition below_one (b : t) : bool := ltb (tokens b) (Fin 1).

(** [this.tokens -= 1] *)
Definition take (b : t) : t :=
  {| tokens := sub (tokens b) (Fin 1); lastRefill := lastRefill b;
     maxTokens := maxTokens b; refillRate := refillRate b |}.

Section Acquire.
(** [wake now d]: when a timer set at [now] for [d] milliseconds
    fires. *)
Variable wake : Z -> Z -> Z.

(** [acquire()] called when the clock reads [now]; each unit of
    [fuel] pays for one turn.  The result is the time of admission
    and the bucket then. *)
Fixpoint acquire (fuel : nat) (now : Z) (b : t) : option (Z * t) :=
  match fuel with
  | O => None
  | S fuel' =>
      let b1 := refill now b in
      if below_one b1 then
        acquire fuel' (wake now (timer_delay (waitMs b1))) b1
      else Some (now, take b1)
  end.

(** A caller that calls [acquire()] again and again, each call made
    [g] milliseconds after the previous one returned, for the gaps
    [g] of the list.  The result lists, per call, the bucket before
    the call, the time of admission and the bucket after it. *)
Fixpoint acquire_each (fuel : nat) (gaps : list Z) (now : Z) (b : t)
  : option (list (t * Z * t)) :=
match gaps with
| [] => Some []
| g :: gaps' =>
    match acquire fuel (now + g) b with
    | None => None
    | Some (admitted, b') =>
        match acquire_each fuel gaps' admitted b' with
        | None => None
        | Some trace => Some ((b, admitted, b') :: trace)
        end
    end
end.
End Acquire.

(** [getAvailableTokens()]: the number returned and the bucket as the
    refill leaves it. *)
Definition getAvailableTokens (now : Z) (b : t) : number * t :=
  let b1 := refill now b in (floor (tokens b1), b1).

(** A timer that fires exactly on time. *)
Definition punctual (now d : Z) : Z := now + d.

End RateLimiter.

(** ** Buffers and the UTF-8 codec of Node *)

Module Buffer.

(** A [Buffer] is a sequence of bytes, each in [0, 255]. *)
Definition t := list Z.

(** [Buffer.alloc(n)] *)
Definition alloc (n : nat) : t := repeat 0 n.

(** [buf[i]] in an arithmetic context: a read past the end is
    [undefined], which [^] takes as 0. *)
Definition get (buf : t) (i : nat) : Z := nth i buf 0.

(** [buf[i] = v]: the value is reduced to a byte; a write past the
    end does nothing. *)
Fixpoint set (buf : t) (i : nat) (v : Z) : t :=
  match buf, i with
  | [], _ => []
  | _ :: rest, O => (v mod 256) :: rest
  | b :: rest, S i' => b :: set rest i' v
  end.

(** [buf.fill(0)] *)
Definition fill0 (buf : t) : t := repeat 0 (List.length buf).

Definition is_high (c : Z) : bool := (55296 <=? c) && (c <=? 56319).
Definition is_low (c : Z) : bool := (56320 <=? c) && (c <=? 57343).

(** The code points of a string: a surrogate pair is one code point,
    a surrogate without its partner is replaced by U+FFFD. *)
Fixpoint code_points (s : jsstring) : list Z :=
  match s with
  | [] => []
  | c :: s' =>
      if is_high c then
        match s' with
        | d :: s'' =>
            if is_low d
            then (65536 + (c - 55296) * 1024 + (d - 56320)) :: code_points s''
            else 65533 :: code_points s'
        | [] => [65533]
        end
      else if is_low c then 65533 :: code_points s'
      else c :: code_points s'
  end.

(** The UTF-8 bytes of one code point. *)
Definition encode_cp (cp : Z) : list Z :=
  if cp <? 128 then [cp]
  else if cp <? 2048 then [192 + cp / 64; 128 + cp mod 64]
  else if cp <? 65536 then
    [224 + cp / 4096; 128 + (cp / 64) mod 64; 128 + cp mod 64]
  else
    [240 + cp / 262144; 128 + (cp / 4096) mod 64;
     128 + (cp / 64) mod 64; 128 + cp mod 64].

(** [Buffer.from(s, "utf-8")] *)
Definition from_utf8 (s : jsstring) : t := flat_map encode_cp (code_points s).

(** The state of the UTF-8 decoder: the code point under
    construction, the continuation bytes still needed, and the range
    the next byte must fall in. *)
Record decoder : Type := {
  dec_cp : Z;
  dec_needed : nat;
  dec_lower : Z;
  dec_upper : Z
}.

Definition dec_init : decoder :=
  {| dec_cp := 0; dec_needed := O; dec_lower := 128; dec_upper := 191 |}.

(** A byte read when no sequence is open: the code point it yields,
    if any, and the next state. *)
Definition dec_lead (b : Z) : option Z * decoder :=
  if b <=? 127 then (Some b, dec_init)
  else if (194 <=? b) && (b <=? 223) then
    (None, {| dec_cp := b - 192; dec_needed := 1;
              dec_lower := 128; dec_upper := 191 |})
  else if (224 <=? b) && (b <=? 239) then
    (None, {| dec_cp := b - 224; dec_needed := 2;
              dec_lower := if b =? 224 then 160 else 128;
              dec_upper := if b =? 237 then 159 else 191 |})
  else if (240 <=? b) && (b <=? 244) then
    (None, {| dec_cp := b - 240; dec_needed := 3;
              dec_lower := if b =? 240 then 144 else 128;
              dec_upper := if b =? 244 then 143 else 191 |})
  else (Some 65533, dec_init).

Definition opt_cons (o : option Z) (l : list Z) : list Z :=
  match o with Some x => x :: l | None => l end.

(** The code points of a byte sequence; an ill-formed part yields
    U+FFFD and decoding resumes at the offending byte. *)
Fixpoint decode_cps (st : decoder) (bytes : list Z) : list Z :=
  match bytes with
  | [] => match dec_needed st with O => [] | S _ => [65533] end
  | b :: rest =>
      match dec_needed st with
      | O => let (out, st') := dec_lead b in opt_cons out (decode_cps st' rest)
      | S n =>
          if (dec_lower st <=? b) && (b <=? dec_upper st) then
            let cp := dec_cp st * 64 + (b - 128) in
            match n with
            | O => cp :: decode_cps dec_init rest
            | S _ =>
                decode_cps {| dec_cp := cp; dec_needed := n;
                              dec_lower := 128; dec_upper := 191 |} rest
            end
          else
            let (out, st') := dec_lead b in
            65533 :: opt_cons out (decode_cps st' rest)
      end
  end.

(** The UTF-16 code units of one code point. *)
Definition utf16_of_cp (cp : Z) : list Z :=
  if cp <? 65536 then [cp]
  else [55296 + (cp - 65536) / 1024; 56320 + (cp - 65536) mod 1024].

(** [buf.toString("utf-8")] *)
Definition to_utf8_string (buf : t) : jsstring :=
  flat_map utf16_of_cp (decode_cps dec_init buf).

(** A string in which every surrogate is half of a pair, over code
    units in range. *)
Fixpoint well_formed (s : jsstring) : bool :=
  match s with
  | [] => true
  | c :: s' =>
      (0 <=? c) && (c <=? 65535) &&
      if is_high c then
        match s' with
        | d :: s'' => is_low d && well_formed s''
        | [] => false
        end
      else negb (is_low c) && well_formed s'
  end.

End Buffer.

(** ** The API client ([src/api-client.ts]) *)

Module ApiClient.

Definition CF_API_BASE : jsstring := js "https://api.cloudflare.com/client/v4".

Definition SAFE_ERROR_CODES (code : Z) : option jsstring :=
  match code with
  | 6003 => Some (js "Invalid request parameters")
  | 6100 => Some (js "Invalid request headers")
  | 6200 => Some (js "Invalid request body")
  | 7000 => Some (js "Authentication error")
  | 7003 => Some (js "Forbidden - insufficient permissions")
  | 9109 => Some (js "Resource not found")
  | 10000 => Some (js "Rate limit exceeded")
  | _ => None
  end.

Definition GENERIC_MESSAGE : jsstring :=
  js "An error occurred processing your request".

Record CloudflareConfig : Type := { apiToken : jsstring }.

Record ApiError : Type := { code : Z; message : jsstring }.

Record ResultInfo : Type := {
  page : Z; per_page : Z; total_pages : Z; count : Z; total_count : Z
}.

Record CloudflareResponse : Type := {
  success : bool;
  errors : list ApiError;
  messages : list jsstring;
  result : value;
  result_info : option ResultInfo
}.

Record CloudflareClient : Type := {
  tokenXorKey : Buffer.t;
  obfuscatedToken : Buffer.t;
  rateLimiter : RateLimiter.t
}.

(** [for (let i = 0; i < n; i++) dst[i] = src[i] ^ key[i]] *)
Definition xor_loop (n : nat) (src key dst : Buffer.t) : Buffer.t :=
  fold_left
    (fun d i => Buffer.set d i (Z.lxor (Buffer.get src i) (Buffer.get key i)))
    (seq 0 n) dst.

(** [getToken()]: the token, and the temporary buffer as it is left. *)
Definition getToken_run (c : CloudflareClient) : jsstring * Buffer.t :=
  let n := List.length (obfuscatedToken c) in
  let token := xor_loop n (obfuscatedToken c) (tokenXorKey c) (Buffer.alloc n) in
  let result := Buffer.to_utf8_string token in
  (result, Buffer.fill0 token).

Definition getToken (c : CloudflareClient) : jsstring := fst (getToken_run c).

(** [[...new Set(l)]]: the distinct elements in order of first
    occurrence. *)
Definition unique (l : list jsstring) : list jsstring :=
  fold_left
    (fun seen x => if existsb (JsString.eqb x) seen then seen else seen ++ [x])
    l [].

(** What a routine hands to the host for one transfer: the string
    that [new URL] parses, the pairs appended to the search
    parameters of that URL, each value through [String], and the
    method, the [Authorization] header and the body given to
    [fetch].  The address fetched is the serialisation of that URL,
    which the host computes. *)
Record HttpRequest : Type := {
  http_method : jsstring;
  url_text : jsstring;
  url_appended : list (jsstring * value);
  http_authorization : jsstring;
  http_body : option (jsstring * option obj)
}.

(** What [await fetch(...)] followed by [await response.json()]
    comes to, for a body of type [B]. *)
Inductive fetch_result (B : Type) : Type :=
| FetchRejects (e : thrown)
| JsonRejects (e : thrown)
| Json (data : B).
Arguments FetchRejects {B} e.
Arguments JsonRejects {B} e.
Arguments Json {B} data.

Record NetReply (B : Type) : Type := {
  latency : Z;
  answer : fetch_result B
}.

(** The process state outside the client: the clock and the
    diagnostic channel. *)
Record Runtime : Type := {
  clock : Z;
  stderr : list AuditLogger.AuditLine
}.

(** [error instanceof Error ? error.message : "Unknown error"] *)
Definition catch_message (e : thrown) : jsstring :=
  match e with
  | ErrorObj m => m
  | NonError _ => js "Unknown error"
  end.

(** The [try] block of [request] once the reply is known. *)
Definition request_try (reply : fetch_result CloudflareResponse)
  : outcome CloudflareResponse :=
  match reply with
  | FetchRejects e | JsonRejects e => Throw e
  | Json data =>
      if negb (success data) then
        let safeMessages :=
          map (fun e => match SAFE_ERROR_CODES (code e) with
                        | Some m => m
                        | None => GENERIC_MESSAGE
                        end) (errors data) in
        let uniqueMessages := unique safeMessages in
        let errorMessage := JsString.join (js "; ") uniqueMessages in
        Throw (ErrorObj (js "Cloudflare API error: " ++ errorMessage))
      else Return data
  end.

(** The [try] block of [graphqlAnalytics]: the parsed body is
    returned as it is. *)
Definition graphql_try {B} (reply : fetch_result B) : outcome B :=
  match reply with
  | FetchRejects e | JsonRejects e => Throw e
  | Json data => Return data
  end.

Definition is_return {A} (r : outcome A) : bool :=
  match r with Return _ => true | Throw _ => false end.

(** The value of [errorMessage] when the [finally] block runs. *)
Definition error_summary {A} (r : outcome A) : option jsstring :=
  match r with
  | Return _ => None
  | Throw e => Some (catch_message e)
  end.

(** The defined entries of [params], as they are appended to the
    query string. *)
Definition search_params (params : option obj) : list (jsstring * value) :=
  match params with
  | None => []
  | Some ps =>
      filter (fun kv => match snd kv with VUndefined => false | _ => true end) ps
  end.

Section Client.
(** The host: the random source, the timers, the JSON parser. *)
Variable randomBytes : nat -> Buffer.t.
Variable wake : Z -> Z -> Z.
Variable JSON_parse : jsstring -> option value.
(** Turns a waiting caller may take before the model gives up. *)
Variable fuel : nat.

(** [new CloudflareClient(config)] at time [now]: the client, and
    the caller's [config] object as the constructor leaves it. *)
Definition constructor (config : CloudflareConfig) (now : Z)
  : CloudflareClient * CloudflareConfig :=
  let tokenBuffer := Buffer.from_utf8 (apiToken config) in
  let n := List.length tokenBuffer in
  let key := randomBytes n in
  let obfuscated := xor_loop n tokenBuffer key (Buffer.alloc n) in
  ({| tokenXorKey := key;
      obfuscatedToken := obfuscated;
      rateLimiter := RateLimiter.create (Double.Fin 100) (Double.Fin 10) now |},
   config).

Definition with_limiter (c : CloudflareClient) (l : RateLimiter.t) :=
  {| tokenXorKey := tokenXorKey c;
     obfuscatedToken := obfuscatedToken c;
     rateLimiter := l |}.

(** The [finally] block shared by both routines. *)
Definition finally_log {A} (toolName : jsstring) (params : obj)
           (startTime endTime : Z) (r : outcome A)
           (err : list AuditLogger.AuditLine) : list AuditLogger.AuditLine :=
  AuditLogger.logAuditEvent
    {| AuditLogger.timestamp := endTime;
       AuditLogger.tool := toolName;
       AuditLogger.parameters := params;
       AuditLogger.success := is_return r;
       AuditLogger.durationMs := endTime - startTime;
       AuditLogger.errorMessage :=
         AuditLogger.spread_message (error_summary r) |}
    err.

Section Request.
Variable upstream : HttpRequest -> NetReply CloudflareResponse.

(** [request(method, endpoint, params)]; [None] when the caller
    is still waiting in [acquire] after [fuel] turns.  The string
    given to [new URL] begins with the API base, which has a scheme
    and a host, so that the parsing does not fail whatever the
    endpoint is. *)
Definition request (method endpoint : jsstring) (params : option obj)
           (c : CloudflareClient) (rt : Runtime)
  : option (outcome CloudflareResponse * CloudflareClient * Runtime) :=
  match RateLimiter.acquire wake fuel (clock rt) (rateLimiter c) with
  | None => None
  | Some (startTime, limiter) =>
      let c' := with_limiter c limiter in
      let req :=
        {| http_method := method;
           url_text := CF_API_BASE ++ endpoint;
           url_appended := search_params params;
           http_authorization := js "Bearer " ++ getToken c';
           http_body := None |} in
      let reply := upstream req in
      let r := request_try (answer reply) in
      let endTime := startTime + latency reply in
      Some (r, c',
            {| clock := endTime;
               stderr :=
                 finally_log (method ++ js " " ++ endpoint)
                             (match params with Some ps => ps | None => [] end)
                             startTime endTime r (stderr rt) |})
  end.
End Request.

(** [!!variables] *)
Definition has_variables (variables : option jsstring) : bool :=
  match variables with
  | Some (_ :: _) => true
  | _ => false
  end.

(** [if (variables) body.variables = validateGraphQLVariables(variables)]:
    the variables that go into the body, if any. *)
Definition graphql_variables (variables : option jsstring)
  : outcome (option obj) :=
  match variables with
  | Some ((_ :: _) as text) =>
      match GraphqlValidator.validateGraphQLVariables JSON_parse text with
      | Return props => Return (Some props)
      | Throw e => Throw e
      end
  | _ => Return None
  end.

Section Graphql.
Variable B : Type.
Variable upstream : HttpRequest -> NetReply B.

(** [graphqlAnalytics(query, variables)] *)
Definition graphqlAnalytics (query : jsstring) (variables : option jsstring)
           (c : CloudflareClient) (rt : Runtime)
  : option (outcome B * CloudflareClient * Runtime) :=
  match GraphqlValidator.validateGraphQLQuery (VStr query) with
  | Throw e => Some (Throw e, c, rt)
  | Return _ =>
      match RateLimiter.acquire wake fuel (clock rt) (rateLimiter c) with
      | None => None
      | Some (startTime, limiter) =>
          let c' := with_limiter c limiter in
          match graphql_variables variables with
          | Throw e =>
              Some (Throw e, c', {| clock := startTime; stderr := stderr rt |})
          | Return vars =>
              let req :=
                {| http_method := js "POST";
                   url_text := CF_API_BASE ++ js "/graphql";
                   url_appended := [];
                   http_authorization := js "Bearer " ++ getToken c';
                   http_body := Some (query, vars) |} in
              let reply := upstream req in
              let r := graphql_try (answer reply) in
              let endTime := startTime + latency reply in
              Some (r, c',
                    {| clock := endTime;
                       stderr :=
                         finally_log
                           (js "POST /graphql")
                           [ (js "queryLength", VNum (Z.of_nat (List.length query)));
                             (js "hasVariables", VBool (has_variables variables)) ]
                           startTime endTime r (stderr rt) |})
          end
      end
  end.
End Graphql.
End Client.

End ApiClient.

(** ** The handler wrapper ([src/audit-logger.ts]) *)

Module AuditedHandler.
Import AuditLogger.

Section Wrapper.
(** What the handler carries besides the clock and the diagnostic
    channel, and what it returns.  A handler that never settles has
    no result. *)
Variable S : Type.
Variable R : Type.
Variable toolName : jsstring.
Variable handler :
  obj -> S * ApiClient.Runtime -> option (outcome R * (S * ApiClient.Runtime)).

(** The event of the [try] branch and of the [catch] branch. *)
Definition handler_event (params : obj) (startTime now : Z) (r : outcome R)
  : AuditEvent :=
  match r with
  | Return _ =>
      {| timestamp := now;
         tool := toolName;
         parameters := params;
         success := true;
         errorMessage := None;
         durationMs := now - startTime |}
  | Throw error =>
      {| timestamp := now;
         tool := toolName;
         parameters := params;
         success := false;
         errorMessage := Some (ApiClient.catch_message error);
         durationMs := now - startTime |}
  end.

(** [createAuditedHandler(toolName, handler)(params)] *)
Definition createAuditedHandler (params : obj) (st : S * ApiClient.Runtime)
  : option (outcome R * (S * ApiClient.Runtime)) :=
  let startTime := ApiClient.clock (snd st) in
  match handler params st with
  | None => None
  | Some (r, st') =>
      let now := ApiClient.clock (snd st') in
      Some (r, (fst st',
                {| ApiClient.clock := now;
                   ApiClient.stderr :=
                     logAuditEvent (handler_event params startTime now r)
                                   (ApiClient.stderr (snd st')) |}))
  end.
End Wrapper.

End AuditedHandler.

(** ** Endpoint methods of the client ([src/api-client.ts]) *)

Module Endpoints.
Import ApiClient.

(** The optional filters of [getAuditLogs]. *)
Record AuditLogFilter : Type := {
  since : option jsstring;
  before : option jsstring;
  actor_email : option jsstring;
  actor_ip : option jsstring;
  action_type : option jsstring;
  zone_name : option jsstring;
  per_page : option Z;
  page : option Z
}.

(** [if (params?.f) queryParams[name] = params.f] for a string
    filter: an absent or empty string is skipped. *)
Definition copy_string (name : string) (f : option jsstring) (queryParams : obj)
  : obj :=
  match f with
  | Some ((_ :: _) as s) => put_prop queryParams (js name) (VStr s)
  | _ => queryParams
  end.

(** The same for a number filter: an absent or zero number is
    skipped. *)
Definition copy_number (name : string) (f : option Z) (queryParams : obj) : obj :=
  match f with
  | Some n => if n =? 0 then queryParams
              else put_prop queryParams (js name) (VNum n)
  | None => queryParams
  end.

(** The [queryParams] object that [getAuditLogs] builds. *)
Definition audit_log_query (params : option AuditLogFilter) : obj :=
  match params with
  | None => []
  | Some p =>
      copy_number "page" (page p)
        (copy_number "per_page" (per_page p)
           (copy_string "zone.name" (zone_name p)
              (copy_string "action.type" (action_type p)
                 (copy_string "actor.ip" (actor_ip p)
                    (copy_string "actor.email" (actor_email p)
                       (copy_string "before" (before p)
                          (copy_string "since" (since p) [])))))))
  end.

Section Methods.
Variable wake : Z -> Z -> Z.
Variable fuel : nat.
Variable upstream : HttpRequest -> NetReply CloudflareResponse.

Definition listAccounts :=
  request wake fuel upstream (js "GET") (js "/accounts") None.

Definition getAccount (accountId : jsstring) :=
  request wake fuel upstream (js "GET") (js "/accounts/" ++ accountId) None.

Definition listAccountMembers (accountId : jsstring) :=
  request wake fuel upstream (js "GET")
          (js "/accounts/" ++ accountId ++ js "/members") None.

Definition getAuditLogs (accountId : jsstring) (params : option AuditLogFilter) :=
  request wake fuel upstream (js "GET")
          (js "/accounts/" ++ accountId ++ js "/audit_logs")
          (Some (audit_log_query params)).

Definition listZones (params : option obj) :=
  request wake fuel upstream (js "GET") (js "/zones") params.

Definition getZoneAnalytics (zoneId : jsstring) (params : option obj) :=
  request wake fuel upstream (js "GET")
          (js "/zones/" ++ zoneId ++ js "/analytics/dashboard") params.

Definition getAnalyticsByColo (zoneId : jsstring) (params : option obj) :=
  request wake fuel upstream (js "GET")
          (js "/zones/" ++ zoneId ++ js "/analytics/colos") params.
End Methods.

End Endpoints.

(** ** Start of the server ([src/index.ts]) *)

Module Server.
Import ApiClient.

(** The process either exits at once or runs with a client. *)
Inductive startup : Type :=
| Exit (code : Z) (message : jsstring)
| Running (client : CloudflareClient).

(** The first lines of [index.ts]: [token] is
    [process.env.CLOUDFLARE_API_TOKEN]. *)
Definition start (randomBytes : nat -> Buffer.t) (token : option jsstring)
           (now : Z) : startup :=
  match token with
  | Some ((_ :: _) as apiToken) =>
      Running (fst (constructor randomBytes {| apiToken := apiToken |} now))
  | _ =>
      Exit 1 (js "Error: CLOUDFLARE_API_TOKEN environment variable is required")
  end.

(** What a tool hands back to the protocol layer. *)
Record ContentItem : Type := { item_type : jsstring; item_text : jsstring }.
Record ToolResult : Type := { content : list ContentItem }.

(** The arguments of the tool [list_zones], each one optional. *)
Record ListZonesArgs : Type := {
  account_id : option jsstring;
  name : option jsstring;
  status : option jsstring;
  per_page : option Z;
  page : option Z
}.

(** An optional argument as the handler passes it on: an absent one
    is [undefined]. *)
Definition opt_string (a : option jsstring) : value :=
  match a with Some s => VStr s | None => VUndefined end.

Definition opt_number (a : option Z) : value :=
  match a with Some n => VNum n | None => VUndefined end.

(** [{ account_id, name, status, per_page, page }] *)
Definition list_zones_params (args : ListZonesArgs) : obj :=
  [ (js "account_id", opt_string (account_id args));
    (js "name", opt_string (name args));
    (js "status", opt_string (status args));
    (js "per_page", opt_number (per_page args));
    (js "page", opt_number (page args)) ].

Section Tools.
Variable wake : Z -> Z -> Z.
Variable fuel : nat.
Variable upstream : HttpRequest -> NetReply CloudflareResponse.
(** [JSON.stringify(result, null, 2)] *)
Variable stringify : CloudflareResponse -> jsstring.

(** The body every tool handler has: one call of a method of the
    client, then its result as one text item. *)
Definition tool
           (call : CloudflareClient -> Runtime ->
                   option (outcome CloudflareResponse * CloudflareClient * Runtime))
           (st : CloudflareClient * Runtime)
  : option (outcome ToolResult * (CloudflareClient * Runtime)) :=
  match call (fst st) (snd st) with
  | None => None
  | Some (Return result, client, rt) =>
      Some (Return {| content :=
                        [ {| item_type := js "text";
                             item_text := stringify result |} ] |},
            (client, rt))
  | Some (Throw error, client, rt) => Some (Throw error, (client, rt))
  end.

Definition list_accounts :=
  tool (Endpoints.listAccounts wake fuel upstream).

Definition get_account (account_id : jsstring) :=
  tool (Endpoints.getAccount wake fuel upstream account_id).

Definition list_account_members (account_id : jsstring) :=
  tool (Endpoints.listAccountMembers wake fuel upstream account_id).

Definition get_audit_logs (account_id : jsstring)
           (filters : Endpoints.AuditLogFilter) :=
  tool (Endpoints.getAuditLogs wake fuel upstream account_id (Some filters)).

Definition list_zones (args : ListZonesArgs) :=
  tool (Endpoints.listZones wake fuel upstream (Some (list_zones_params args))).
End Tools.

End Server.

(** * Vocabulary of the statements *)

Module RegexSpec.
Import Regex.

(** Two words that the [i] flag identifies. *)
Definition same_word_i (u w : list Z) : Prop :=
  Forall2 (fun c x => canonicalize c = canonicalize x) u w.

(** A keyword, any white space, then an opening brace or
    parenthesis. *)
Definition block_opener (kw u : list Z) : Prop :=
  exists k ws c,
    u = k ++ ws ++ [c] /\ same_word_i k kw /\
    Forall (fun x => JsString.isWhiteSpace x = true) ws /\
    (c = 123 \/ c = 40).

End RegexSpec.

Module GraphqlValidatorSpec.
Import Regex GraphqlValidator RegexSpec.

(** The trimmed text contains the word [w], in any case. *)
Definition contains_i (t w : jsstring) : Prop :=
  exists pre u post, t = pre ++ u ++ post /\ same_word_i u w.

(** The trimmed text contains the keyword [kw] followed by the
    opening of a block. *)
Definition opens_block (t kw : jsstring) : Prop :=
  exists pre u post, t = pre ++ u ++ post /\ block_opener kw u.

Definition blocked (t : jsstring) : Prop :=
  contains_i t (js "__schema") \/ contains_i t (js "__type") \/
  opens_block t (js "mutation") \/ opens_block t (js "subscription").

(** The text begins with the word [w], in any case. *)
Definition begins_i (t w : jsstring) : Prop :=
  exists u rest, t = u ++ rest /\ same_word_i u w.

Definition allowed_start (t : jsstring) : Prop :=
  begins_i t (js "query") \/ begins_i t (js "{").

Definition rejects (query : value) : Prop :=
  exists e, validateGraphQLQuery query = Throw e.

Definition accepts (query : value) : Prop :=
  validateGraphQLQuery query = Return tt.

(** An ASCII unit that is no capital letter, no [i] and no [k]: the
    units for which lower-casing the text and the [i] flag agree. *)
Definition plain_unit (x : Z) : bool :=
  (0 <=? x) && (x <? 128) && negb ((65 <=? x) && (x <=? 90))
  && negb (x =? 105) && negb (x =? 107).

Definition not_a_nonempty_string (query : value) : Prop :=
  match query with
  | VStr (_ :: _) => False
  | _ => True
  end.

End GraphqlValidatorSpec.

Module AuditLoggerSpec.
Import AuditLogger.

(** What the loop stores under [key] for the value [v]. *)
Definition sanitized_value (key : jsstring) (v : value) : value :=
  if redact_key key then REDACTED
  else if is_object v then VObj (sanitizeParams v)
  else v.

(** The keys of an object other than [__proto__]. *)
Definition own_key (key : jsstring) : bool := negb (JsString.eqb key PROTO).

(** The loop over the entries of an object. *)
Definition object_loop (props acc : obj) : obj :=
  fold_left
    (fun result kv => sanitize_entry sanitizeParams result (fst kv) (snd kv))
    props acc.



(** The loop over the elements of an array, with its index. *)
Definition array_loop (items : list value) (st : obj * nat) : obj * nat :=
  fold_left
    (fun st v =>
       (sanitize_entry sanitizeParams (fst st) (index_key (snd st)) v,
        S (snd st)))
    items st.



(** An entry the sanitizer would store back as it is. *)
Definition settled (kv : jsstring * value) : Prop :=
  fst kv <> PROTO /\ sanitized_value (fst kv) (snd kv) = snd kv.

(** A mapping with a nested object under a matching key. *)
Definition nested_params : obj :=
  [ (js "db_secret", VObj [ (js "inner", VNum 1) ]);
    (js "zone", VObj [ (js "id", VNum 7) ]) ].

End AuditLoggerSpec.

Module RateLimiterSpec.
Import Double RateLimiter.

(** The seconds from [last] to [now], as [refill] computes them. *)
Definition elapsed (now last : Z) : number :=
  div (of_Z (now - last)) (Fin 1000).

(** What a refill at [now] adds to the count, before the cap. *)
Definition refilled (now : Z) (b : t) : number :=
  mul (elapsed now (lastRefill b)) (refillRate b).

(** The count is within its bounds. *)
Definition bucket_ok (b : t) : Prop :=
  exists c m : Q,
    tokens b = Fin c /\ maxTokens b = Fin m /\ (0 <= c)%Q /\ (c <= m)%Q.

(** A regular bucket: its fields are finite doubles, the count is
    within its bounds, the capacity is at most 2^53 and the rate is
    positive. *)
Definition regular (b : t) : Prop :=
  exists c m r : Q,
    tokens b = Fin c /\ maxTokens b = Fin m /\ refillRate b = Fin r /\
    representable c /\ representable m /\
    (c <= m)%Q /\ (m <= pow2 53)%Q /\ (0 < r)%Q.

(** A timer never fires early. *)
Definition timely (wake : Z -> Z -> Z) : Prop :=
  forall now d, now + d <= wake now d.

(** The delay of the timer a waiting caller sets. *)
Definition delay (b : t) : Z := timer_delay (waitMs b).

(** What a refill adds when exactly one timer period has passed. *)
Definition timer_gain (b : t) : number :=
  mul (div (of_Z (delay b)) (Fin 1000)) (refillRate b).

(** Turns that are enough for a caller at [now]: one when the
    refilled bucket holds a token, one more than [2^k] waits
    otherwise. *)
Definition turns_needed (k : Z) (now : Z) (b : t) : nat :=
  if below_one (refill now b) then S (Z.to_nat (2 ^ k)) else 1%nat.


(** Three calls on a bucket of capacity one, ten tokens a second,
    with timers that fire on time: the second call waits for its
    token. *)
Definition example_bucket : t := create (Fin 1) (Fin 10) 0.
Definition example_gaps : list Z := [0; 50; 1000].
Definition example_trace : list (t * Z * t) :=
  match acquire_each punctual 3 example_gaps 0 example_bucket with
  | Some trace => trace
  | None => []
  end.

(** The value of a finite number. *)
Definition amount (x : number) : Q :=
  match x with
  | Fin q => q
  | _ => 0
  end.

(** The count a bucket holds. *)
Definition level (b : t) : Q := amount (tokens b).




(** The bucket of the server, emptied at time 0. *)
Definition drained_bucket : t :=
  {| tokens := Fin 0; lastRefill := 0;
     maxTokens := default_maxTokens; refillRate := default_refillRate |}.




(** The rate times the time from [from] to [to], in exact
    arithmetic. *)
Definition due (b : t) (from to : Z) : Q :=
  (inject_Z (to - from) / 1000 * amount (refillRate b))%Q.

(** The two roundings of the product, as a factor. *)
Definition excess : Q := ((1 + pow2 (-53)) * (1 + pow2 (-53)))%Q.

(** What the rounding of one refill can add. *)
Definition check_slack (b : t) : Q :=
  (pow2 (-53) * amount (maxTokens b) + pow2 (-1074))%Q.

End RateLimiterSpec.

Module BufferSpec.
Import Buffer.

Definition is_byte (b : Z) : Prop := 0 <= b < 256.

(** A Unicode scalar value: a code point that is no surrogate. *)
Definition scalar (cp : Z) : Prop :=
  0 <= cp < 1114112 /\ ~ (55296 <= cp <= 57343).

(** Code units in range: what every JavaScript string satisfies. *)
Definition units_ok (s : jsstring) : Prop :=
  Forall (fun c => 0 <= c <= 65535) s.

End BufferSpec.

Module VaultSpec.
Import Buffer ApiClient BufferSpec.

(** The random source gives as many bytes as it is asked for. *)
Definition mask_ok (randomBytes : nat -> Buffer.t) : Prop :=
  forall n, List.length (randomBytes n) = n /\ Forall is_byte (randomBytes n).

Definition xor_at (src key : Buffer.t) (i : nat) : Z :=
  Z.lxor (get src i) (get key i).

(** A mask that is the same byte everywhere, for examples. *)
Definition fixed_mask (n : nat) : Buffer.t := repeat 90 n.

End VaultSpec.

Module GatewaySpec.
Import ApiClient RateLimiterSpec VaultSpec.

(** The safe message of one upstream error code. *)
Definition safe_message (c : Z) : jsstring :=
  match SAFE_ERROR_CODES c with
  | Some m => m
  | None => GENERIC_MESSAGE
  end.

(** The message of the error raised for a failed envelope, from its
    error codes alone. *)
Definition safe_error_message (codes : list Z) : jsstring :=
  js "Cloudflare API error: " ++
  JsString.join (js "; ") (unique (map safe_message codes)).

(** The fixed strings a safe message is taken from. *)
Definition SAFE_STRINGS : list jsstring :=
  [ js "Invalid request parameters"; js "Invalid request headers";
    js "Invalid request body"; js "Authentication error";
    js "Forbidden - insufficient permissions"; js "Resource not found";
    js "Rate limit exceeded"; GENERIC_MESSAGE ].

Definition unique_step (seen : list jsstring) (x : jsstring) : list jsstring :=
  if existsb (JsString.eqb x) seen then seen else seen ++ [x].

(** The limiter will admit the caller within the fuel given: with
    timers that never fire early, its bucket is regular and was
    not refilled after [now], holds a token at least when it is full
    and gains at least [1/2^k] of a token in a timer period, and the
    fuel pays for the turns that this takes. *)
Definition served (wake : Z -> Z -> Z) (fuel : nat)
           (c : CloudflareClient) (rt : Runtime) : Prop :=
  timely wake /\
  regular (rateLimiter c) /\
  RateLimiter.lastRefill (rateLimiter c) <= clock rt /\
  exists (m : Q) (k : Z),
    RateLimiter.maxTokens (rateLimiter c) = Double.Fin m /\ (1 <= m)%Q /\
    0 <= k <= 52 /\
    Double.num_le (Double.Fin (Double.pow2 (- k))) (timer_gain (rateLimiter c)) /\
    (turns_needed k (clock rt) (rateLimiter c) <= fuel)%nat.

(** The line the [finally] block writes. *)
Definition audit_line {A} (toolName : jsstring) (params : obj)
           (startTime endTime : Z) (r : outcome A) : AuditLogger.AuditLine :=
  {| AuditLogger.line_type := js "audit";
     AuditLogger.line_timestamp := endTime;
     AuditLogger.line_tool := toolName;
     AuditLogger.line_parameters :=
       AuditLogger.kept (AuditLogger.sanitizeParams (VObj params));
     AuditLogger.line_success := is_return r;
     AuditLogger.line_durationMs := endTime - startTime;
     AuditLogger.line_errorMessage :=
       AuditLogger.spread_message (error_summary r) |}.

(** What [request] hands to the host. *)
Definition request_sent (method endpoint : jsstring) (params : option obj)
           (c : CloudflareClient) : HttpRequest :=
  {| http_method := method;
     url_text := CF_API_BASE ++ endpoint;
     url_appended := search_params params;
     http_authorization := js "Bearer " ++ getToken c;
     http_body := None |}.

(** What [graphqlAnalytics] hands to the host. *)
Definition graphql_sent (query : jsstring) (vars : option obj)
           (c : CloudflareClient) : HttpRequest :=
  {| http_method := js "POST";
     url_text := CF_API_BASE ++ js "/graphql";
     url_appended := [];
     http_authorization := js "Bearer " ++ getToken c;
     http_body := Some (query, vars) |}.

Definition params_or_empty (params : option obj) : obj :=
  match params with Some ps => ps | None => [] end.

Definition graphql_params (query : jsstring) (variables : option jsstring) : obj :=
  [ (js "queryLength", VNum (Z.of_nat (List.length query)));
    (js "hasVariables", VBool (has_variables variables)) ].

Definition example_client : CloudflareClient :=
  fst (constructor VaultSpec.fixed_mask {| apiToken := js "cf-token-1" |} 0).

Definition example_runtime : Runtime := {| clock := 0; stderr := [] |}.

(** A failed envelope with one error, code 7003, carrying the text
    [detail]. *)
Definition failed_envelope (detail : jsstring) : CloudflareResponse :=
  {| success := false;
     errors := [ {| code := 7003; message := detail |} ];
     messages := [];
     result := VNull;
     result_info := None |}.

(** An upstream that answers every request with [data] after five
    milliseconds. *)
Definition stub {B} (data : B) (req : HttpRequest) : NetReply B :=
  {| latency := 5; answer := Json data |}.

(** A JSON parser that refuses every text. *)
Definition no_json (text : jsstring) : option value := None.

Definition outcome_of {A} (run : option (outcome A * CloudflareClient * Runtime))
  : option (outcome A) :=
  option_map (fun x => fst (fst x)) run.

Definition stderr_of {A} (run : option (outcome A * CloudflareClient * Runtime))
  : list AuditLogger.AuditLine :=
  match run with
  | Some x => stderr (snd x)
  | None => []
  end.

End GatewaySpec.

Module ThrottleSpec.
Import Double RateLimiter RateLimiterSpec.

(** When a step of a sequence of calls was admitted. *)
Definition admitted_at (step : t * Z * t) : Z := snd (fst step).

(** The time of the last admission of a sequence that started at
    [now]. *)
Definition finish (now : Z) (trace : list (t * Z * t)) : Z :=
  last (map admitted_at trace) now.

(** The bucket a sequence of calls leaves behind. *)
Definition final_bucket (b : t) (trace : list (t * Z * t)) : t :=
  last (map (fun step => snd step) trace) b.

(** The server's bucket as the constructor of the client makes it. *)
Definition server_bucket (now : Z) : t :=
  create default_maxTokens default_refillRate now.

(** The count and the capacity are doubles with
    0 <= count <= capacity <= 2^53, and the rate is finite. *)
Definition sound (b : t) : Prop :=
  exists c m r : Q,
    tokens b = Fin c /\ maxTokens b = Fin m /\ refillRate b = Fin r /\
    representable c /\ representable m /\ (c <= m)%Q /\ (m <= pow2 53)%Q.

(** No timer fires before it was set, nor 2^53 ms or more after. *)
Definition patient (wake : Z -> Z -> Z) : Prop :=
  forall now d, 1 <= d <= 2147483647 -> now <= wake now d < now + 2 ^ 53.

(** A bucket that can admit nobody: its capacity is below one, or
    its rate is zero and its count is below one. *)
Definition starving (b : t) : Prop :=
  exists c m r : Q,
    tokens b = Fin c /\ maxTokens b = Fin m /\ refillRate b = Fin r /\
    (0 <= c)%Q /\ (0 <= m)%Q /\ (0 <= r)%Q /\
    ((m < 1)%Q \/
     (r == 0)%Q /\ exists u, representable u /\ (c <= u)%Q /\ (u < 1)%Q).

End ThrottleSpec.

Module RedactionSpec.
Import AuditLogger AuditLoggerSpec.

(** The value found by following the keys of [path] from [v], one
    object down per key. *)
Fixpoint reach (v : value) (path : list jsstring) : option value :=
  match path with
  | [] => Some v
  | key :: path' =>
      match v with
      | VObj props =>
          match get_prop props key with
          | Some w => reach w path'
          | None => None
          end
      | _ => None
      end
  end.

(** Parameters with a credential three objects down, inside an
    array. *)
Definition deep_params : obj :=
  [ (js "zone", VStr (js "example.com"));
    (js "hooks",
     VArr [ VObj [ (js "url", VStr (js "https://example.com/hook"));
                   (js "auth", VObj [ (js "Secret_Key", VStr (js "s3cr3t")) ]) ] ]) ].

End RedactionSpec.

Module CredentialSpec.
Import Buffer BufferSpec ApiClient VaultSpec.

(** The string with every surrogate that is not half of a pair
    replaced by U+FFFD. *)
Definition toWellFormed (s : jsstring) : jsstring :=
  flat_map utf16_of_cp (code_points s).

(** The client made from the token [secret]. *)
Definition client_of (randomBytes : nat -> Buffer.t) (secret : jsstring) (now : Z)
  : CloudflareClient :=
  fst (constructor randomBytes {| apiToken := secret |} now).

End CredentialSpec.

Module EndpointSpec.
Import AuditLogger AuditLoggerSpec ApiClient Endpoints GatewaySpec.

(** A string filter is forwarded when it is a non-empty string. *)
Definition string_filter (f : option jsstring) : option value :=
  match f with
  | Some ((_ :: _) as s) => Some (VStr s)
  | _ => None
  end.

(** A number filter is forwarded when it is not zero. *)
Definition number_filter (f : option Z) : option value :=
  match f with
  | Some n => if n =? 0 then None else Some (VNum n)
  | None => None
  end.

(** The filters under the names the upstream API knows them by, in
    the order the method looks at them. *)
Definition upstream_filters (p : AuditLogFilter) : list (jsstring * option value) :=
  [ (js "since", string_filter (since p));
    (js "before", string_filter (before p));
    (js "actor.email", string_filter (actor_email p));
    (js "actor.ip", string_filter (actor_ip p));
    (js "action.type", string_filter (action_type p));
    (js "zone.name", string_filter (zone_name p));
    (js "per_page", number_filter (Endpoints.per_page p));
    (js "page", number_filter (Endpoints.page p)) ].

Definition present (kv : jsstring * option value) : obj :=
  match snd kv with
  | Some v => [(fst kv, v)]
  | None => []
  end.

(** The filters that are forwarded. *)
Definition filter_entries (params : option AuditLogFilter) : obj :=
  match params with
  | Some p => flat_map present (upstream_filters p)
  | None => []
  end.

Definition copy_filter (q : obj) (kv : jsstring * option value) : obj :=
  match snd kv with
  | Some v => put_prop q (fst kv) v
  | None => q
  end.

End EndpointSpec.

Module ToolSpec.
Import AuditLogger ApiClient Endpoints Server GatewaySpec.

(** The one text item a tool hands back for the envelope [data]. *)
Definition text_result (stringify : CloudflareResponse -> jsstring)
           (data : CloudflareResponse) : ToolResult :=
  {| content := [ {| item_type := js "text"; item_text := stringify data |} ] |}.

(** What a tool makes of the outcome of the client method. *)
Definition relay (stringify : CloudflareResponse -> jsstring)
           (r : outcome CloudflareResponse) : outcome ToolResult :=
  match r with
  | Return data => Return (text_result stringify data)
  | Throw e => Throw e
  end.

End ToolSpec.

Module RequestSpec.
Import AuditLogger ApiClient RateLimiterSpec BufferSpec VaultSpec GatewaySpec.

(** The length of the separators and words of a list of messages. *)
Definition width (l : list jsstring) : nat :=
  list_sum (map (fun m => (List.length m + 2)%nat) l).


(** An envelope with one error for each code of the list. *)
Definition envelope_with (codes : list Z) : CloudflareResponse :=
  {| success := false;
     errors := map (fun k => {| code := k; message := js "detail" |}) codes;
     messages := [];
     result := VNull;
     result_info := None |}.

End RequestSpec.

Module GuardSpec.
Import Regex RegexSpec GraphqlValidator GraphqlValidatorSpec.

(** Text that [trim] removes altogether. *)
Definition blank (s : jsstring) : Prop :=
  Forall (fun c => JsString.isWhiteSpace c = true) s.

(** The verdict on a text that is already trimmed. *)
Definition verdict (trimmed : jsstring) : outcome unit :=
  if existsb (fun pattern => test pattern trimmed) BLOCKED_PATTERNS then
    throw_Error "GraphQL query contains disallowed operations"
  else if negb (existsb (fun op => JsString.startsWith
                                     (JsString.toLowerCase trimmed) op)
                        ALLOWED_OPERATION_STARTS) then
    throw_Error "GraphQL query must be a read-only query operation"
  else Return tt.

(** A pattern whose character classes do not tell apart two units
    that the [i] flag identifies. *)
Fixpoint caseless (r : regex) : Prop :=
  match r with
  | Void | Eps => True
  | Class p => forall c c', canonicalize c = canonicalize c' -> p c = p c'
  | Seq a b | Alt a b => caseless a /\ caseless b
  | Star a => caseless a
  end.

End GuardSpec.

Module AnalyticsSpec.
Import AuditLogger ApiClient GraphqlValidator RateLimiterSpec GatewaySpec GatewaySpec.

(** What [graphqlAnalytics] comes to once the query is accepted, the
    caller admitted at [startTime] and the variables [vars] are
    settled. *)
Definition graphql_outcome {B} (upstream : HttpRequest -> NetReply B)
           (query : jsstring) (variables : option jsstring) (vars : option obj)
           (c : CloudflareClient) (rt : Runtime) (startTime : Z)
           (limiter : RateLimiter.t)
  : option (outcome B * CloudflareClient * Runtime) :=
  let c' := with_limiter c limiter in
  let reply := upstream (graphql_sent query vars c') in
  Some (graphql_try (answer reply), c',
        {| clock := startTime + latency reply;
           stderr := stderr rt ++
                     [audit_line (js "POST /graphql") (graphql_params query variables)
                                 startTime (startTime + latency reply)
                                 (graphql_try (answer reply))] |}).

End AnalyticsSpec.

Module TrailSpec.
Import AuditLogger ApiClient RateLimiterSpec GatewaySpec.

(** A caller that makes one [GET] request after another through one
    client, each [gap] milliseconds after the previous one has
    settled: the outcomes, and the client and the process state at
    the end. *)
Fixpoint request_each (wake : Z -> Z -> Z) (fuel : nat)
         (upstream : HttpRequest -> NetReply CloudflareResponse)
         (calls : list (Z * jsstring * option obj))
         (c : CloudflareClient) (rt : Runtime)
  : option (list (outcome CloudflareResponse) * CloudflareClient * Runtime) :=
  match calls with
  | [] => Some ([], c, rt)
  | (gap, endpoint, params) :: rest =>
      match request wake fuel upstream (js "GET") endpoint params c
                    {| clock := clock rt + gap; stderr := stderr rt |} with
      | None => None
      | Some (r, c', rt') =>
          match request_each wake fuel upstream rest c' rt' with
          | None => None
          | Some (rs, c'', rt'') => Some (r :: rs, c'', rt'')
          end
      end
  end.

Definition call_tool (call : Z * jsstring * option obj) : jsstring :=
  js "GET" ++ js " " ++ snd (fst call).

(** Three calls, the second of which the upstream fails. *)
Definition example_calls : list (Z * jsstring * option obj) :=
  [ (0, js "/accounts", None); (10, js "/zones", None); (0, js "/user", None) ].

Definition moody (req : HttpRequest) : NetReply CloudflareResponse :=
  {| latency := 5;
     answer := if JsString.eqb (url_text req) (CF_API_BASE ++ js "/zones")
               then FetchRejects (ErrorObj (js "socket hang up"))
               else Json {| success := true; errors := []; messages := [];
                            result := VNull; result_info := None |} |}.

End TrailSpec.

Module ArraySpec.
Import AuditLogger AuditLoggerSpec.

Definition is_digit (c : Z) : bool := (48 <=? c) && (c <=? 57).

(** What the sanitizer stores for an element of an array. *)
Definition sanitized_element (v : value) : value :=
  if is_object v then VObj (sanitizeParams v) else v.

End ArraySpec.

Module ZoneSpec.
Import AuditLogger AuditLoggerSpec ApiClient Endpoints Server GatewaySpec.

(** The arguments of [list_zones] that were given, under their
    names. *)
Definition given_zone_args (args : ListZonesArgs) : list (jsstring * option value) :=
  [ (js "account_id", option_map VStr (Server.account_id args));
    (js "name", option_map VStr (Server.name args));
    (js "status", option_map VStr (Server.status args));
    (js "per_page", option_map VNum (Server.per_page args));
    (js "page", option_map VNum (Server.page args)) ].

End ZoneSpec.

Module OrderSpec.
Import ApiClient GatewaySpec.

(** Is the string one of the list? *)
Definition among (seen : list jsstring) (x : jsstring) : bool :=
  existsb (JsString.eqb x) seen.

End OrderSpec.

Module DisclosureSpec.
Import AuditLogger ApiClient GraphqlValidator GatewaySpec.

(** An upstream that fails every transfer with the query it was
    sent as the message of the error. *)
Definition echoing (req : HttpRequest) : NetReply CloudflareResponse :=
  {| latency := 5;
     answer := FetchRejects
                 (ErrorObj (match http_body req with
                            | Some (query, _) => query
                            | None => []
                            end)) |}.

End DisclosureSpec.

(** * Properties *)

(** ** Strings *)

Module JsStringFacts.
Import JsString.

Lemma startsWith_iff (s p : t) :
  startsWith s p = true <-> exists rest, s = p ++ rest.
Proof.
  revert s; induction p as [|x p IH]; intros s; simpl.
  - split; [intros _; now exists s | reflexivity].
  - destruct s as [|y s]; [split; [discriminate | intros [r Hr]; discriminate]|].
    rewrite andb_true_iff, Z.eqb_eq, IH.
    split.
    + intros [-> [r ->]]. now exists r.
    + intros [r Hr]. injection Hr as -> ->. split; [reflexivity | now exists r].
Qed.

Lemma includes_iff (s k : t) :
  includes s k = true <-> exists pre post, s = pre ++ k ++ post.
Proof.
  induction s as [|c s IH]; simpl; rewrite orb_true_iff, startsWith_iff.
  - split.
    + intros [[r Hr] | Hf]; [|discriminate]. now exists [], r.
    + intros (pre & post & H). left. destruct pre; [|discriminate].
      now exists post.
  - rewrite IH. split.
    + intros [[r Hr] | (pre & post & ->)].
      * now exists [], r.
      * now exists (c :: pre), post.
    + intros ([|d pre] & post & H).
      * left. now exists post.
      * right. injection H as -> ->. now exists pre, post.
Qed.

Lemma eqb_eq (a b : t) : eqb a b = true <-> a = b.
Proof. unfold eqb. destruct (eq_dec a b); split; congruence. Qed.

Lemma eqb_refl (a : t) : eqb a a = true.
Proof. now apply eqb_eq. Qed.

Lemma eqb_neq (a b : t) : eqb a b = false <-> a <> b.
Proof. unfold eqb. destruct (eq_dec a b); split; congruence. Qed.

Lemma existsb_eqb_In (key : jsstring) (l : list jsstring) :
  existsb (JsString.eqb key) l = true <-> In key l.
Proof.
  rewrite existsb_exists. split.
  - intros (x & Hx & E). apply eqb_eq in E. now subst.
  - intros H. exists key. split; [exact H | apply eqb_refl].
Qed.

End JsStringFacts.

(** ** Regular expressions: the matcher decides the language *)

Module RegexFacts.
Import Regex.
Import RegexSpec.

Lemma lang_eps_inv (w : list Z) : lang Eps w -> w = [].
Proof. now inversion 1. Qed.

Lemma lang_class_inv (p : Z -> bool) (w : list Z) :
  lang (Class p) w -> exists c, w = [c] /\ p c = true.
Proof. inversion 1; subst; eauto. Qed.

Lemma lang_seq_inv (r1 r2 : regex) (w : list Z) :
  lang (Seq r1 r2) w -> exists u v, w = u ++ v /\ lang r1 u /\ lang r2 v.
Proof. inversion 1; subst; eauto. Qed.

Lemma lang_alt_inv (r1 r2 : regex) (w : list Z) :
  lang (Alt r1 r2) w -> lang r1 w \/ lang r2 w.
Proof. inversion 1; subst; auto. Qed.

Lemma lang_seq_cons (r1 r2 : regex) (c : Z) (u v : list Z) :
  lang r1 (c :: u) -> lang r2 v -> lang (Seq r1 r2) (c :: u ++ v).
Proof. intros Hu Hv. apply (LSeq Hu Hv). Qed.

Lemma lang_seq_nil_l (r1 r2 : regex) (v : list Z) :
  lang r1 [] -> lang r2 v -> lang (Seq r1 r2) v.
Proof. intros Hu Hv. apply (LSeq Hu Hv). Qed.

Lemma nullable_iff (r : regex) : nullable r = true <-> lang r [].
Proof.
  induction r; simpl.
  - split; [discriminate | inversion 1].
  - split; [constructor | reflexivity].
  - split; [discriminate | inversion 1].
  - rewrite andb_true_iff, IHr1, IHr2. split.
    + intros [H1 H2]. now apply lang_seq_nil_l.
    + intros H. apply lang_seq_inv in H as (u & v & Heq & Hu & Hv).
      symmetry in Heq. apply app_eq_nil in Heq as [-> ->]. now split.
  - rewrite orb_true_iff, IHr1, IHr2. split.
    + intros [H|H]; [now apply LAltL | now apply LAltR].
    + apply lang_alt_inv.
  - split; [constructor | reflexivity].
Qed.

(** A word of [Star r] that is not empty starts with a non-empty
    word of [r]. *)
Lemma star_cons_inv (r : regex) (c : Z) (w : list Z) :
  lang (Star r) (c :: w) ->
  exists u v, w = u ++ v /\ lang r (c :: u) /\ lang (Star r) v.
Proof.
  intros H. remember (Star r) as sr eqn:E. remember (c :: w) as cw eqn:Ew.
  induction H as [| | | | | r0 | r0 u v Hu _ Hv IHv]; try discriminate.
  injection E as ->.
  destruct u as [|d u]; simpl in Ew.
  - now apply IHv.
  - injection Ew as -> <-. now exists u, v.
Qed.

Lemma deriv_iff (c : Z) (r : regex) (w : list Z) :
  lang (deriv c r) w <-> lang r (c :: w).
Proof.
  revert w; induction r as [| | p | r1 IH1 r2 IH2 | r1 IH1 r2 IH2 | r IH];
    intros w; simpl.
  - split; inversion 1.
  - split; inversion 1.
  - destruct (p c) eqn:Hp; split; intros H.
    + apply lang_eps_inv in H as ->. now constructor.
    + apply lang_class_inv in H as (d & Heq & _).
      injection Heq as _ ->. constructor.
    + inversion H.
    + apply lang_class_inv in H as (d & Heq & Hd).
      injection Heq as -> _. congruence.
  - assert (Hseq : lang (Seq (deriv c r1) r2) w ->
                   lang (Seq r1 r2) (c :: w)).
    { intros H. apply lang_seq_inv in H as (u & v & -> & Hu & Hv).
      apply lang_seq_cons; [now apply IH1 | easy]. }
    assert (Hinv : lang (Seq r1 r2) (c :: w) ->
                   lang (Seq (deriv c r1) r2) w \/
                   (lang r1 [] /\ lang r2 (c :: w))).
    { intros H. apply lang_seq_inv in H as (u & v & Heq & Hu & Hv).
      destruct u as [|d u]; simpl in Heq.
      - right. subst v. now split.
      - injection Heq as <- ->. left. constructor; [now apply IH1 | easy]. }
    destruct (nullable r1) eqn:Hn.
    + split; intros H.
      * apply lang_alt_inv in H as [H|H]; [now apply Hseq|].
        apply lang_seq_nil_l; [now apply nullable_iff | now apply IH2].
      * destruct (Hinv H) as [H1 | [_ H2]].
        -- now apply LAltL.
        -- apply LAltR. now apply IH2.
    + split; [exact Hseq|].
      intros H. destruct (Hinv H) as [H1 | [H1 _]]; [easy|].
      apply nullable_iff in H1. congruence.
  - split; intros H; apply lang_alt_inv in H as [H|H].
    + apply LAltL; now apply IH1.
    + apply LAltR; now apply IH2.
    + apply LAltL; now apply IH1.
    + apply LAltR; now apply IH2.
  - split; intros H.
    + apply lang_seq_inv in H as (u & v & -> & Hu & Hv).
      apply IH in Hu. apply (LStarCons Hu Hv).
    + apply star_cons_inv in H as (u & v & -> & Hu & Hv).
      constructor; [now apply IH | easy].
Qed.

Lemma matches_at_iff (r : regex) (s : list Z) :
  matches_at r s = true <-> exists w rest, s = w ++ rest /\ lang r w.
Proof.
  revert r; induction s as [|c s IH]; intros r; simpl;
    rewrite orb_true_iff, nullable_iff.
  - split.
    + intros [H|H]; [|discriminate]. now exists [], [].
    + intros (w & rest & Heq & H). left.
      symmetry in Heq. apply app_eq_nil in Heq as [-> _]. exact H.
  - rewrite IH. split.
    + intros [H | (w & rest & -> & H)].
      * now exists [], (c :: s).
      * exists (c :: w), rest. split; [reflexivity | now apply deriv_iff].
    + intros ([|d w] & rest & Heq & H).
      * now left.
      * injection Heq as -> ->. right. exists w, rest.
        split; [reflexivity | now apply deriv_iff].
Qed.

(** [test] finds exactly the texts with a matching substring. *)
Lemma test_iff (r : regex) (s : list Z) :
  test r s = true <-> exists pre w post, s = pre ++ w ++ post /\ lang r w.
Proof.
  induction s as [|c s IH]; cbn [test]; rewrite orb_true_iff, matches_at_iff.
  - split.
    + intros [(w & rest & Heq & H) | Hf]; [|discriminate].
      now exists [], w, rest.
    + intros ([|] & w & post & Heq & H); [|discriminate].
      left. now exists w, post.
  - rewrite IH. split.
    + intros [(w & rest & Heq & H) | (pre & w & post & -> & H)].
      * now exists [], w, rest.
      * now exists (c :: pre), w, post.
    + intros ([|d pre] & w & post & Heq & H).
      * left. now exists w, post.
      * injection Heq as -> ->. right. now exists pre, w, post.
Qed.

Lemma lang_lit_i (w u : list Z) : lang (lit_i w) u <-> same_word_i u w.
Proof.
  revert u; induction w as [|x w IH]; intros u; simpl.
  - split; intros H.
    + apply lang_eps_inv in H as ->. constructor.
    + inversion H. constructor.
  - split; intros H.
    + apply lang_seq_inv in H as (a & b & -> & Ha & Hb).
      apply lang_class_inv in Ha as (c & -> & Hc).
      constructor; [now apply Z.eqb_eq | now apply IH].
    + inversion H as [|c ? u' ? Hc Hu]; subst.
      apply (@LSeq (chr_i x) (lit_i w) [c] u'); [|now apply IH].
      constructor. now apply Z.eqb_eq.
Qed.

Lemma lang_star_class (p : Z -> bool) (u : list Z) :
  lang (Star (Class p)) u <-> Forall (fun c => p c = true) u.
Proof.
  split.
  - intros H. remember (Star (Class p)) as sr eqn:E.
    induction H as [| | | | | r0 | r0 a b Ha _ Hb IHb]; try discriminate.
    + constructor.
    + injection E as ->. apply lang_class_inv in Ha as (c & -> & Hc).
      constructor; [assumption | now apply IHb].
  - induction 1 as [|c u Hc Hu IH].
    + constructor.
    + apply (@LStarCons (Class p) [c] u); [now constructor | easy].
Qed.

Lemma lang_block_opener (kw u : list Z) :
  lang (Seq (lit_i kw) (Seq (Star space) opener)) u <-> block_opener kw u.
Proof.
  split.
  - intros H. apply lang_seq_inv in H as (k & v & -> & Hk & Hv).
    apply lang_seq_inv in Hv as (ws & o & -> & Hws & Ho).
    apply lang_class_inv in Ho as (c & -> & Hc).
    exists k, ws, c. repeat split.
    + now apply lang_lit_i.
    + now apply lang_star_class.
    + apply orb_true_iff in Hc. rewrite !Z.eqb_eq in Hc. exact Hc.
  - intros (k & ws & c & -> & Hk & Hws & Hc).
    constructor; [now apply lang_lit_i|].
    constructor; [now apply lang_star_class|].
    constructor. apply orb_true_iff. now rewrite !Z.eqb_eq.
Qed.

End RegexFacts.

(** ** The query guard *)

Module GraphqlValidatorFacts.
Import Regex RegexFacts GraphqlValidator JsStringFacts.
Import GraphqlValidatorSpec.

Lemma plain_spec (x : Z) :
  plain_unit x = true ->
  0 <= x < 128 /\ ~ (65 <= x <= 90) /\ x <> 105 /\ x <> 107.
Proof.
  unfold plain_unit. rewrite !andb_true_iff, !negb_true_iff, andb_false_iff.
  rewrite Z.leb_le, Z.ltb_lt, !Z.leb_gt, !Z.eqb_neq. lia.
Qed.

Lemma canonicalize_cases (c : Z) :
  (97 <= c <= 122 /\ canonicalize c = c - 32) \/
  (~ (97 <= c <= 122) /\ canonicalize c = c).
Proof.
  unfold canonicalize.
  destruct (Z.leb_spec 97 c), (Z.leb_spec c 122); cbn [andb]; lia.
Qed.

Lemma lower_unit_cases (c : Z) :
  (65 <= c <= 90 /\ JsString.lower_unit c = [c + 32]) \/
  (c = 8490 /\ JsString.lower_unit c = [107]) \/
  (c = 304 /\ JsString.lower_unit c = [105; 775]) \/
  (~ (65 <= c <= 90) /\ c <> 8490 /\ c <> 304 /\ JsString.lower_unit c = [c]).
Proof.
  unfold JsString.lower_unit.
  destruct (Z.leb_spec 65 c), (Z.leb_spec c 90); cbn [andb];
    try (left; split; [lia | reflexivity]);
    (destruct (Z.eqb_spec c 8490); [right; left; now split|]);
    (destruct (Z.eqb_spec c 304); [right; right; left; now split|]);
    right; right; right; repeat split; try lia.
Qed.

Lemma startsWith_lower_unit (c x : Z) (r w : jsstring) :
  plain_unit x = true ->
  JsString.startsWith (JsString.lower_unit c ++ r) (x :: w) =
  (canonicalize c =? canonicalize x) && JsString.startsWith r w.
Proof.
  intros Hx. apply plain_spec in Hx.
  pose proof (canonicalize_cases c) as Hc.
  pose proof (canonicalize_cases x) as Hcx.
  destruct (lower_unit_cases c) as [[Hr ->] | [[Hr ->] | [[Hr ->] | (Hr & Hr1 & Hr2 & ->)]]];
    cbn [app JsString.startsWith].
  - f_equal. apply eq_true_iff_eq. rewrite !Z.eqb_eq. lia.
  - f_equal. apply eq_true_iff_eq. rewrite !Z.eqb_eq. lia.
  - replace (105 =? x) with false by (symmetry; apply Z.eqb_neq; lia).
    replace (canonicalize c =? canonicalize x) with false
      by (symmetry; apply Z.eqb_neq; lia).
    reflexivity.
  - f_equal. apply eq_true_iff_eq. rewrite !Z.eqb_eq. lia.
Qed.

Lemma startsWith_lower (w t : jsstring) :
  forallb plain_unit w = true ->
  JsString.startsWith (JsString.toLowerCase t) w = true <-> begins_i t w.
Proof.
  revert t; induction w as [|x w IH]; intros t Hw.
  - split; [intros _; exists [], t; split; [reflexivity | constructor] | reflexivity].
  - simpl in Hw. apply andb_true_iff in Hw as [Hx Hw].
    destruct t as [|c t].
    + split; [discriminate|].
      intros (u & rest & Heq & Hu). symmetry in Heq.
      apply app_eq_nil in Heq as [-> _]. inversion Hu.
    + unfold JsString.toLowerCase; cbn [flat_map].
      fold (JsString.toLowerCase t).
      rewrite startsWith_lower_unit, andb_true_iff, Z.eqb_eq, (IH t Hw) by exact Hx.
      split.
      * intros [Hc (u & rest & -> & Hu)].
        exists (c :: u), rest. split; [reflexivity | now constructor].
      * intros (u & rest & Heq & Hu).
        inversion Hu as [|c' ? u' ? Hc Hu']; subst.
        injection Heq as -> ->. split; [exact Hc | now exists u', rest].
Qed.

Lemma blocked_iff (t : jsstring) :
  existsb (fun pattern => test pattern t) BLOCKED_PATTERNS = true <-> blocked t.
Proof.
  unfold BLOCKED_PATTERNS, blocked, contains_i, opens_block.
  cbn [existsb]. rewrite !orb_true_iff, !test_iff.
  setoid_rewrite lang_lit_i. setoid_rewrite lang_block_opener.
  intuition discriminate.
Qed.

Lemma allowed_iff (t : jsstring) :
  existsb (fun op => JsString.startsWith (JsString.toLowerCase t) op)
          ALLOWED_OPERATION_STARTS = true <-> allowed_start t.
Proof.
  unfold ALLOWED_OPERATION_STARTS, allowed_start.
  cbn [existsb]. rewrite !orb_true_iff, !startsWith_lower by reflexivity.
  intuition discriminate.
Qed.

(** C5: the guard throws exactly when the argument is not a
    non-empty string, or its trimmed text matches one of the four
    blocklist patterns, or its trimmed text begins neither with the
    keyword query (in any case) nor with an opening brace; the two
    introspection and mutation examples are rejected and the two
    query examples are accepted. *)
Theorem validateGraphQLQuery_rejects_iff :
  (forall query : value,
      rejects query <->
      not_a_nonempty_string query \/
      exists q, query = VStr q /\
                (blocked (JsString.trim q) \/
                 ~ allowed_start (JsString.trim q)))
  /\ (forall query : value, rejects query \/ accepts query)
  /\ rejects (VStr (js "{ __schema { types { name } } }"))
  /\ rejects (VStr (js "mutation { deleteZone }"))
  /\ accepts (VStr (js "query { zones { id } }"))
  /\ accepts (VStr (js "{ viewer { zones { id } } }")).
Proof.
  assert (Hshape : forall q,
             validateGraphQLQuery (VStr q) =
             match q with
             | [] => throw_Error "GraphQL query must be a non-empty string"
             | _ =>
                 if (Z.of_nat (List.length (JsString.trim q)) =? 0) then
                   throw_Error "GraphQL query cannot be empty"
                 else if existsb (fun pattern => test pattern (JsString.trim q))
                                 BLOCKED_PATTERNS
                 then throw_Error "GraphQL query contains disallowed operations"
                 else if negb (existsb
                                 (fun op => JsString.startsWith
                                              (JsString.toLowerCase (JsString.trim q)) op)
                                 ALLOWED_OPERATION_STARTS)
                 then throw_Error "GraphQL query must be a read-only query operation"
                 else Return tt
             end).
  { intros [|c q]; reflexivity. }
  split; [|split].
  - intros query. unfold rejects.
    destruct query as [| | b | n | q | items | props];
      try (split; [intros _; now left | intros _; eexists; reflexivity]).
    rewrite Hshape. destruct q as [|c q].
    { split; [intros _; now left | intros _; eexists; reflexivity]. }
    set (t := JsString.trim (c :: q)).
    destruct (Z.eqb_spec (Z.of_nat (List.length t)) 0) as [Hlen | Hlen].
    { split; [|intros _; eexists; reflexivity].
      intros _. right. exists (c :: q). split; [reflexivity|]. right.
      fold t. destruct t; [|discriminate].
      intros [(u & rest & Heq & Hu) | (u & rest & Heq & Hu)];
        symmetry in Heq; apply app_eq_nil in Heq as [-> _]; inversion Hu. }
    destruct (existsb _ BLOCKED_PATTERNS) eqn:Hb.
    { split; [|intros _; eexists; reflexivity].
      intros _. right. exists (c :: q). split; [reflexivity|]. left.
      now apply blocked_iff. }
    destruct (existsb _ ALLOWED_OPERATION_STARTS) eqn:Ha; cbn [negb].
    + split; [intros [e He]; discriminate|].
      intros [[] | (q' & Hq' & [Hbl | Hna])].
      * apply blocked_iff in Hbl. injection Hq' as <-. fold t in Hbl. congruence.
      * apply allowed_iff in Ha. injection Hq' as <-. now elim Hna.
    + split; [|intros _; eexists; reflexivity].
      intros _. right. exists (c :: q). split; [reflexivity|]. right.
      fold t. intros Hal. apply allowed_iff in Hal. congruence.
  - intros query. unfold rejects, accepts.
    destruct (validateGraphQLQuery query) as [[]|e]; [now right | left; now exists e].
  - repeat split; try (eexists; vm_compute; reflexivity); vm_compute; reflexivity.
Qed.

End GraphqlValidatorFacts.

(** ** The audit sanitizer *)

Module AuditLoggerFacts.
Import AuditLogger JsStringFacts.
Import AuditLoggerSpec.

(** Induction on values that reaches the elements of arrays and the
    property values of objects. *)
Lemma value_nested_ind (P : value -> Prop) :
  P VUndefined -> P VNull -> (forall b, P (VBool b)) -> (forall n, P (VNum n)) ->
  (forall s, P (VStr s)) ->
  (forall items, Forall P items -> P (VArr items)) ->
  (forall props, Forall (fun kv => P (snd kv)) props -> P (VObj props)) ->
  forall v, P v.
Proof.
  intros Hu Hn Hb Hz Hs Ha Ho.
  fix IH 1. intros [| | b | n | s | items | props].
  - exact Hu.
  - exact Hn.
  - apply Hb.
  - apply Hz.
  - apply Hs.
  - apply Ha. induction items as [|v items IHitems]; constructor; [apply IH | exact IHitems].
  - apply Ho. induction props as [|[k v] props IHprops]; constructor; [apply IH | exact IHprops].
Qed.

Lemma sanitize_entry_set (result : obj) (key : jsstring) (v : value) :
  sanitize_entry sanitizeParams result key v =
  set_prop result key (sanitized_value key v).
Proof.
  unfold sanitize_entry, sanitized_value.
  destruct (redact_key key); [reflexivity|]. now destruct (is_object v).
Qed.

Lemma get_put_same (o : obj) (key : jsstring) (v : value) :
  get_prop (put_prop o key v) key = Some v.
Proof.
  induction o as [|[k w] o IH]; simpl.
  - now rewrite eqb_refl.
  - destruct (JsString.eqb k key) eqn:E; simpl; now rewrite E.
Qed.

Lemma get_put_other (o : obj) (key key' : jsstring) (v : value) :
  key <> key' -> get_prop (put_prop o key v) key' = get_prop o key'.
Proof.
  intros Hne. induction o as [|[k w] o IH]; simpl.
  - apply eqb_neq in Hne. now rewrite Hne.
  - destruct (JsString.eqb k key) eqn:E; simpl.
    + apply eqb_eq in E. subst k. apply eqb_neq in Hne. now rewrite Hne.
    + now rewrite IH.
Qed.

Lemma put_prop_fresh (o : obj) (key : jsstring) (v : value) :
  ~ In key (map fst o) -> put_prop o key v = o ++ [(key, v)].
Proof.
  induction o as [|[k w] o IH]; simpl; intros Hn; [reflexivity|].
  destruct (JsString.eqb k key) eqn:E.
  - apply eqb_eq in E. tauto.
  - rewrite IH; [reflexivity | tauto].
Qed.

Lemma put_prop_keys (o : obj) (key : jsstring) (v : value) :
  map fst (put_prop o key v) =
  if existsb (JsString.eqb key) (map fst o) then map fst o
  else map fst o ++ [key].
Proof.
  induction o as [|[k w] o IH]; simpl; [reflexivity|].
  destruct (JsString.eqb k key) eqn:E; simpl.
  - apply eqb_eq in E. subst k. now rewrite eqb_refl.
  - destruct (JsString.eqb key k) eqn:E'.
    + apply eqb_eq in E'. subst k. rewrite eqb_refl in E. discriminate.
    + simpl. rewrite IH. now destruct (existsb _ _).
Qed.

Lemma put_prop_NoDup (o : obj) (key : jsstring) (v : value) :
  NoDup (map fst o) -> NoDup (map fst (put_prop o key v)).
Proof.
  intros Hnd. rewrite put_prop_keys.
  destruct (existsb _ _) eqn:E; [exact Hnd|].
  apply NoDup_app; [exact Hnd | repeat constructor; inversion 1 |].
  intros x Hx [<- | []].
  apply existsb_eqb_In in Hx. congruence.
Qed.

(** The assignment in the loop of the sanitizer. *)
Lemma set_prop_proto (o : obj) (v : value) : set_prop o PROTO v = o.
Proof. reflexivity. Qed.

Lemma set_prop_plain (o : obj) (key : jsstring) (v : value) :
  key <> PROTO -> set_prop o key v = put_prop o key v.
Proof. intros H. unfold set_prop. apply eqb_neq in H. now rewrite H. Qed.

Lemma set_prop_cases (o : obj) (key : jsstring) (v : value) :
  key = PROTO /\ set_prop o key v = o \/
  key <> PROTO /\ set_prop o key v = put_prop o key v.
Proof.
  unfold set_prop. destruct (JsString.eqb key PROTO) eqn:E.
  - left. apply eqb_eq in E. now split.
  - right. apply eqb_neq in E. now split.
Qed.

Lemma get_set_same (o : obj) (key : jsstring) (v : value) :
  key <> PROTO -> get_prop (set_prop o key v) key = Some v.
Proof. intros H. rewrite set_prop_plain by exact H. apply get_put_same. Qed.

Lemma get_set_other (o : obj) (key key' : jsstring) (v : value) :
  key <> key' -> get_prop (set_prop o key v) key' = get_prop o key'.
Proof.
  intros Hne. destruct (set_prop_cases o key v) as [[_ ->] | [_ ->]];
    [reflexivity | now apply get_put_other].
Qed.

Lemma set_prop_fresh (o : obj) (key : jsstring) (v : value) :
  key <> PROTO -> ~ In key (map fst o) -> set_prop o key v = o ++ [(key, v)].
Proof.
  intros H Hn. rewrite set_prop_plain by exact H. now apply put_prop_fresh.
Qed.

Lemma set_prop_NoDup (o : obj) (key : jsstring) (v : value) :
  NoDup (map fst o) -> NoDup (map fst (set_prop o key v)).
Proof.
  intros Hnd. destruct (set_prop_cases o key v) as [[_ ->] | [_ ->]];
    [exact Hnd | now apply put_prop_NoDup].
Qed.

Lemma own_key_true (key : jsstring) : own_key key = true <-> key <> PROTO.
Proof.
  unfold own_key. destruct (JsString.eqb key PROTO) eqn:E; cbn [negb].
  - apply eqb_eq in E. split; [discriminate | intros H; contradiction].
  - apply eqb_neq in E. split; [now intros _ | reflexivity].
Qed.

Lemma redact_key_own (key : jsstring) : redact_key key = true -> key <> PROTO.
Proof. intros H ->. vm_compute in H. discriminate. Qed.

Lemma sanitizeParams_object (props : obj) :
  sanitizeParams (VObj props) = object_loop props [].
Proof. reflexivity. Qed.

(** The property the loop leaves under [key]: the sanitized form of
    the last entry of that name, when there is one. *)
Lemma get_object_loop (props acc : obj) (key : jsstring) :
  key <> PROTO ->
  get_prop (object_loop props acc) key =
  match get_prop (rev props) key with
  | Some v => Some (sanitized_value key v)
  | None => get_prop acc key
  end.
Proof.
  intros Hkey.
  revert acc; induction props as [|[k v] props IH]; intros acc; [reflexivity|].
  unfold object_loop in *. cbn [fold_left fst snd rev]. rewrite IH.
  assert (Happ : forall l : obj,
             get_prop (l ++ [(k, v)]) key =
             match get_prop l key with
             | Some w => Some w
             | None => if JsString.eqb k key then Some v else None
             end).
  { induction l as [|[k' w] l IHl]; simpl; [reflexivity|].
    now destruct (JsString.eqb k' key). }
  rewrite Happ. destruct (get_prop (rev props) key); [reflexivity|].
  rewrite sanitize_entry_set.
  destruct (JsString.eqb k key) eqn:E.
  - apply eqb_eq in E. subst. now apply get_set_same.
  - apply eqb_neq in E. now apply get_set_other.
Qed.

(** The loop makes no property [__proto__]. *)
Lemma get_object_loop_proto (props acc : obj) :
  get_prop (object_loop props acc) PROTO = get_prop acc PROTO.
Proof.
  revert acc; induction props as [|[k v] props IH]; intros acc; [reflexivity|].
  unfold object_loop in *. cbn [fold_left fst snd]. rewrite IH.
  rewrite sanitize_entry_set.
  destruct (set_prop_cases acc k (sanitized_value k v)) as [[_ ->] | [Hk ->]];
    [reflexivity | now apply get_put_other].
Qed.

Lemma object_loop_distinct (props acc : obj) :
  NoDup (map fst acc ++ map fst props) ->
  object_loop props acc =
  acc ++ map (fun kv => (fst kv, sanitized_value (fst kv) (snd kv)))
             (filter (fun kv => own_key (fst kv)) props).
Proof.
  revert acc; induction props as [|[k v] props IH]; intros acc Hnd.
  - simpl. now rewrite app_nil_r.
  - unfold object_loop in *. cbn [fold_left fst snd map filter].
    rewrite sanitize_entry_set.
    assert (Hk : ~ In k (map fst acc)).
    { intros Hin. simpl in Hnd. apply NoDup_remove_2 in Hnd.
      apply Hnd. apply in_or_app. now left. }
    destruct (set_prop_cases acc k (sanitized_value k v)) as [[Hp ->] | [Hp E]].
    + assert (Ho : own_key k = false)
        by (unfold own_key; subst k; rewrite eqb_refl; reflexivity).
      rewrite Ho. apply IH.
      cbn [map fst] in Hnd. apply NoDup_remove_1 in Hnd. exact Hnd.
    + apply own_key_true in Hp as Ho. rewrite Ho.
      rewrite set_prop_fresh by (apply own_key_true in Ho; assumption).
      rewrite IH.
      * cbn [map fst snd]. now rewrite <- app_assoc.
      * rewrite map_app, <- app_assoc. exact Hnd.
Qed.



Lemma sanitizeParams_array (items : list value) :
  sanitizeParams (VArr items) = fst (array_loop items ([], O)).
Proof. reflexivity. Qed.

Lemma array_loop_entries (items : list value) (st : obj * nat) :
  fst (array_loop items st) = object_loop (array_entries (snd st) items) (fst st).
Proof.
  revert st; induction items as [|v items IH]; intros st; [reflexivity|].
  unfold array_loop, object_loop in *. cbn [fold_left array_entries fst snd].
  now rewrite IH.
Qed.

(** The sanitizer is its loop run over [Object.entries] of the
    argument. *)
Lemma sanitizeParams_entries (params : value) :
  sanitizeParams params = object_loop (entries params) [].
Proof.
  destruct params; try reflexivity.
  rewrite sanitizeParams_array. apply array_loop_entries.
Qed.







Lemma sanitized_value_settled (key : jsstring) (v : value) :
  key <> PROTO ->
  sanitizeParams (VObj (sanitizeParams v)) = sanitizeParams v ->
  settled (key, sanitized_value key v).
Proof.
  intros Hk Hv. split; [exact Hk|].
  unfold sanitized_value; cbn [fst snd].
  destruct (redact_key key) eqn:Hr; [reflexivity|].
  destruct (is_object v) eqn:Ho; cbn [is_object].
  - now rewrite Hv.
  - now rewrite Ho.
Qed.

Lemma put_prop_settled (o : obj) (key : jsstring) (v : value) :
  Forall settled o -> settled (key, v) -> Forall settled (put_prop o key v).
Proof.
  intros Ho Hv. induction Ho as [|[k w] o Hkw Ho IH]; simpl.
  - now constructor.
  - destruct (JsString.eqb k key) eqn:E.
    + apply eqb_eq in E. subst k. now constructor.
    + now constructor.
Qed.

Lemma set_prop_settled (o : obj) (key : jsstring) (v : value) :
  Forall settled o ->
  sanitizeParams (VObj (sanitizeParams v)) = sanitizeParams v ->
  Forall settled (set_prop o key (sanitized_value key v)).
Proof.
  intros Ho Hv.
  destruct (set_prop_cases o key (sanitized_value key v)) as [[_ ->] | [Hk ->]];
    [exact Ho|].
  apply put_prop_settled; [exact Ho | now apply sanitized_value_settled].
Qed.

Lemma object_loop_settled (props acc : obj) :
  Forall (fun kv => sanitizeParams (VObj (sanitizeParams (snd kv))) =
                    sanitizeParams (snd kv)) props ->
  Forall settled acc -> NoDup (map fst acc) ->
  Forall settled (object_loop props acc) /\
  NoDup (map fst (object_loop props acc)).
Proof.
  intros Hprops. revert acc.
  induction Hprops as [|[k v] props Hv _ IH]; intros acc Hacc Hnd.
  - now split.
  - unfold object_loop in *. cbn [fold_left fst snd] in *.
    rewrite sanitize_entry_set. apply IH.
    + now apply set_prop_settled.
    + now apply set_prop_NoDup.
Qed.

Lemma array_loop_settled (items : list value) (st : obj * nat) :
  Forall (fun v => sanitizeParams (VObj (sanitizeParams v)) = sanitizeParams v)
         items ->
  Forall settled (fst st) -> NoDup (map fst (fst st)) ->
  Forall settled (fst (array_loop items st)) /\
  NoDup (map fst (fst (array_loop items st))).
Proof.
  intros Hitems. revert st.
  induction Hitems as [|v items Hv _ IH]; intros st Hst Hnd.
  - now split.
  - unfold array_loop in *. cbn [fold_left] in *.
    apply IH; cbn [fst snd]; rewrite sanitize_entry_set.
    + now apply set_prop_settled.
    + now apply set_prop_NoDup.
Qed.

Lemma filter_own_settled (o : obj) :
  Forall settled o -> filter (fun kv => own_key (fst kv)) o = o.
Proof.
  intros Hs. induction Hs as [|[k v] o [Hk _] _ IH]; [reflexivity|].
  cbn [filter fst] in *. apply own_key_true in Hk. now rewrite Hk, IH.
Qed.

(** A settled object with distinct keys is a fixed point. *)
Lemma sanitizeParams_settled (o : obj) :
  Forall settled o -> NoDup (map fst o) -> sanitizeParams (VObj o) = o.
Proof.
  intros Hs Hnd. rewrite sanitizeParams_object, object_loop_distinct by exact Hnd.
  cbn [app]. rewrite (filter_own_settled Hs). clear Hnd.
  induction Hs as [|[k v] o [_ Hkv] _ IH]; [reflexivity|].
  cbn [map fst snd]. cbn [fst snd] in Hkv.
  now rewrite Hkv, IH.
Qed.

Lemma sanitizeParams_idempotent (params : value) :
  sanitizeParams (VObj (sanitizeParams params)) = sanitizeParams params.
Proof.
  induction params as [| | b | n | s | items IH | props IH]
    using value_nested_ind; try reflexivity.
  - rewrite sanitizeParams_array.
    destruct (@array_loop_settled items ([], O) IH) as [Hs Hnd];
      [constructor | constructor |].
    now apply sanitizeParams_settled.
  - rewrite (sanitizeParams_object props).
    destruct (@object_loop_settled props [] IH) as [Hs Hnd];
      [constructor | constructor |].
    now apply sanitizeParams_settled.
Qed.

Lemma get_prop_key (o : obj) (key : jsstring) :
  In key (map fst o) -> exists v, get_prop o key = Some v.
Proof.
  induction o as [|[k w] o IH]; simpl; [easy|].
  intros [-> | Hin].
  - rewrite eqb_refl. now exists w.
  - destruct (JsString.eqb k key); [now exists w | now apply IH].
Qed.

(** C10: redaction by key comes before recursion.  Under a key that
    contains a redaction term the sanitizer stores the marker whatever
    the value is, a nested object included, so the output is the same
    for any two values under that key; and sanitizing an output of the
    sanitizer changes nothing. *)
Theorem redaction_precedes_recursion :
  (forall (props : obj) (key : jsstring) (v : value),
      In (key, v) props -> redact_key key = true ->
      get_prop (sanitizeParams (VObj props)) key = Some REDACTED) /\
  (forall (pre post : obj) (key : jsstring) (v v' : value),
      redact_key key = true ->
      sanitizeParams (VObj (pre ++ (key, v) :: post)) =
      sanitizeParams (VObj (pre ++ (key, v') :: post))) /\
  (forall params : value,
      sanitizeParams (VObj (sanitizeParams params)) = sanitizeParams params).
Proof.
  split; [|split].
  - intros props key v Hin Hr.
    rewrite sanitizeParams_object, get_object_loop
      by (apply redact_key_own; exact Hr).
    destruct (@get_prop_key (rev props) key) as [w Hw].
    + rewrite map_rev, <- in_rev.
      apply in_map_iff. now exists (key, v).
    + rewrite Hw. unfold sanitized_value. now rewrite Hr.
  - intros pre post key v v' Hr.
    rewrite !sanitizeParams_object. unfold object_loop.
    rewrite !fold_left_app. cbn [fold_left fst snd].
    f_equal. rewrite !sanitize_entry_set. unfold sanitized_value. now rewrite Hr.
  - apply sanitizeParams_idempotent.
Qed.

(** On that mapping the inner key is gone, and a second pass changes
    nothing. *)
Lemma redaction_precedes_recursion_example :
  redact_key (js "db_secret") = true /\
  get_prop (sanitizeParams (VObj nested_params)) (js "db_secret") = Some REDACTED /\
  sanitizeParams (VObj (sanitizeParams (VObj nested_params))) =
  sanitizeParams (VObj nested_params).
Proof.
  assert (Hr : redact_key (js "db_secret") = true) by (vm_compute; reflexivity).
  split; [exact Hr|]. split.
  - exact (proj1 redaction_precedes_recursion nested_params (js "db_secret")
                 (VObj [ (js "inner", VNum 1) ]) (or_introl eq_refl) Hr).
  - exact (proj2 (proj2 redaction_precedes_recursion) (VObj nested_params)).
Defined.

End AuditLoggerFacts.

(** ** The arithmetic of doubles *)

Module DoubleFacts.
Import Double.

Lemma pow2_pos (k : Z) : (0 < pow2 k)%Q.
Proof. unfold pow2. apply Qpower_0_lt. reflexivity. Qed.

Lemma pow2_add (a b : Z) : (pow2 (a + b) == pow2 a * pow2 b)%Q.
Proof. unfold pow2. apply Qpower_plus. discriminate. Qed.

Lemma pow2_le (a b : Z) : a <= b -> (pow2 a <= pow2 b)%Q.
Proof. intros H. unfold pow2. apply Qpower_le_compat_l; [exact H | discriminate]. Qed.

Lemma pow2_lt (a b : Z) : a < b -> (pow2 a < pow2 b)%Q.
Proof. intros H. unfold pow2. apply Qpower_lt_compat_l; [exact H | reflexivity]. Qed.

Lemma pow2_lt_inv (a b : Z) : (pow2 a < pow2 b)%Q -> a < b.
Proof. intros H. unfold pow2 in H. apply (Qpower_lt_compat_l_inv _ _ _ H). reflexivity. Qed.

Lemma pow2_Z (n : Z) : 0 <= n -> (pow2 n == inject_Z (2 ^ n))%Q.
Proof. intros H. unfold pow2. rewrite Zpower_Qpower by exact H. reflexivity. Qed.

Lemma pow2_succ (a : Z) : (pow2 (a + 1) == 2 * pow2 a)%Q.
Proof. rewrite pow2_add. change (pow2 1) with 2%Q. ring. Qed.

Lemma pow2_pred (a : Z) : (pow2 a == 2 * pow2 (a - 1))%Q.
Proof.
  replace a with ((a - 1) + 1) at 1 by lia. apply pow2_succ.
Qed.

(** Dividing by a power of two. *)
Lemma div_pow2 (x : Q) (k : Z) : (x / pow2 k == x * pow2 (- k))%Q.
Proof.
  unfold pow2, Qdiv. rewrite Qpower_opp. reflexivity.
Qed.

Lemma div_pow2_le (x y : Q) (k : Z) : (x <= y -> x / pow2 k <= y / pow2 k)%Q.
Proof.
  intros H. rewrite !div_pow2. apply Qmult_le_compat_r; [exact H|].
  apply Qlt_le_weak, pow2_pos.
Qed.

Lemma scaled_lt (x : Q) (k j : Z) :
  (x < pow2 (k + j) -> x / pow2 k < pow2 j)%Q.
Proof.
  intros H. rewrite div_pow2.
  assert (E : (pow2 j == pow2 (k + j) * pow2 (- k))%Q).
  { rewrite <- pow2_add. replace (k + j + - k) with j by lia. reflexivity. }
  rewrite E. apply Qmult_lt_compat_r; [apply pow2_pos | exact H].
Qed.

Lemma scaled_le (x : Q) (k j : Z) :
  (pow2 (k + j) <= x -> pow2 j <= x / pow2 k)%Q.
Proof.
  intros H. rewrite div_pow2.
  assert (E : (pow2 j == pow2 (k + j) * pow2 (- k))%Q).
  { rewrite <- pow2_add. replace (k + j + - k) with j by lia. reflexivity. }
  rewrite E. apply Qmult_le_compat_r; [exact H | apply Qlt_le_weak, pow2_pos].
Qed.

Lemma unscale (x : Q) (k : Z) : (x / pow2 k * pow2 k == x)%Q.
Proof.
  unfold Qdiv. rewrite <- Qmult_assoc, (Qmult_comm (/ pow2 k)), Qmult_inv_r.
  - ring.
  - intros H. pose proof (pow2_pos k) as P. rewrite H in P. discriminate.
Qed.

(** *** The exponent *)

Lemma Zlog2_Q (n : Z) :
  0 < n ->
  (pow2 (Z.log2 n) <= inject_Z n /\ inject_Z n < pow2 (Z.log2 n + 1))%Q.
Proof.
  intros H. destruct (Z.log2_spec n H) as [H1 H2].
  pose proof (Z.log2_nonneg n) as H0.
  rewrite !pow2_Z by lia. rewrite <- Zle_Qle, <- Zlt_Qlt.
  replace (Z.log2 n + 1) with (Z.succ (Z.log2 n)) by lia. split; assumption.
Qed.

Lemma Q_as_quotient (x : Q) :
  (x == inject_Z (Qnum x) / inject_Z (Zpos (Qden x)))%Q.
Proof. destruct x as [n d]. cbn [Qnum Qden]. rewrite <- Qmake_Qdiv. reflexivity. Qed.

Lemma ilog2_spec (x : Q) :
  (0 < x)%Q -> (pow2 (ilog2 x) <= x /\ x < pow2 (ilog2 x + 1))%Q.
Proof.
  intros Hx.
  assert (Hn : 0 < Qnum x).
  { destruct x as [n d]. unfold Qlt in Hx. cbn in *. lia. }
  destruct (Zlog2_Q Hn) as [N1 N2].
  destruct (@Zlog2_Q (Zpos (Qden x)) (Pos2Z.is_pos _)) as [D1 D2].
  set (a := Z.log2 (Qnum x)) in *. set (b := Z.log2 (Zpos (Qden x))) in *.
  set (n := inject_Z (Qnum x)) in *. set (d := inject_Z (Zpos (Qden x))) in *.
  assert (Hd : (0 < d)%Q) by (unfold d; change 0%Q with (inject_Z 0);
                               rewrite <- Zlt_Qlt; apply Pos2Z.is_pos).
  assert (Hxd : (x * d == n)%Q).
  { rewrite (Q_as_quotient x) at 1. fold n d. field.
    intros E. rewrite E in Hd. discriminate. }
  (* x < 2^(a-b+1) and 2^(a-b-1) < x *)
  assert (Hup : (x < pow2 (a - b + 1))%Q).
  { apply Qmult_lt_r with d; [exact Hd|]. rewrite Hxd.
    apply Qlt_le_trans with (pow2 (a + 1)); [exact N2|].
    replace (a + 1) with ((a - b + 1) + b) by lia. rewrite pow2_add.
    apply Qmult_le_l; [apply pow2_pos | exact D1]. }
  assert (Hlo : (pow2 (a - b - 1) < x)%Q).
  { apply Qmult_lt_r with d; [exact Hd|]. rewrite Hxd.
    apply Qlt_le_trans with (pow2 a); [|exact N1].
    replace a with ((a - b - 1) + (b + 1)) at 2 by lia. rewrite pow2_add.
    apply Qmult_lt_l; [apply pow2_pos | exact D2]. }
  unfold ilog2. fold a b.
  destruct (Qle_bool (pow2 (a - b)) x) eqn:E.
  - apply Qle_bool_iff in E. split; [exact E | exact Hup].
  - assert (Hlt : (x < pow2 (a - b))%Q).
    { apply Qnot_le_lt. intros H. apply Qle_bool_iff in H. congruence. }
    split; [apply Qlt_le_weak; exact Hlo|].
    replace (a - b - 1 + 1) with (a - b) by lia. exact Hlt.
Qed.

Lemma ilog2_unique (x : Q) (e : Z) :
  (pow2 e <= x)%Q -> (x < pow2 (e + 1))%Q -> ilog2 x = e.
Proof.
  intros H1 H2.
  assert (Hx : (0 < x)%Q) by (eapply Qlt_le_trans; [apply pow2_pos | exact H1]).
  destruct (ilog2_spec Hx) as [S1 S2].
  assert (A : ilog2 x < e + 1).
  { apply pow2_lt_inv. eapply Qle_lt_trans; [exact S1 | exact H2]. }
  assert (B : e < ilog2 x + 1).
  { apply pow2_lt_inv. eapply Qle_lt_trans; [exact H1 | exact S2]. }
  lia.
Qed.

Lemma ilog2_comp (x y : Q) : (0 < x)%Q -> (x == y)%Q -> ilog2 x = ilog2 y.
Proof.
  intros Hx E. symmetry. destruct (ilog2_spec Hx) as [S1 S2].
  apply ilog2_unique; rewrite <- E; assumption.
Qed.

Lemma ilog2_mono (x y : Q) : (0 < x)%Q -> (x <= y)%Q -> ilog2 x <= ilog2 y.
Proof.
  intros Hx Hxy.
  assert (Hy : (0 < y)%Q) by (eapply Qlt_le_trans; eassumption).
  destruct (ilog2_spec Hx) as [S1 _]. destruct (ilog2_spec Hy) as [_ T2].
  assert (A : ilog2 x < ilog2 y + 1).
  { apply pow2_lt_inv. eapply Qle_lt_trans; [exact S1|].
    eapply Qle_lt_trans; [exact Hxy | exact T2]. }
  lia.
Qed.

(** *** Rounding to an integer *)

Lemma rhe_cases (y : Q) :
  round_half_even y = Qfloor y \/ round_half_even y = Qfloor y + 1.
Proof.
  unfold round_half_even.
  destruct (Qcompare (y - inject_Z (Qfloor y)) (1 # 2));
    [destruct (Z.even (Qfloor y))|..]; auto.
Qed.

Lemma rhe_bounds (y : Q) :
  (y - (1 # 2) <= inject_Z (round_half_even y) /\
   inject_Z (round_half_even y) <= y + (1 # 2))%Q.
Proof.
  pose proof (Qfloor_le y) as F1. pose proof (Qlt_floor y) as F2.
  rewrite inject_Z_plus in F2. change (inject_Z 1) with 1%Q in F2.
  unfold round_half_even.
  set (f := inject_Z (Qfloor y)) in *.
  destruct (Qcompare (y - f) (1 # 2)) eqn:C.
  - apply Qeq_alt in C.
    destruct (Z.even (Qfloor y)); [|rewrite inject_Z_plus]; fold f;
      try change (inject_Z 1) with 1%Q; split; lra.
  - apply Qlt_alt in C. fold f. split; lra.
  - apply Qgt_alt in C. rewrite inject_Z_plus. fold f.
    change (inject_Z 1) with 1%Q. split; lra.
Qed.

Lemma rhe_comp (y y' : Q) : (y == y')%Q -> round_half_even y = round_half_even y'.
Proof.
  intros E. unfold round_half_even.
  rewrite (Qfloor_comp _ _ E).
  assert (C : Qcompare (y - inject_Z (Qfloor y')) (1 # 2) =
              Qcompare (y' - inject_Z (Qfloor y')) (1 # 2))
    by (rewrite E; reflexivity).
  rewrite C. reflexivity.
Qed.

Lemma rhe_Z (n : Z) : round_half_even (inject_Z n) = n.
Proof.
  unfold round_half_even. rewrite Qfloor_Z.
  assert (C : Qcompare (inject_Z n - inject_Z n) (1 # 2) = Lt).
  { apply Qlt_alt. setoid_replace (inject_Z n - inject_Z n)%Q with 0%Q by ring.
    reflexivity. }
  rewrite C. reflexivity.
Qed.

Lemma rhe_mono (y y' : Q) :
  (y <= y')%Q -> round_half_even y <= round_half_even y'.
Proof.
  intros H.
  pose proof (Qfloor_resp_le _ _ H) as Hf.
  destruct (Z.eq_dec (Qfloor y) (Qfloor y')) as [E|N].
  - unfold round_half_even. rewrite <- E.
    set (f := Qfloor y) in *. set (g := inject_Z f).
    destruct (Qcompare_spec (y - g) (1 # 2)) as [C|C|C];
      destruct (Qcompare_spec (y' - g) (1 # 2)) as [C'|C'|C'];
      try (destruct (Z.even f); lia); try lia; exfalso; lra.
  - destruct (rhe_cases y) as [A|A], (rhe_cases y') as [B|B]; rewrite A, B; lia.
Qed.

(** *** Rounding a positive rational *)

Lemma ulp_exp_low (a : Q) : -1074 <= ulp_exp a.
Proof. unfold ulp_exp. lia. Qed.

Lemma ulp_exp_comp (x y : Q) : (0 < x)%Q -> (x == y)%Q -> ulp_exp x = ulp_exp y.
Proof. intros Hx E. unfold ulp_exp. rewrite (ilog2_comp Hx E). reflexivity. Qed.

Lemma ulp_exp_mono (x y : Q) : (0 < x)%Q -> (x <= y)%Q -> ulp_exp x <= ulp_exp y.
Proof. intros Hx H. unfold ulp_exp. pose proof (ilog2_mono Hx H). lia. Qed.

Lemma scaled_below (x : Q) :
  (0 < x)%Q -> (x / pow2 (ulp_exp x) < pow2 53)%Q.
Proof.
  intros Hx. destruct (ilog2_spec Hx) as [_ S2].
  apply scaled_lt. eapply Qlt_le_trans; [exact S2|].
  apply pow2_le. unfold ulp_exp. lia.
Qed.

Lemma scaled_above (x : Q) :
  (0 < x)%Q -> -1022 <= ilog2 x -> (pow2 52 <= x / pow2 (ulp_exp x))%Q.
Proof.
  intros Hx Hn. destruct (ilog2_spec Hx) as [S1 _].
  apply scaled_le. replace (ulp_exp x + 52) with (ilog2 x); [exact S1|].
  unfold ulp_exp. lia.
Qed.

Lemma scaled_pos (x : Q) : (0 < x)%Q -> (0 < x / pow2 (ulp_exp x))%Q.
Proof.
  intros Hx. rewrite div_pow2.
  apply Qmult_lt_0_compat; [exact Hx | apply pow2_pos].
Qed.

Lemma mantissa_bounds (x : Q) :
  (0 < x)%Q ->
  0 <= round_half_even (x / pow2 (ulp_exp x)) <= 2 ^ 53 /\
  (-1022 <= ilog2 x -> 2 ^ 52 <= round_half_even (x / pow2 (ulp_exp x))).
Proof.
  intros Hx.
  pose proof (scaled_below Hx) as Hb. pose proof (scaled_pos Hx) as Hp.
  split; [split|].
  - rewrite <- (rhe_Z 0). apply rhe_mono. apply Qlt_le_weak. exact Hp.
  - rewrite <- (rhe_Z (2 ^ 53)). apply rhe_mono.
    rewrite <- pow2_Z by lia. apply Qlt_le_weak. exact Hb.
  - intros Hn. rewrite <- (rhe_Z (2 ^ 52)). apply rhe_mono.
    rewrite <- pow2_Z by lia. apply scaled_above; assumption.
Qed.

Lemma rnd_pos_comp (x y : Q) : (0 < x)%Q -> (x == y)%Q -> rnd_pos x = rnd_pos y.
Proof.
  intros Hx E. unfold rnd_pos. rewrite (ulp_exp_comp Hx E).
  assert (R : round_half_even (x / pow2 (ulp_exp y)) =
              round_half_even (y / pow2 (ulp_exp y)))
    by (apply rhe_comp; rewrite E; reflexivity).
  rewrite R. reflexivity.
Qed.

Lemma rnd_pos_nonneg (x : Q) : (0 < x)%Q -> (0 <= rnd_pos x)%Q.
Proof.
  intros Hx. unfold rnd_pos. destruct (mantissa_bounds Hx) as [[H0 _] _].
  apply Qmult_le_0_compat.
  - change 0%Q with (inject_Z 0). rewrite <- Zle_Qle. exact H0.
  - apply Qlt_le_weak, pow2_pos.
Qed.

Lemma rnd_pos_upper (x : Q) :
  (0 < x)%Q -> (rnd_pos x <= pow2 (ulp_exp x + 53))%Q.
Proof.
  intros Hx. unfold rnd_pos. destruct (mantissa_bounds Hx) as [[_ H1] _].
  rewrite (Z.add_comm (ulp_exp x)), pow2_add.
  apply Qmult_le_compat_r; [|apply Qlt_le_weak, pow2_pos].
  rewrite (@pow2_Z 53) by lia. rewrite <- Zle_Qle. exact H1.
Qed.

Lemma rnd_pos_lower (x : Q) :
  (0 < x)%Q -> -1022 <= ilog2 x -> (pow2 (ilog2 x) <= rnd_pos x)%Q.
Proof.
  intros Hx Hn. unfold rnd_pos. destruct (mantissa_bounds Hx) as [_ H2].
  specialize (H2 Hn).
  replace (ilog2 x) with (52 + ulp_exp x) at 1 by (unfold ulp_exp; lia).
  rewrite pow2_add.
  apply Qmult_le_compat_r; [|apply Qlt_le_weak, pow2_pos].
  rewrite (@pow2_Z 52) by lia. rewrite <- Zle_Qle. exact H2.
Qed.

Lemma rnd_pos_error (x : Q) :
  (0 < x)%Q ->
  (x - pow2 (ulp_exp x - 1) <= rnd_pos x /\
   rnd_pos x <= x + pow2 (ulp_exp x - 1))%Q.
Proof.
  intros Hx. unfold rnd_pos.
  pose proof (rhe_bounds (x / pow2 (ulp_exp x))) as [B1 B2].
  pose proof (unscale x (ulp_exp x)) as U.
  pose proof (pow2_pos (ulp_exp x)) as P.
  pose proof (pow2_pred (ulp_exp x)) as H2.
  set (k := ulp_exp x) in *.
  set (y := (x / pow2 k)%Q) in *.
  set (n := inject_Z (round_half_even y)) in *.
  assert (M1 : ((y - (1 # 2)) * pow2 k <= n * pow2 k)%Q)
    by (apply Qmult_le_compat_r; [exact B1 | apply Qlt_le_weak; exact P]).
  assert (M2 : (n * pow2 k <= (y + (1 # 2)) * pow2 k)%Q)
    by (apply Qmult_le_compat_r; [exact B2 | apply Qlt_le_weak; exact P]).
  set (h := pow2 (k - 1)) in *. set (p := pow2 k) in *.
  assert (E1 : ((y - (1 # 2)) * p == y * p - h)%Q) by (rewrite H2; ring).
  assert (E2 : ((y + (1 # 2)) * p == y * p + h)%Q) by (rewrite H2; ring).
  rewrite E1 in M1. rewrite E2 in M2. rewrite U in M1, M2.
  split; assumption.
Qed.

Lemma rnd_pos_mono (x y : Q) :
  (0 < x)%Q -> (x <= y)%Q -> (rnd_pos x <= rnd_pos y)%Q.
Proof.
  intros Hx Hxy.
  assert (Hy : (0 < y)%Q) by (eapply Qlt_le_trans; eassumption).
  pose proof (ulp_exp_mono Hx Hxy) as Hk.
  destruct (Z.eq_dec (ulp_exp x) (ulp_exp y)) as [E|N].
  - unfold rnd_pos. rewrite E.
    apply Qmult_le_compat_r; [|apply Qlt_le_weak, pow2_pos].
    rewrite <- Zle_Qle. apply rhe_mono. apply div_pow2_le. exact Hxy.
  - assert (Hn : -1022 <= ilog2 y) by (unfold ulp_exp in *; lia).
    eapply Qle_trans; [apply (rnd_pos_upper Hx)|].
    eapply Qle_trans; [|apply (rnd_pos_lower Hy Hn)].
    apply pow2_le. unfold ulp_exp in *. lia.
Qed.

(** A representable is its own rounding. *)
Lemma rnd_pos_representable (q : Q) : (0 < q)%Q -> representable q -> (rnd_pos q == q)%Q.
Proof.
  intros Hq (m & e & [Hm0 Hm1] & He & Eq & _).
  destruct (ilog2_spec Hq) as [S1 _].
  assert (Hk : ulp_exp q <= e).
  { unfold ulp_exp.
    destruct (Z_le_gt_dec (-1022) (ilog2 q)) as [Hn|Hn]; [|lia].
    assert (A : (pow2 (ilog2 q) < pow2 (53 + e))%Q).
    { eapply Qle_lt_trans; [exact S1|]. rewrite Eq, pow2_add.
      apply Qmult_lt_compat_r; [apply pow2_pos|].
      rewrite (@pow2_Z 53) by lia. rewrite <- Zlt_Qlt. exact Hm1. }
    apply pow2_lt_inv in A. lia. }
  set (k := ulp_exp q) in *.
  assert (Ey : (q / pow2 k == inject_Z (m * 2 ^ (e - k)))%Q).
  { rewrite div_pow2, Eq, inject_Z_mult, <- pow2_Z by lia.
    rewrite <- Qmult_assoc, <- pow2_add.
    replace (e + - k) with (e - k) by lia. reflexivity. }
  unfold rnd_pos. fold k.
  rewrite (rhe_comp Ey), rhe_Z.
  rewrite inject_Z_mult, <- pow2_Z by lia.
  rewrite <- Qmult_assoc, <- pow2_add.
  replace (e - k + k) with e by lia. symmetry. exact Eq.
Qed.

Lemma rnd_pos_is_representable (x : Q) :
  (0 < x)%Q -> (rnd_pos x < pow2 1024)%Q -> representable (rnd_pos x).
Proof.
  intros Hx Hlt. destruct (mantissa_bounds Hx) as [[H0 H1] _].
  pose proof (ulp_exp_low x) as Hk.
  unfold representable. unfold rnd_pos in *.
  set (k := ulp_exp x) in *. set (n := round_half_even (x / pow2 k)) in *.
  destruct (Z.eq_dec n (2 ^ 53)) as [E|N].
  - exists (2 ^ 52), (k + 1).
    split; [lia|]. split; [lia|]. split; [|exact Hlt].
    rewrite E, pow2_succ. rewrite <- !pow2_Z by lia.
    change (pow2 53) with (2 * pow2 52)%Q. ring.
  - exists n, k. split; [lia|]. split; [lia|]. split; [reflexivity | exact Hlt].
Qed.

(** *** Rounding *)

Lemma rnd_comp (x y : Q) : (x == y)%Q -> rnd x = rnd y.
Proof.
  intros E. unfold rnd.
  assert (C : Qcompare x 0 = Qcompare y 0) by (rewrite E; reflexivity).
  rewrite <- C.
  destruct (Qcompare_spec x 0) as [H|H|H]; [reflexivity| |].
  - assert (Hn : (0 < - x)%Q) by lra.
    assert (En : (- x == - y)%Q) by (rewrite E; reflexivity).
    rewrite (rnd_pos_comp Hn En). reflexivity.
  - rewrite (rnd_pos_comp H E). reflexivity.
Qed.

Lemma rnd_zero : rnd 0 = Fin 0.
Proof. reflexivity. Qed.

Lemma rnd_positive (x : Q) :
  (0 < x)%Q ->
  rnd x = if Qle_bool (pow2 1024) (rnd_pos x) then PInf else Fin (rnd_pos x).
Proof.
  intros H. unfold rnd.
  destruct (Qcompare_spec x 0) as [C|C|C]; [| |reflexivity]; exfalso; lra.
Qed.

Lemma rnd_negative (x : Q) :
  (x < 0)%Q ->
  rnd x = if Qle_bool (pow2 1024) (rnd_pos (- x)) then NInf
          else Fin (- rnd_pos (- x)).
Proof.
  intros H. unfold rnd.
  destruct (Qcompare_spec x 0) as [C|C|C]; [|reflexivity|]; exfalso; lra.
Qed.

Lemma rnd_nonneg (x : Q) : (0 <= x)%Q -> num_le (Fin 0) (rnd x).
Proof.
  intros H. destruct (Qle_lt_or_eq _ _ H) as [P|E].
  - rewrite (rnd_positive P).
    destruct (Qle_bool (pow2 1024) (rnd_pos x)); [exact I|].
    cbn. apply rnd_pos_nonneg. exact P.
  - rewrite <- (rnd_comp E). cbn. apply Qle_refl.
Qed.

Lemma rnd_mono (x y : Q) : (x <= y)%Q -> num_le (rnd x) (rnd y).
Proof.
  intros H.
  destruct (Qlt_le_dec 0 x) as [Px|Nx].
  - (* both positive *)
    assert (Py : (0 < y)%Q) by lra.
    rewrite (rnd_positive Px), (rnd_positive Py).
    pose proof (rnd_pos_mono Px H) as M.
    destruct (Qle_bool (pow2 1024) (rnd_pos x)) eqn:Ox.
    + apply Qle_bool_iff in Ox.
      assert (Oy : Qle_bool (pow2 1024) (rnd_pos y) = true)
        by (apply Qle_bool_iff; lra).
      rewrite Oy. exact I.
    + destruct (Qle_bool (pow2 1024) (rnd_pos y)); [exact I | exact M].
  - destruct (Qlt_le_dec y 0) as [Ny|Py].
    + (* both negative *)
      assert (Nx' : (x < 0)%Q) by lra.
      rewrite (rnd_negative Nx'), (rnd_negative Ny).
      assert (Pn : (0 < - y)%Q) by lra.
      assert (Hn : (- y <= - x)%Q) by lra.
      pose proof (rnd_pos_mono Pn Hn) as M.
      destruct (Qle_bool (pow2 1024) (rnd_pos (- x))) eqn:Ox;
        [destruct (Qle_bool (pow2 1024) (rnd_pos (- y))); exact I|].
      destruct (Qle_bool (pow2 1024) (rnd_pos (- y))) eqn:Oy.
      * apply Qle_bool_iff in Oy.
        assert (Ox' : Qle_bool (pow2 1024) (rnd_pos (- x)) = true)
          by (apply Qle_bool_iff; lra).
        congruence.
      * cbn. lra.
    + (* x <= 0 <= y *)
      pose proof (rnd_nonneg Py) as Hy.
      destruct (Qle_lt_or_eq _ _ Nx) as [Nx'|Ex].
      * rewrite (rnd_negative Nx').
        destruct (Qle_bool (pow2 1024) (rnd_pos (- x)));
          [destruct (rnd y); cbn in *; try exact I; contradiction|].
        assert (Pn : (0 < - x)%Q) by lra.
        pose proof (rnd_pos_nonneg Pn) as R.
        destruct (rnd y); cbn in *; try exact I; try contradiction. lra.
      * rewrite (rnd_comp Ex). exact Hy.
Qed.

Lemma rnd_representable (q : Q) :
  (0 <= q)%Q -> representable q -> exists r, rnd q = Fin r /\ (r == q)%Q.
Proof.
  intros H D. destruct (Qle_lt_or_eq _ _ H) as [P|E].
  - pose proof (rnd_pos_representable P D) as R.
    destruct D as (_ & _ & _ & _ & _ & Hlt).
    rewrite (rnd_positive P).
    assert (O : Qle_bool (pow2 1024) (rnd_pos q) = false).
    { apply not_true_is_false. intros T. apply Qle_bool_iff in T. lra. }
    rewrite O. exists (rnd_pos q). split; [reflexivity | exact R].
  - rewrite <- (rnd_comp E). exists 0%Q. split; [reflexivity | exact E].
Qed.

Lemma rnd_is_representable (x r : Q) : (0 <= x)%Q -> rnd x = Fin r -> representable r.
Proof.
  intros H R. destruct (Qle_lt_or_eq _ _ H) as [P|E].
  - rewrite (rnd_positive P) in R.
    destruct (Qle_bool (pow2 1024) (rnd_pos x)) eqn:O; [discriminate|].
    injection R as <-. apply rnd_pos_is_representable; [exact P|].
    apply Qnot_le_lt. intros T. apply Qle_bool_iff in T. congruence.
  - rewrite <- (rnd_comp E) in R. injection R as <-.
    exists 0, 0. split; [lia|]. split; [lia|]. split; reflexivity.
Qed.

Lemma representable_comp (q q' : Q) : (q == q')%Q -> representable q -> representable q'.
Proof.
  intros E (m & e & Hm & He & Eq & Hlt). exists m, e.
  split; [exact Hm|]. split; [exact He|]. rewrite <- E. split; assumption.
Qed.

Lemma representable_Z (n : Z) : 0 <= n < 2 ^ 53 -> representable (inject_Z n).
Proof.
  intros H. exists n, 0. split; [exact H|]. split; [lia|].
  split; [change (pow2 0) with 1%Q; ring|].
  apply Qlt_trans with (pow2 53); [|apply pow2_lt; lia].
  rewrite pow2_Z by lia. rewrite <- Zlt_Qlt. lia.
Qed.

(** One less than a double between 1 and 2^53 is a double. *)
Lemma representable_pred (t : Q) :
  representable t -> (1 <= t)%Q -> (t <= pow2 53)%Q -> representable (t - 1).
Proof.
  intros (m & e & [Hm0 Hm1] & He & Eq & Hlt) H1 Hmax.
  destruct (Z_le_gt_dec 0 e) as [Pe|Ne].
  - (* an integer *)
    assert (Et : (t == inject_Z (m * 2 ^ e))%Q)
      by (rewrite Eq, inject_Z_mult, <- pow2_Z by lia; reflexivity).
    assert (Hge : 1 <= m * 2 ^ e).
    { rewrite Et in H1. change 1%Q with (inject_Z 1) in H1.
      rewrite <- Zle_Qle in H1. exact H1. }
    assert (Hle : m * 2 ^ e <= 2 ^ 53).
    { rewrite Et, (@pow2_Z 53) in Hmax by lia.
      rewrite <- Zle_Qle in Hmax. exact Hmax. }
    apply representable_comp with (inject_Z (m * 2 ^ e - 1)).
    + rewrite Et. unfold Zminus. rewrite inject_Z_plus. reflexivity.
    + apply representable_Z. lia.
  - exists (m - 2 ^ (- e)), e.
    assert (P : 0 < 2 ^ (- e)) by (apply Z.pow_pos_nonneg; lia).
    assert (Hge : 2 ^ (- e) <= m).
    { assert (A : (pow2 (- e) * pow2 e <= inject_Z m * pow2 e)%Q).
      { rewrite <- pow2_add. replace (- e + e) with 0 by lia.
        change (pow2 0) with 1%Q. rewrite <- Eq. exact H1. }
      apply Qmult_le_r in A; [|apply pow2_pos].
      rewrite pow2_Z in A by lia. rewrite <- Zle_Qle in A. exact A. }
    split; [lia|]. split; [exact He|]. split.
    + unfold Zminus. rewrite inject_Z_plus, inject_Z_opp, <- pow2_Z by lia.
      rewrite Qmult_plus_distr_l, <- Eq.
      setoid_replace (- pow2 (- e) * pow2 e)%Q with (- (pow2 (- e) * pow2 e))%Q by ring.
      rewrite <- pow2_add. replace (- e + e) with 0 by lia.
      change (pow2 0) with 1%Q. ring.
    + lra.
Qed.

(** *** The order *)

Lemma rnd_not_NaN (x : Q) : rnd x <> NaN.
Proof.
  unfold rnd. destruct (Qcompare x 0); [discriminate| |].
  - destruct (Qle_bool (pow2 1024) (rnd_pos (- x))); discriminate.
  - destruct (Qle_bool (pow2 1024) (rnd_pos x)); discriminate.
Qed.

Lemma num_le_refl (x : number) : x <> NaN -> num_le x x.
Proof. destruct x; cbn; intros H; try exact I; [apply Qle_refl | congruence]. Qed.

Lemma num_le_trans (x y z : number) : num_le x y -> num_le y z -> num_le x z.
Proof.
  destruct x, y, z; cbn; intros H1 H2; try exact I; try contradiction.
  eapply Qle_trans; eassumption.
Qed.

Lemma num_le_PInf (x : number) : x <> NaN -> num_le x PInf.
Proof. destruct x; cbn; intros H; try exact I. congruence. Qed.

Lemma nonneg_inv (x : number) :
  num_le (Fin 0) x -> (exists q, x = Fin q /\ (0 <= q)%Q) \/ x = PInf.
Proof.
  destruct x; cbn; intros H; try contradiction.
  - left. exists q. split; [reflexivity | exact H].
  - right. reflexivity.
Qed.

Lemma nonneg_not_NaN (x : number) : num_le (Fin 0) x -> x <> NaN.
Proof. destruct x; cbn; intros H; try contradiction; discriminate. Qed.

Lemma num_le_not_NaN_r (x y : number) : num_le x y -> y <> NaN.
Proof. destruct x, y; cbn; intros H; try contradiction; discriminate. Qed.

(** *** The operations, on numbers that are not negative *)

Lemma of_Z_mono (a b : Z) : a <= b -> num_le (of_Z a) (of_Z b).
Proof. intros H. apply rnd_mono. rewrite <- Zle_Qle. exact H. Qed.

Lemma of_Z_nonneg (a : Z) : 0 <= a -> num_le (Fin 0) (of_Z a).
Proof. intros H. apply (rnd_nonneg (x := inject_Z a)). change 0%Q with (inject_Z 0). rewrite <- Zle_Qle. exact H. Qed.

Lemma div_Fin (a c : Q) : (0 < c)%Q -> div (Fin a) (Fin c) = rnd (a / c).
Proof.
  intros H. cbn. destruct (Qeq_bool c 0) eqn:E; [|reflexivity].
  apply Qeq_bool_iff in E. lra.
Qed.

Lemma div_PInf (c : Q) : (0 < c)%Q -> div PInf (Fin c) = PInf.
Proof.
  intros H. cbn. destruct (Qle_bool 0 c) eqn:E; [reflexivity|].
  exfalso. apply not_true_iff_false in E. apply E, Qle_bool_iff. lra.
Qed.

Lemma mul_PInf (r : Q) : (0 < r)%Q -> mul PInf (Fin r) = PInf.
Proof.
  intros H. cbn. unfold scale_inf.
  destruct (Qcompare_spec r 0) as [C|C|C]; [| |reflexivity]; exfalso; lra.
Qed.

Lemma div_nonneg (c : Q) (x : number) :
  (0 < c)%Q -> num_le (Fin 0) x -> num_le (Fin 0) (div x (Fin c)).
Proof.
  intros Hc Hx. destruct (nonneg_inv _ Hx) as [(q & -> & Hq) | ->].
  - rewrite (div_Fin q Hc). apply rnd_nonneg.
    apply Qle_shift_div_l; [exact Hc | lra].
  - rewrite (div_PInf Hc). exact I.
Qed.

Lemma div_mono (c : Q) (x y : number) :
  (0 < c)%Q -> num_le (Fin 0) x -> num_le x y ->
  num_le (div x (Fin c)) (div y (Fin c)).
Proof.
  intros Hc Hx Hxy.
  pose proof (num_le_trans _ _ _ Hx Hxy) as Hy.
  destruct (nonneg_inv _ Hx) as [(a & -> & Ha) | ->];
    destruct (nonneg_inv _ Hy) as [(b & -> & Hb) | ->].
  - rewrite !div_Fin by exact Hc. apply rnd_mono.
    cbn in Hxy. unfold Qdiv. apply Qmult_le_compat_r; [exact Hxy|].
    apply Qlt_le_weak, Qinv_lt_0_compat. exact Hc.
  - rewrite (div_PInf Hc), (div_Fin a Hc). apply num_le_PInf, rnd_not_NaN.
  - cbn in Hxy. contradiction.
  - rewrite (div_PInf Hc). exact I.
Qed.

Lemma mul_nonneg (r : Q) (x : number) :
  (0 < r)%Q -> num_le (Fin 0) x -> num_le (Fin 0) (mul x (Fin r)).
Proof.
  intros Hr Hx. destruct (nonneg_inv _ Hx) as [(q & -> & Hq) | ->].
  - cbn [mul]. apply rnd_nonneg. apply Qmult_le_0_compat; lra.
  - rewrite (mul_PInf Hr). exact I.
Qed.

Lemma mul_mono (r : Q) (x y : number) :
  (0 < r)%Q -> num_le (Fin 0) x -> num_le x y ->
  num_le (mul x (Fin r)) (mul y (Fin r)).
Proof.
  intros Hr Hx Hxy.
  pose proof (num_le_trans _ _ _ Hx Hxy) as Hy.
  destruct (nonneg_inv _ Hx) as [(a & -> & Ha) | ->];
    destruct (nonneg_inv _ Hy) as [(b & -> & Hb) | ->].
  - cbn [mul]. apply rnd_mono. cbn in Hxy.
    apply Qmult_le_compat_r; lra.
  - rewrite (mul_PInf Hr). cbn [mul]. apply num_le_PInf, rnd_not_NaN.
  - cbn in Hxy. contradiction.
  - rewrite (mul_PInf Hr). exact I.
Qed.

Lemma add_Fin_PInf (t : Q) : add (Fin t) PInf = PInf.
Proof. reflexivity. Qed.

Lemma add_nonneg (t : Q) (x : number) :
  (0 <= t)%Q -> num_le (Fin 0) x -> num_le (Fin 0) (add (Fin t) x).
Proof.
  intros Ht Hx. destruct (nonneg_inv _ Hx) as [(q & -> & Hq) | ->].
  - cbn [add]. apply rnd_nonneg. lra.
  - exact I.
Qed.

Lemma add_mono (t t' : Q) (x y : number) :
  (t <= t')%Q -> num_le (Fin 0) x -> num_le x y ->
  num_le (add (Fin t) x) (add (Fin t') y).
Proof.
  intros Ht Hx Hxy.
  pose proof (num_le_trans _ _ _ Hx Hxy) as Hy.
  destruct (nonneg_inv _ Hx) as [(a & -> & Ha) | ->];
    destruct (nonneg_inv _ Hy) as [(b & -> & Hb) | ->].
  - cbn [add]. apply rnd_mono. cbn in Hxy. lra.
  - cbn [add]. apply num_le_PInf, rnd_not_NaN.
  - cbn in Hxy. contradiction.
  - exact I.
Qed.

Lemma min_Fin (m y : Q) :
  exists z, min (Fin m) (Fin y) = Fin z /\
            ((y < m)%Q /\ z = y \/ (m <= y)%Q /\ z = m).
Proof.
  cbn. destruct (Qle_bool m y) eqn:E; cbn.
  - apply Qle_bool_iff in E. exists m. split; [reflexivity|]. right. now split.
  - exists y. split; [reflexivity|]. left. split; [|reflexivity].
    apply Qnot_le_lt. intros H. apply Qle_bool_iff in H. congruence.
Qed.

Lemma min_PInf (m : Q) : min (Fin m) PInf = Fin m.
Proof. reflexivity. Qed.

Lemma min_mono (m : Q) (x y : number) :
  num_le x y -> x <> NaN -> num_le (min (Fin m) x) (min (Fin m) y).
Proof.
  intros Hxy Hx. pose proof (@num_le_not_NaN_r _ _ Hxy) as Hy.
  destruct x as [a| | |], y as [b| | |]; try congruence; try contradiction.
  - cbn in Hxy.
    destruct (min_Fin m a) as (z1 & -> & [[H1 ->] | [H1 ->]]);
      destruct (min_Fin m b) as (z2 & -> & [[H2 ->] | [H2 ->]]); cbn; lra.
  - rewrite min_PInf.
    destruct (min_Fin m a) as (z1 & -> & [[H1 ->] | [H1 ->]]); cbn; lra.
  - cbn. apply Qle_refl.
  - destruct (min_Fin m b) as (z2 & E & _). rewrite E. exact I.
  - exact I.
  - exact I.
Qed.

(** The smaller of a finite number and a number that is not
    negative. *)
Lemma min_cases (m : Q) (y : number) :
  num_le (Fin 0) y ->
  exists z, min (Fin m) y = Fin z /\ (z <= m)%Q /\ num_le (Fin z) y /\
            (z == m \/ y = Fin z)%Q.
Proof.
  intros Hy. destruct (nonneg_inv _ Hy) as [(q & -> & Hq) | ->].
  - destruct (min_Fin m q) as (z & E & [[H ->] | [H ->]]).
    + exists q. split; [exact E|]. split; [lra|]. split; [cbn; lra|].
      right. reflexivity.
    + exists m. split; [exact E|]. split; [lra|]. split; [exact H|].
      left. reflexivity.
  - exists m. rewrite min_PInf. split; [reflexivity|].
    split; [apply Qle_refl|]. split; [exact I|]. left. reflexivity.
Qed.

(** *** How far a rounding can be above what it rounds *)

Lemma ilog2_above (x : Q) (e : Z) : (pow2 e <= x)%Q -> e <= ilog2 x.
Proof.
  intros H.
  assert (Hx : (0 < x)%Q) by (eapply Qlt_le_trans; [apply pow2_pos | exact H]).
  destruct (ilog2_spec Hx) as [_ S2].
  assert (A : (pow2 e < pow2 (ilog2 x + 1))%Q) by (eapply Qle_lt_trans; eassumption).
  apply pow2_lt_inv in A. lia.
Qed.

Lemma ilog2_below (x : Q) (e : Z) : (0 < x)%Q -> (x < pow2 e)%Q -> ilog2 x < e.
Proof.
  intros Hx H. destruct (ilog2_spec Hx) as [S1 _].
  assert (A : (pow2 (ilog2 x) < pow2 e)%Q) by (eapply Qle_lt_trans; eassumption).
  now apply pow2_lt_inv in A.
Qed.

(** In the normal range the relative error is at most [2^-53]. *)
Lemma rnd_upper_normal (x y : Q) :
  (pow2 (-1022) <= x)%Q -> rnd x = Fin y -> (y <= x * (1 + pow2 (-53)))%Q.
Proof.
  intros Hn R.
  assert (Hx : (0 < x)%Q)
    by (eapply Qlt_le_trans; [apply (pow2_pos (-1022)) | exact Hn]).
  rewrite (rnd_positive Hx) in R.
  destruct (Qle_bool (pow2 1024) (rnd_pos x)); [discriminate|].
  injection R as <-.
  destruct (rnd_pos_error Hx) as [_ Hup].
  pose proof (@ilog2_above x (-1022) Hn) as He.
  destruct (ilog2_spec Hx) as [S1 _].
  assert (Ek : ulp_exp x - 1 = ilog2 x + -53) by (unfold ulp_exp; lia).
  rewrite Ek, pow2_add in Hup.
  pose proof (pow2_pos (-53)) as P.
  assert (M : (pow2 (ilog2 x) * pow2 (-53) <= x * pow2 (-53))%Q)
    by (apply Qmult_le_compat_r; [exact S1 | apply Qlt_le_weak; exact P]).
  set (u := pow2 (-53)) in *. set (w := pow2 (ilog2 x)) in *.
  set (z := rnd_pos x) in *.
  setoid_replace (x * (1 + u))%Q with (x + x * u)%Q by ring. lra.
Qed.

(** The error is at most [2^-53] of the result, and [2^-1075] for a
    subnormal result. *)
Lemma rnd_upper_self (x y : Q) :
  (0 <= x)%Q -> rnd x = Fin y ->
  (y <= x + pow2 (-53) * y + pow2 (-1075))%Q.
Proof.
  intros H0 R.
  pose proof (pow2_pos (-53)) as P. pose proof (pow2_pos (-1075)) as P'.
  destruct (Qle_lt_or_eq _ _ H0) as [Hx|E].
  - rewrite (rnd_positive Hx) in R.
    destruct (Qle_bool (pow2 1024) (rnd_pos x)); [discriminate|].
    injection R as <-.
    destruct (rnd_pos_error Hx) as [_ Hup].
    pose proof (rnd_pos_nonneg Hx) as Hy.
    destruct (Z_le_gt_dec (-1022) (ilog2 x)) as [Hn|Hs].
    + pose proof (rnd_pos_lower Hx Hn) as Hl.
      assert (Ek : ulp_exp x - 1 = -53 + ilog2 x) by (unfold ulp_exp; lia).
      rewrite Ek, pow2_add in Hup.
      assert (M : (pow2 (-53) * pow2 (ilog2 x) <= pow2 (-53) * rnd_pos x)%Q).
      { rewrite !(Qmult_comm (pow2 (-53))).
        apply Qmult_le_compat_r; [exact Hl | apply Qlt_le_weak; exact P]. }
      set (u := pow2 (-53)) in *. set (w := pow2 (ilog2 x)) in *.
      set (z := rnd_pos x) in *. set (h := pow2 (-1075)) in *. lra.
    + assert (Ek : ulp_exp x - 1 = -1075) by (unfold ulp_exp; lia).
      rewrite Ek in Hup.
      assert (M : (0 <= pow2 (-53) * rnd_pos x)%Q)
        by (apply Qmult_le_0_compat; [apply Qlt_le_weak; exact P | exact Hy]).
      set (u := pow2 (-53)) in *. set (z := rnd_pos x) in *.
      set (h := pow2 (-1075)) in *. lra.
  - rewrite <- (rnd_comp E) in R. injection R as <-.
    rewrite <- E.
    setoid_replace (0 + pow2 (-53) * 0 + pow2 (-1075))%Q
      with (pow2 (-1075)) by ring.
    apply Qlt_le_weak. exact P'.
Qed.

(** Only a number of at least [2^1023] rounds to infinity. *)
Lemma rnd_overflow (x : Q) : (0 <= x)%Q -> rnd x = PInf -> (pow2 1023 <= x)%Q.
Proof.
  intros H0 R. apply Qnot_lt_le. intros Hlt.
  destruct (Qle_lt_or_eq _ _ H0) as [Hx|E].
  - rewrite (rnd_positive Hx) in R.
    destruct (Qle_bool (pow2 1024) (rnd_pos x)) eqn:O; [|discriminate].
    apply Qle_bool_iff in O.
    pose proof (rnd_pos_upper Hx) as Hup.
    pose proof (@ilog2_below x 1023 Hx Hlt) as He.
    assert (A : (pow2 (ulp_exp x + 53) <= pow2 1023)%Q)
      by (apply pow2_le; unfold ulp_exp; lia).
    assert (B : (pow2 1023 < pow2 1024)%Q) by (apply pow2_lt; lia).
    lra.
  - rewrite <- (rnd_comp E) in R. discriminate.
Qed.

Lemma of_Z_exact (d : Z) :
  0 <= d < 2 ^ 53 -> exists y, of_Z d = Fin y /\ (y == inject_Z d)%Q.
Proof.
  intros H. unfold of_Z. apply rnd_representable.
  - change 0%Q with (inject_Z 0). rewrite <- Zle_Qle. lia.
  - now apply representable_Z.
Qed.

Lemma rnd_upper (x y : Q) :
  (0 <= x)%Q -> rnd x = Fin y ->
  (y <= x * (1 + pow2 (-53)) + pow2 (-1075))%Q.
Proof.
  intros H0 R.
  pose proof (pow2_pos (-53)) as P. pose proof (pow2_pos (-1075)) as P'.
  destruct (Qlt_le_dec x (pow2 (-1022))) as [Hs|Hn].
  - destruct (Qle_lt_or_eq _ _ H0) as [Hx|E].
    + rewrite (rnd_positive Hx) in R.
      destruct (Qle_bool (pow2 1024) (rnd_pos x)); [discriminate|].
      injection R as <-.
      destruct (rnd_pos_error Hx) as [_ Hup].
      pose proof (@ilog2_below x (-1022) Hx Hs) as He.
      assert (Ek : ulp_exp x - 1 = -1075) by (unfold ulp_exp; lia).
      rewrite Ek in Hup.
      assert (M : (0 <= x * pow2 (-53))%Q)
        by (apply Qmult_le_0_compat; [exact H0 | apply Qlt_le_weak; exact P]).
      set (u := pow2 (-53)) in *. set (z := rnd_pos x) in *.
      set (h := pow2 (-1075)) in *.
      setoid_replace (x * (1 + u))%Q with (x + x * u)%Q by ring. lra.
    + rewrite <- (rnd_comp E) in R. injection R as <-. rewrite <- E.
      setoid_replace (0 * (1 + pow2 (-53)) + pow2 (-1075))%Q
        with (pow2 (-1075)) by ring.
      apply Qlt_le_weak. exact P'.
  - pose proof (rnd_upper_normal Hn R) as Hup. lra.
Qed.

(** The capped sum of a count and a refill is at most their sum, up
    to the rounding of a number no larger than the cap. *)
Lemma capped_sum_upper (m c p z : Q) :
  representable m -> (0 <= c)%Q -> (0 <= p)%Q ->
  min (Fin m) (rnd (c + p)) = Fin z ->
  (z <= c + p + pow2 (-53) * m + pow2 (-1075))%Q.
Proof.
  intros Rm Hc Hp E.
  pose proof (pow2_pos (-53)) as P. pose proof (pow2_pos (-1075)) as P'.
  pose proof (rnd_nonneg (x := (c + p)%Q) ltac:(lra)) as Hs.
  assert (Hm0 : (0 <= m)%Q).
  { destruct Rm as (k & e & [Hk _] & _ & Em & _). rewrite Em.
    apply Qmult_le_0_compat; [|apply Qlt_le_weak, pow2_pos].
    change 0%Q with (inject_Z 0). rewrite <- Zle_Qle. exact Hk. }
  assert (Um : (0 <= pow2 (-53) * m)%Q)
    by (apply Qmult_le_0_compat; [apply Qlt_le_weak; exact P | exact Hm0]).
  destruct (Qlt_le_dec (c + p) m) as [Lt|Ge].
  - (* the sum is below the cap: so is its rounding *)
    pose proof (rnd_mono (Qlt_le_weak _ _ Lt)) as Hmono.
    destruct (@rnd_representable m Hm0 Rm) as (m' & Em' & Eq').
    rewrite Em' in Hmono.
    destruct (rnd (c + p)) as [s| | |] eqn:Es; cbn in Hmono, Hs;
      try contradiction.
    pose proof (@rnd_upper_self (c + p) s ltac:(lra) Es) as Hup.
    destruct (min_Fin m s) as (z' & Ez & [[H1 ->] | [H1 ->]]);
      rewrite Ez in E; injection E as <-.
    + assert (M : (pow2 (-53) * s <= pow2 (-53) * m)%Q).
      { rewrite !(Qmult_comm (pow2 (-53))).
        apply Qmult_le_compat_r; [lra | apply Qlt_le_weak; exact P]. }
      set (u := pow2 (-53)) in *. set (h := pow2 (-1075)) in *. lra.
    + assert (M : (pow2 (-53) * s <= pow2 (-53) * m)%Q).
      { rewrite !(Qmult_comm (pow2 (-53))).
        apply Qmult_le_compat_r; [lra | apply Qlt_le_weak; exact P]. }
      set (u := pow2 (-53)) in *. set (h := pow2 (-1075)) in *. lra.
  - (* the sum reaches the cap *)
    destruct (min_cases m _ Hs) as (z' & Ez & Hzm & _).
    rewrite Ez in E. injection E as <-.
    set (u := pow2 (-53)) in *. set (h := pow2 (-1075)) in *. lra.
Qed.

End DoubleFacts.

(** ** The token bucket *)

Module RateLimiterFacts.
Import Double DoubleFacts RateLimiter.
Import RateLimiterSpec.

Lemma representable_nonneg (q : Q) : representable q -> (0 <= q)%Q.
Proof.
  intros (m & e & [Hm _] & _ & E & _). rewrite E.
  apply Qmult_le_0_compat; [|apply Qlt_le_weak, pow2_pos].
  change 0%Q with (inject_Z 0). rewrite <- Zle_Qle. exact Hm.
Qed.

Lemma regular_ok (b : t) : regular b -> bucket_ok b.
Proof.
  intros (c & m & r & Hc & Hm & _ & Rc & _ & Hle & _).
  exists c, m. repeat split; try assumption. now apply representable_nonneg.
Qed.

Lemma refill_tokens (now : Z) (b : t) :
  tokens (refill now b) =
  min (maxTokens b) (add (tokens b) (refilled now b)).
Proof. reflexivity. Qed.

Lemma elapsed_nonneg (now last : Z) :
  last <= now -> num_le (Fin 0) (elapsed now last).
Proof.
  intros H. unfold elapsed. apply div_nonneg; [reflexivity|].
  apply of_Z_nonneg. lia.
Qed.

Lemma elapsed_mono (now now' last : Z) :
  last <= now -> now <= now' ->
  num_le (elapsed now last) (elapsed now' last).
Proof.
  intros H1 H2. unfold elapsed. apply div_mono; [reflexivity| |].
  - apply of_Z_nonneg. lia.
  - apply of_Z_mono. lia.
Qed.

Lemma refilled_nonneg (now : Z) (b : t) (r : Q) :
  refillRate b = Fin r -> (0 < r)%Q -> lastRefill b <= now ->
  num_le (Fin 0) (refilled now b).
Proof.
  intros Hr Hpos Ht. unfold refilled. rewrite Hr.
  apply mul_nonneg; [exact Hpos|]. now apply elapsed_nonneg.
Qed.

Lemma refilled_mono (now now' : Z) (b : t) (r : Q) :
  refillRate b = Fin r -> (0 < r)%Q -> lastRefill b <= now -> now <= now' ->
  num_le (refilled now b) (refilled now' b).
Proof.
  intros Hr Hpos H1 H2. unfold refilled. rewrite Hr.
  apply mul_mono; [exact Hpos| |].
  - now apply elapsed_nonneg.
  - now apply elapsed_mono.
Qed.

Lemma add_zero (c : Q) :
  representable c -> exists c0, add (Fin c) (Fin 0) = Fin c0 /\ (c0 == c)%Q.
Proof.
  intros R. cbn [add].
  assert (E : (c + 0 == c)%Q) by ring.
  rewrite (rnd_comp E).
  apply rnd_representable; [now apply representable_nonneg | exact R].
Qed.

(** A refill never lowers the count, never takes it above the
    capacity, and leaves a double. *)
Lemma refill_spec (now : Z) (b : t) (c m r : Q) :
  tokens b = Fin c -> maxTokens b = Fin m -> refillRate b = Fin r ->
  representable c -> representable m -> (c <= m)%Q -> (0 < r)%Q ->
  lastRefill b <= now ->
  exists c', tokens (refill now b) = Fin c' /\
             (c <= c')%Q /\ (c' <= m)%Q /\ representable c' /\
             num_le (Fin c') (add (Fin c) (refilled now b)).
Proof.
  intros Hc Hm Hr Rc Rm Hle Hpos Ht.
  pose proof (@refilled_nonneg now b r Hr Hpos Ht) as Hp.
  rewrite refill_tokens, Hc, Hm.
  set (p := refilled now b) in *.
  assert (Hs : num_le (add (Fin c) (Fin 0)) (add (Fin c) p))
    by (apply add_mono; [apply Qle_refl | apply Qle_refl | exact Hp]).
  destruct (add_zero Rc) as (c0 & E0 & Ec0). rewrite E0 in Hs.
  assert (Hs0 : num_le (Fin 0) (add (Fin c) p))
    by (apply add_nonneg; [now apply representable_nonneg | exact Hp]).
  destruct (min_cases m _ Hs0) as (z & Ez & Hzm & Hzs & Hcase).
  exists z. split; [exact Ez|].
  assert (Hcz : (c <= z)%Q).
  { destruct Hcase as [E | E]; [rewrite E; exact Hle|].
    rewrite E in Hs. cbn in Hs. lra. }
  split; [exact Hcz|]. split; [exact Hzm|]. split; [|exact Hzs].
  destruct Hcase as [E | E].
  - apply representable_comp with m; [symmetry; exact E | exact Rm].
  - destruct (nonneg_inv _ Hp) as [(g & Eg & Hg) | Eg]; rewrite Eg in E.
    + cbn [add] in E. apply (@rnd_is_representable (c + g)); [|exact E].
      pose proof (representable_nonneg Rc). lra.
    + discriminate.
Qed.

Lemma refill_regular (now : Z) (b : t) :
  regular b -> lastRefill b <= now -> regular (refill now b).
Proof.
  intros (c & m & r & Hc & Hm & Hr & Rc & Rm & Hle & Hmax & Hpos) Ht.
  destruct (@refill_spec now b c m r Hc Hm Hr Rc Rm Hle Hpos Ht)
    as (c' & Hc' & _ & Hc'm & Rc' & _).
  exists c', m, r. repeat split; assumption.
Qed.

(** The count after a refill is at least [x + g], capped, when the
    count before was at least [x] and the refill adds at least [g]. *)
Lemma refill_lower (now : Z) (b : t) (c x g : Q) :
  regular b -> lastRefill b <= now -> tokens b = Fin c ->
  (x <= c)%Q -> (0 <= g)%Q -> representable (x + g) ->
  num_le (Fin g) (refilled now b) ->
  exists c' m, tokens (refill now b) = Fin c' /\ maxTokens b = Fin m /\
               (Qmin m (x + g) <= c')%Q.
Proof.
  intros (c1 & m & r & Hc1 & Hm & Hr & Rc & Rm & Hle & Hmax & Hpos) Ht Hc
         Hx Hg Rs Hgain.
  rewrite Hc in Hc1. injection Hc1 as <-.
  pose proof (@refilled_nonneg now b r Hr Hpos Ht) as Hp.
  rewrite refill_tokens, Hc, Hm.
  set (p := refilled now b) in *.
  assert (Hs : num_le (add (Fin x) (Fin g)) (add (Fin c) p))
    by (apply add_mono; [exact Hx | exact Hg | exact Hgain]).
  change (add (Fin x) (Fin g)) with (rnd (x + g)) in Hs.
  destruct (@rnd_representable (x + g)) as (y & Ey & Eyq);
    [now apply representable_nonneg | exact Rs |].
  rewrite Ey in Hs.
  assert (Hs0 : num_le (Fin 0) (add (Fin c) p))
    by (apply add_nonneg; [now apply representable_nonneg | exact Hp]).
  destruct (min_cases m _ Hs0) as (z & Ez & Hzm & Hzs & Hcase).
  exists z, m. split; [exact Ez|]. split; [reflexivity|].
  destruct Hcase as [E | E].
  - rewrite E. apply Q.le_min_l.
  - rewrite E in Hs. cbn in Hs. rewrite <- Eyq.
    eapply Qle_trans; [apply Q.le_min_r | exact Hs].
Qed.

Lemma below_one_iff (b : t) (c : Q) :
  tokens b = Fin c -> (below_one b = true <-> (c < 1)%Q).
Proof.
  intros Hc. unfold below_one. rewrite Hc. cbn.
  destruct (Qle_bool 1 c) eqn:E; cbn.
  - apply Qle_bool_iff in E. split; [discriminate | lra].
  - split; [|reflexivity]. intros _.
    apply Qnot_le_lt. intros H. apply Qle_bool_iff in H. congruence.
Qed.

Lemma below_one_false_iff (b : t) (c : Q) :
  tokens b = Fin c -> (below_one b = false <-> (1 <= c)%Q).
Proof.
  intros Hc. pose proof (@below_one_iff b c Hc) as H.
  destruct (below_one b).
  - split; [discriminate|]. intros H1.
    assert (c < 1)%Q by (now apply H). lra.
  - split; [|reflexivity]. intros _.
    apply Qnot_lt_le. intros H1. apply H in H1. discriminate.
Qed.

(** An admission takes exactly one token and leaves a double. *)
Lemma take_spec (b : t) (c : Q) :
  regular b -> below_one b = false -> tokens b = Fin c ->
  exists c', tokens (take b) = Fin c' /\ (c' == c - 1)%Q /\
             regular (take b).
Proof.
  intros (c1 & m & r & Hc1 & Hm & Hr & Rc & Rm & Hle & Hmax & Hpos) Hb Hc.
  rewrite Hc in Hc1. injection Hc1 as <-.
  apply (@below_one_false_iff b c Hc) in Hb.
  assert (Rp : representable (c - 1))
    by (apply representable_pred; [exact Rc | exact Hb | lra]).
  assert (E : (c + - (1) == c - 1)%Q) by ring.
  destruct (@rnd_representable (c - 1)) as (c' & Ec' & Eq');
    [lra | exact Rp |].
  exists c'. cbn [take tokens]. rewrite Hc. unfold sub. cbn [neg add].
  rewrite (rnd_comp E). split; [exact Ec'|]. split; [exact Eq'|].
  exists c', m, r. cbn [take tokens maxTokens refillRate].
  unfold sub. rewrite Hc. cbn [neg add]. rewrite (rnd_comp E).
  repeat split; try assumption.
  - apply representable_comp with (c - 1)%Q; [symmetry; exact Eq' | exact Rp].
  - lra.
Qed.

Lemma timer_delay_bounds (ms : number) : 1 <= timer_delay ms <= 2147483647.
Proof.
  unfold timer_delay. destruct ms as [d| | |]; try lia.
  destruct (Qle_bool 1 d) eqn:E1; cbn [andb]; [|lia].
  destruct (Qle_bool d 2147483647) eqn:E2; [|lia].
  apply Qle_bool_iff in E1, E2.
  split.
  - change 1 with (Qfloor 1). apply Qfloor_resp_le. exact E1.
  - change 2147483647 with (Qfloor 2147483647). apply Qfloor_resp_le. exact E2.
Qed.

Lemma delay_pos (b : t) : 1 <= delay b.
Proof. unfold delay. apply timer_delay_bounds. Qed.

Lemma timely_forward (wake : Z -> Z -> Z) :
  timely wake -> forall now d, 1 <= d -> now <= wake now d.
Proof. intros H now d Hd. specialize (H now d). lia. Qed.

Lemma num_le_tokens_refill (now : Z) (b : t) :
  regular b -> lastRefill b <= now ->
  num_le (tokens b) (tokens (refill now b)).
Proof.
  intros (c & m & r & Hc & Hm & Hr & Rc & Rm & Hle & Hmax & Hpos) Ht.
  destruct (@refill_spec now b c m r Hc Hm Hr Rc Rm Hle Hpos Ht)
    as (c' & Hc' & Hcc' & _).
  rewrite Hc, Hc'. exact Hcc'.
Qed.

Lemma regular_tokens (b : t) : regular b -> tokens b <> NaN.
Proof. intros (c & m & r & Hc & _). rewrite Hc. discriminate. Qed.

(** What an admitted call leaves: the bucket [b0] of its last refill
    before the admitting one, refilled at the admission and one
    token taken. *)
Lemma acquire_admitted (wake : Z -> Z -> Z) (fuel : nat) :
  timely wake ->
  forall (now : Z) (b : t) (admitted : Z) (b' : t),
    regular b -> lastRefill b <= now ->
    acquire wake fuel now b = Some (admitted, b') ->
    now <= admitted /\
    exists b0,
      regular b0 /\
      lastRefill b <= lastRefill b0 /\ lastRefill b0 <= admitted /\
      maxTokens b0 = maxTokens b /\ refillRate b0 = refillRate b /\
      num_le (tokens b) (tokens b0) /\
      (b0 = b /\ admitted = now \/ below_one b0 = true /\ now < admitted) /\
      below_one (refill admitted b0) = false /\
      b' = take (refill admitted b0).
Proof.
  intros Hwake. induction fuel as [|fuel IH]; intros now b admitted b' Hwf Ht Hacq;
    [discriminate|].
  cbn [acquire] in Hacq.
  destruct (below_one (refill now b)) eqn:Hb.
  - pose proof (Hwake now (timer_delay (waitMs (refill now b)))) as Hw.
    pose proof (proj1 (timer_delay_bounds (waitMs (refill now b)))) as Hd.
    pose proof (refill_regular Hwf Ht) as Hwf1.
    apply IH in Hacq; [|exact Hwf1 | cbn [lastRefill refill]; lia].
    destruct Hacq as (Hadm & b0 & Hwf0 & Hl1 & Hl2 & Hm0 & Hr0 & Htok & Hcase &
                      Hb0 & Hb').
    cbn [lastRefill maxTokens refillRate refill] in Hl1, Hm0, Hr0.
    split; [lia|]. exists b0.
    split; [exact Hwf0|]. split; [lia|]. split; [exact Hl2|].
    split; [exact Hm0|]. split; [exact Hr0|].
    split; [eapply num_le_trans; [apply (num_le_tokens_refill Hwf Ht) | exact Htok]|].
    split; [|split; assumption].
    right. destruct Hcase as [[-> ->] | [Hlt Hnow]].
    + split; [exact Hb | lia].
    + split; [exact Hlt|]. lia.
  - injection Hacq as <- <-. split; [lia|]. exists b.
    split; [exact Hwf|]. split; [lia|]. split; [exact Ht|].
    split; [reflexivity|]. split; [reflexivity|].
    split; [apply num_le_refl, regular_tokens; exact Hwf|].
    split; [left; split; reflexivity|]. split; [exact Hb | reflexivity].
Qed.

(** The bucket an admitted call leaves is regular, refilled at
    the admission, and of the same capacity and rate. *)
Lemma acquire_leaves (wake : Z -> Z -> Z) (fuel : nat) (now : Z) (b : t)
      (admitted : Z) (b' : t) :
  timely wake -> regular b -> lastRefill b <= now ->
  acquire wake fuel now b = Some (admitted, b') ->
  now <= admitted /\ regular b' /\ lastRefill b' = admitted /\
  maxTokens b' = maxTokens b /\ refillRate b' = refillRate b.
Proof.
  intros Hwake Hwf Ht Hacq.
  destruct (@acquire_admitted wake fuel Hwake now b admitted b' Hwf Ht Hacq)
    as (Hadm & b0 & Hwf0 & Hl1 & Hl2 & Hm0 & Hr0 & _ & _ & Hb0 & ->).
  split; [exact Hadm|].
  pose proof (refill_regular Hwf0 Hl2) as Hwf1.
  destruct Hwf1 as (c & m & r & Hc & Hrest).
  assert (Hwf1 : regular (refill admitted b0))
    by (exists c, m, r; split; assumption).
  destruct (@take_spec (refill admitted b0) c Hwf1 Hb0 Hc) as (c' & _ & _ & Hwf').
  split; [exact Hwf'|]. cbn [take refill lastRefill maxTokens refillRate].
  split; [reflexivity|]. split; assumption.
Qed.

(** More fuel does not change the answer. *)
Lemma acquire_more_fuel (wake : Z -> Z -> Z) (fuel extra : nat) :
  forall (now : Z) (b : t) (r : Z * t),
    acquire wake fuel now b = Some r ->
    acquire wake (fuel + extra) now b = Some r.
Proof.
  induction fuel as [|fuel IH]; intros now b r H; [discriminate|].
  cbn [acquire Nat.add] in *.
  destruct (below_one (refill now b)); [now apply IH | exact H].
Qed.

Lemma acquire_each_more_fuel (wake : Z -> Z -> Z) (fuel extra : nat)
      (gaps : list Z) :
  forall (now : Z) (b : t) (trace : list (t * Z * t)),
    acquire_each wake fuel gaps now b = Some trace ->
    acquire_each wake (fuel + extra) gaps now b = Some trace.
Proof.
  induction gaps as [|g gaps IH]; intros now b trace H; [exact H|].
  cbn [acquire_each] in *.
  destruct (acquire wake fuel (now + g) b) as [[admitted b']|] eqn:E;
    [|discriminate].
  rewrite (@acquire_more_fuel wake fuel extra (now + g) b _ E).
  destruct (acquire_each wake fuel gaps admitted b') eqn:E'; [|discriminate].
  now rewrite (IH _ _ _ E').
Qed.

Lemma timer_gain_refill (now : Z) (b : t) : timer_gain (refill now b) = timer_gain b.
Proof. reflexivity. Qed.

Lemma delay_refill (now : Z) (b : t) : delay (refill now b) = delay b.
Proof. reflexivity. Qed.

(** After a wait the refill adds at least what one timer period
    gives. *)
Lemma refilled_after_wait (wake : Z -> Z -> Z) (now : Z) (b : t) (r : Q) :
  timely wake -> refillRate b = Fin r -> (0 < r)%Q ->
  num_le (timer_gain b)
         (refilled (wake now (delay b)) (refill now b)).
Proof.
  intros Hwake Hr Hpos. unfold timer_gain, refilled, elapsed.
  cbn [lastRefill refill refillRate]. rewrite Hr.
  pose proof (delay_pos b) as Hd. pose proof (Hwake now (delay b)) as Hw.
  apply mul_mono; [exact Hpos| |].
  - apply div_nonneg; [reflexivity|]. apply of_Z_nonneg. lia.
  - apply div_mono; [reflexivity| |].
    + apply of_Z_nonneg. lia.
    + apply of_Z_mono. lia.
Qed.

(** The doubles [1 - n / 2^k]. *)
Lemma representable_steps (k : Z) (n : nat) :
  0 <= k <= 52 -> Z.of_nat n <= 2 ^ k ->
  representable (1 - inject_Z (Z.of_nat n) * pow2 (- k)).
Proof.
  intros Hk Hn. exists (2 ^ k - Z.of_nat n), (- k).
  assert (P : 2 ^ k <= 2 ^ 52) by (apply Z.pow_le_mono_r; lia).
  split; [lia|]. split; [lia|].
  assert (E : (inject_Z (2 ^ k) * pow2 (- k) == 1)%Q).
  { rewrite <- pow2_Z by lia. rewrite <- pow2_add.
    replace (k + - k) with 0 by lia. reflexivity. }
  split.
  - unfold Zminus. rewrite inject_Z_plus, inject_Z_opp.
    rewrite Qmult_plus_distr_l, E. ring.
  - assert (0 <= inject_Z (Z.of_nat n) * pow2 (- k))%Q.
    { apply Qmult_le_0_compat; [|apply Qlt_le_weak, pow2_pos].
      change 0%Q with (inject_Z 0). rewrite <- Zle_Qle. lia. }
    assert (1 < pow2 1024)%Q by reflexivity. lra.
Qed.

(** A caller whose refilled count is within [n] timer gains of one
    token is admitted after [n] waits at most. *)
Lemma acquire_progress (wake : Z -> Z -> Z) (k : Z) (n : nat) :
  timely wake -> 0 <= k <= 52 ->
  forall (now : Z) (b : t) (c m : Q),
    regular b -> lastRefill b <= now ->
    maxTokens b = Fin m -> (1 <= m)%Q ->
    num_le (Fin (pow2 (- k))) (timer_gain b) ->
    tokens (refill now b) = Fin c ->
    (1 - inject_Z (Z.of_nat n) * pow2 (- k) <= c)%Q ->
    exists r, acquire wake (S n) now b = Some r.
Proof.
  intros Hwake Hk. induction n as [|n IH];
    intros now b c m Hwf Ht Hm Hm1 Hgain Hc Hlow.
  - exists (now, take (refill now b)). cbn [acquire].
    assert (Hb : below_one (refill now b) = false).
    { apply (@below_one_false_iff (refill now b) c Hc).
      change (inject_Z (Z.of_nat 0)) with 0%Q in Hlow. lra. }
    rewrite Hb. reflexivity.
  - cbn [acquire]. destruct (below_one (refill now b)) eqn:Hb;
      [|eexists; reflexivity].
    pose proof (refill_regular Hwf Ht) as Hwf1.
    set (b1 := refill now b) in *.
    change (timer_delay (waitMs b1)) with (delay b1).
    unfold b1 at 1. rewrite delay_refill. fold b1.
    set (now' := wake now (delay b)).
    assert (Ht' : lastRefill b1 <= now').
    { pose proof (Hwake now (delay b)). pose proof (delay_pos b).
      unfold now'. cbn [b1 lastRefill refill]. lia. }
    destruct Hwf as (c0 & m0 & r & Hc0 & Hm0 & Hr & Rc & Rm & Hle & Hmax & Hpos).
    rewrite Hm in Hm0. injection Hm0 as <-.
    pose proof (@refilled_after_wait wake now b r Hwake Hr Hpos) as Hg.
    fold now' b1 in Hg.
    pose proof (num_le_trans _ _ _ Hgain Hg) as Hg'.
    assert (Hc0' : (0 <= c)%Q).
    { destruct Hwf1 as (c1 & _ & _ & Hc1 & _ & _ & Rc1 & _).
      rewrite Hc in Hc1. injection Hc1 as <-. now apply representable_nonneg. }
    destruct (Z_le_gt_dec (Z.of_nat (S n)) (2 ^ k)) as [Small|Big].
    + (* the count is at least [1 - (n+1)/2^k] *)
      pose proof (@representable_steps k n Hk ltac:(lia)) as Rs.
      assert (Es : (1 - inject_Z (Z.of_nat (S n)) * pow2 (- k) + pow2 (- k) ==
                    1 - inject_Z (Z.of_nat n) * pow2 (- k))%Q).
      { rewrite Nat2Z.inj_succ. unfold Z.succ. rewrite inject_Z_plus. ring. }
      destruct (@refill_lower now' b1 c
                              (1 - inject_Z (Z.of_nat (S n)) * pow2 (- k))
                              (pow2 (- k)) Hwf1 Ht' Hc Hlow
                              (Qlt_le_weak _ _ (pow2_pos (- k))))
        as (c' & m' & Hc' & Hm' & Hlo').
      * apply representable_comp with (1 - inject_Z (Z.of_nat n) * pow2 (- k))%Q;
          [symmetry; exact Es | exact Rs].
      * exact Hg'.
      * cbn [b1 maxTokens refill] in Hm'. rewrite Hm in Hm'. injection Hm' as <-.
        apply (IH now' b1 c' m Hwf1 Ht'); try assumption.
        rewrite Es in Hlo'.
        assert (Hn0 : (0 <= inject_Z (Z.of_nat n) * pow2 (- k))%Q).
        { apply Qmult_le_0_compat; [|apply Qlt_le_weak, pow2_pos].
          change 0%Q with (inject_Z 0). rewrite <- Zle_Qle. lia. }
        destruct (Q.min_spec m (1 - inject_Z (Z.of_nat n) * pow2 (- k)))
          as [[H1 H2] | [H1 H2]]; rewrite H2 in Hlo'; lra.
    + (* no bound is needed any more *)
      pose proof (refill_regular Hwf1 Ht') as Hwf2.
      destruct Hwf2 as (c2 & m2 & r2 & Hc2 & Hm2 & Hr2 & Rc2 & _).
      apply (IH now' b1 c2 m Hwf1 Ht'); try assumption.
      assert (Hbig : (1 <= inject_Z (Z.of_nat n) * pow2 (- k))%Q).
      { assert (E : (inject_Z (2 ^ k) * pow2 (- k) == 1)%Q).
        { rewrite <- pow2_Z by lia. rewrite <- pow2_add.
          replace (k + - k) with 0 by lia. reflexivity. }
        rewrite <- E. apply Qmult_le_compat_r; [|apply Qlt_le_weak, pow2_pos].
        rewrite <- Zle_Qle. lia. }
      pose proof (representable_nonneg Rc2). lra.
Qed.

(** A caller is admitted after [2^k] waits at most when the capacity
    is at least one and a timer period gives at least [1/2^k] of a
    token. *)
Lemma acquire_total (wake : Z -> Z -> Z) (k : Z) (now : Z) (b : t) (m : Q) :
  timely wake -> 0 <= k <= 52 ->
  regular b -> lastRefill b <= now ->
  maxTokens b = Fin m -> (1 <= m)%Q ->
  num_le (Fin (pow2 (- k))) (timer_gain b) ->
  exists r, acquire wake (S (Z.to_nat (2 ^ k))) now b = Some r.
Proof.
  intros Hwake Hk Hwf Ht Hm Hm1 Hgain.
  pose proof (refill_regular Hwf Ht) as Hwf1.
  destruct Hwf1 as (c & m1 & r1 & Hc & _ & _ & Rc & _).
  apply (@acquire_progress wake k (Z.to_nat (2 ^ k)) Hwake Hk now b c m);
    try assumption.
  assert (P : 0 < 2 ^ k) by (apply Z.pow_pos_nonneg; lia).
  rewrite Z2Nat.id by lia.
  assert (E : (inject_Z (2 ^ k) * pow2 (- k) == 1)%Q).
  { rewrite <- pow2_Z by lia. rewrite <- pow2_add.
    replace (k + - k) with 0 by lia. reflexivity. }
  rewrite E. pose proof (representable_nonneg Rc). lra.
Qed.

Lemma acquire_within_turns (wake : Z -> Z -> Z) (k : Z) (now : Z) (b : t)
      (m : Q) (fuel : nat) :
  timely wake -> 0 <= k <= 52 ->
  regular b -> lastRefill b <= now ->
  maxTokens b = Fin m -> (1 <= m)%Q ->
  num_le (Fin (pow2 (- k))) (timer_gain b) ->
  (turns_needed k now b <= fuel)%nat ->
  exists r, acquire wake fuel now b = Some r.
Proof.
  intros Hwake Hk Hwf Ht Hm Hm1 Hgain Hfuel. unfold turns_needed in Hfuel.
  destruct (below_one (refill now b)) eqn:Hb.
  - destruct (@acquire_total wake k now b m Hwake Hk Hwf Ht Hm Hm1 Hgain)
      as [r Hr].
    exists r.
    replace fuel with (S (Z.to_nat (2 ^ k)) + (fuel - S (Z.to_nat (2 ^ k))))%nat
      by lia.
    now apply acquire_more_fuel.
  - destruct fuel as [|fuel]; [lia|].
    eexists. cbn [acquire]. rewrite Hb. reflexivity.
Qed.



Lemma create_regular (m r : Q) (now : Z) :
  representable m -> (m <= pow2 53)%Q -> (0 < r)%Q ->
  regular (create (Fin m) (Fin r) now).
Proof.
  intros Rm Hm Hr. exists m, m, r. cbn [create tokens maxTokens refillRate].
  repeat split; try assumption. apply Qle_refl.
Qed.

Lemma punctual_timely : timely punctual.
Proof. intros now d. unfold punctual. lia. Qed.

Lemma example_bucket_regular : regular example_bucket.
Proof.
  apply create_regular.
  - apply (@representable_Z 1). lia.
  - vm_compute. discriminate.
  - reflexivity.
Qed.




Lemma drained_bucket_regular : regular drained_bucket.
Proof.
  exists 0%Q, 100%Q, 10%Q. cbn.
  split; [reflexivity|]. split; [reflexivity|]. split; [reflexivity|].
  split; [apply (@representable_Z 0); lia|].
  split; [apply (@representable_Z 100); lia|].
  split; [discriminate|]. split; [vm_compute; discriminate | reflexivity].
Qed.





(** With a clock that reads integers a double holds, the seconds
    elapsed are a finite number. *)
Lemma elapsed_finite (now last : Z) :
  0 <= now - last < 2 ^ 53 ->
  exists e, elapsed now last = Fin e /\ (0 <= e)%Q.
Proof.
  intros Hd. unfold elapsed.
  destruct (@of_Z_exact (now - last) Hd) as (yd & Eyd & Eqd). rewrite Eyd.
  rewrite (@div_Fin yd 1000 ltac:(reflexivity)).
  assert (Hx0 : (0 <= yd / 1000)%Q).
  { apply Qle_shift_div_l; [reflexivity|]. rewrite Eqd.
    setoid_replace (0 * 1000)%Q with 0%Q by ring.
    change 0%Q with (inject_Z 0). rewrite <- Zle_Qle. lia. }
  pose proof (rnd_nonneg Hx0) as N.
  destruct (rnd (yd / 1000)) as [e| | |] eqn:Ee; try contradiction.
  - exists e. split; [reflexivity | exact N].
  - exfalso. apply (rnd_overflow Hx0) in Ee.
    assert (A : (yd / 1000 < pow2 53)%Q).
    { apply Qlt_shift_div_r; [reflexivity|]. rewrite Eqd.
      apply Qlt_le_trans with (pow2 53).
      - rewrite (@pow2_Z 53) by lia. rewrite <- Zlt_Qlt. lia.
      - pose proof (pow2_pos 53).
        setoid_replace (pow2 53) with (pow2 53 * 1)%Q at 1 by ring.
        apply Qmult_le_l; [assumption | discriminate]. }
    assert (B : (pow2 53 < pow2 1023)%Q) by (apply pow2_lt; lia).
    lra.
Qed.

(** *** How many tokens a refill can add *)

Lemma excess_ge_1 : (1 <= excess)%Q.
Proof. vm_compute. discriminate. Qed.

Lemma due_nonneg (b : t) (r : Q) (from to : Z) :
  refillRate b = Fin r -> (0 < r)%Q -> from <= to -> (0 <= due b from to)%Q.
Proof.
  intros Hr Hpos H. unfold due. rewrite Hr. cbn [amount].
  apply Qmult_le_0_compat; [|lra].
  apply Qle_shift_div_l; [reflexivity|].
  setoid_replace (0 * 1000)%Q with 0%Q by ring.
  change 0%Q with (inject_Z 0). rewrite <- Zle_Qle. lia.
Qed.

Lemma due_split (b : t) (t0 t1 t2 : Z) :
  (due b t0 t2 == due b t0 t1 + due b t1 t2)%Q.
Proof.
  unfold due. replace (t2 - t0) with ((t1 - t0) + (t2 - t1)) by lia.
  rewrite inject_Z_plus. field.
Qed.

Lemma check_slack_nonneg (b : t) : regular b -> (0 <= check_slack b)%Q.
Proof.
  intros (c & m & r & _ & Hm & _ & _ & Rm & _).
  unfold check_slack. rewrite Hm. cbn [amount].
  pose proof (representable_nonneg Rm) as H0.
  pose proof (pow2_pos (-53)) as P. pose proof (pow2_pos (-1074)) as P'.
  assert (M : (0 <= pow2 (-53) * m)%Q)
    by (apply Qmult_le_0_compat; [apply Qlt_le_weak; exact P | exact H0]).
  set (u := pow2 (-53)) in *. set (h := pow2 (-1074)) in *. lra.
Qed.

(** A refill adds at most the rate times the time, up to the
    rounding. *)
Lemma refill_upper (now : Z) (b : t) :
  regular b -> 0 <= now - lastRefill b < 2 ^ 53 ->
  (level (refill now b) <=
   level b + excess * due b (lastRefill b) now + check_slack b)%Q.
Proof.
  intros Hwf Hd.
  pose proof (check_slack_nonneg Hwf) as Hslack.
  destruct Hwf as (c & m & r & Hc & Hm & Hr & Rc & Rm & Hle & Hmax & Hpos).
  pose proof (representable_nonneg Rc) as Hc0.
  pose proof (representable_nonneg Rm) as Hm0.
  pose proof (@due_nonneg b r (lastRefill b) now Hr Hpos ltac:(lia)) as Hdue.
  pose proof excess_ge_1 as Hex.
  assert (Hexdue : (due b (lastRefill b) now <=
                    excess * due b (lastRefill b) now)%Q).
  { setoid_replace (due b (lastRefill b) now)
      with (1 * due b (lastRefill b) now)%Q at 1 by ring.
    apply Qmult_le_compat_r; assumption. }
  unfold level, check_slack in *. rewrite Hm in Hslack.
  rewrite refill_tokens, Hc, Hm.
  unfold refilled, elapsed. rewrite Hr.
  unfold due in *. rewrite Hr in *. cbn [amount] in *.
  set (d := now - lastRefill b) in *.
  destruct (@of_Z_exact d Hd) as (yd & Eyd & Eqd). rewrite Eyd.
  rewrite (@div_Fin yd 1000 ltac:(reflexivity)).
  assert (Ed : (yd / 1000 == inject_Z d / 1000)%Q) by (rewrite Eqd; reflexivity).
  rewrite (rnd_comp Ed).
  set (x := (inject_Z d / 1000)%Q) in *.
  assert (Hx0 : (0 <= x)%Q).
  { unfold x. apply Qle_shift_div_l; [reflexivity|].
    setoid_replace (0 * 1000)%Q with 0%Q by ring.
    change 0%Q with (inject_Z 0). rewrite <- Zle_Qle. lia. }
  pose proof (pow2_pos (-53)) as P.
  pose proof (pow2_pos (-1075)) as P'.
  assert (H2 : (pow2 (-1074) == 2 * pow2 (-1075))%Q) by (apply (pow2_pred (-1074))).
  (* the seconds *)
  destruct (rnd x) as [e| | |] eqn:Ee.
  2:{ exfalso. apply (rnd_overflow Hx0) in Ee.
      assert (A : (x < pow2 53)%Q).
      { unfold x. apply Qlt_shift_div_r; [reflexivity|].
        apply Qlt_le_trans with (pow2 53).
        - rewrite (@pow2_Z 53) by lia. rewrite <- Zlt_Qlt. lia.
        - pose proof (pow2_pos 53).
          setoid_replace (pow2 53) with (pow2 53 * 1)%Q at 1 by ring.
          apply Qmult_le_l; [assumption | discriminate]. }
      assert (B : (pow2 53 < pow2 1023)%Q) by (apply pow2_lt; lia).
      lra. }
  2:{ pose proof (rnd_nonneg Hx0) as N. rewrite Ee in N. contradiction. }
  2:{ exfalso. now apply (rnd_not_NaN x). }
  assert (He0 : (0 <= e)%Q).
  { pose proof (rnd_nonneg Hx0) as N. rewrite Ee in N. exact N. }
  assert (Hex1 : (e <= x * (1 + pow2 (-53)))%Q).
  { destruct (Z.eq_dec d 0) as [Z0|NZ].
    - assert (E0 : (x == 0)%Q) by (unfold x; rewrite Z0; reflexivity).
      rewrite (rnd_comp E0) in Ee. injection Ee as <-. rewrite E0. lra.
    - apply rnd_upper_normal; [|exact Ee].
      apply Qle_trans with (1 / 1000)%Q; [vm_compute; discriminate|].
      unfold x. apply Qmult_le_compat_r; [|discriminate].
      change 1%Q with (inject_Z 1). rewrite <- Zle_Qle. lia. }
  (* the product *)
  cbn [mul].
  assert (Hp0 : (0 <= e * r)%Q) by (apply Qmult_le_0_compat; lra).
  assert (Hpr : (e * r <= x * (1 + pow2 (-53)) * r)%Q)
    by (apply Qmult_le_compat_r; lra).
  destruct (rnd (e * r)) as [p| | |] eqn:Ep.
  - assert (Hpp : (0 <= p)%Q).
    { pose proof (rnd_nonneg Hp0) as N. rewrite Ep in N. exact N. }
    pose proof (rnd_upper Hp0 Ep) as Hup.
    assert (Hmul : (e * r * (1 + pow2 (-53)) <=
                    x * (1 + pow2 (-53)) * r * (1 + pow2 (-53)))%Q)
      by (apply Qmult_le_compat_r; lra).
    cbn [add].
    assert (Hgoal : forall z, Double.min (Fin m) (rnd (c + p)) = Fin z ->
                              (z <= c + excess * (x * r) +
                                    (pow2 (-53) * m + pow2 (-1074)))%Q).
    { intros z Ez. pose proof (capped_sum_upper Rm Hc0 Hpp Ez) as Hz.
      unfold excess.
      setoid_replace ((1 + pow2 (-53)) * (1 + pow2 (-53)) * (x * r))%Q
        with (x * (1 + pow2 (-53)) * r * (1 + pow2 (-53)))%Q by ring.
      set (u := pow2 (-53)) in *. set (h := pow2 (-1075)) in *.
      set (um := (u * m)%Q) in *.
      set (A := (x * (1 + u) * r * (1 + u))%Q) in *.
      set (B := (e * r * (1 + u))%Q) in *.
      set (h2 := pow2 (-1074)) in *. lra. }
    assert (Hs0 : num_le (Fin 0) (rnd (c + p)))
      by (apply rnd_nonneg; lra).
    destruct (min_cases m _ Hs0) as (z & Ez & _).
    rewrite Ez. cbn [amount]. apply Hgoal. exact Ez.
  - (* the product overflows: the sum is the cap *)
    cbn [add]. rewrite min_PInf. cbn [amount].
    apply (rnd_overflow Hp0) in Ep.
    assert (B : (pow2 53 < pow2 1023)%Q) by (apply pow2_lt; lia).
    assert (Hxr : (0 <= x * r)%Q) by (apply Qmult_le_0_compat; lra).
    assert (Hmul : (x * (1 + pow2 (-53)) * r <= excess * (x * r))%Q).
    { unfold excess.
      setoid_replace (x * (1 + pow2 (-53)) * r)%Q
        with (1 * ((1 + pow2 (-53)) * (x * r)))%Q by ring.
      setoid_replace ((1 + pow2 (-53)) * (1 + pow2 (-53)) * (x * r))%Q
        with ((1 + pow2 (-53)) * ((1 + pow2 (-53)) * (x * r)))%Q by ring.
      apply Qmult_le_compat_r.
      - set (u := pow2 (-53)) in *. lra.
      - apply Qmult_le_0_compat; [|exact Hxr].
        set (u := pow2 (-53)) in *. lra. }
    set (u := pow2 (-53)) in *. set (h2 := pow2 (-1074)) in *.
    set (um := (u * m)%Q) in *.
    set (A := (excess * (x * r))%Q) in *.
    set (B1 := (x * (1 + u) * r)%Q) in *.
    set (B2 := (e * r)%Q) in *.
    set (p53 := pow2 53) in *. set (p1023 := pow2 1023) in *. lra.
  - pose proof (rnd_nonneg Hp0) as N. rewrite Ep in N. contradiction.
  - exfalso. now apply (rnd_not_NaN (e * r)).
Qed.

End RateLimiterFacts.

(** ** Buffers and UTF-8 *)

Module BufferFacts.
Import Buffer.
Import BufferSpec.

(** Decide a comparison on integers by arithmetic, dividing where
    needed. *)
Ltac decide_cmp :=
  match goal with
  | |- context [?a <=? ?b] =>
      first [ replace (a <=? b) with true
                by (symmetry; apply Z.leb_le; Z.div_mod_to_equations; lia)
            | replace (a <=? b) with false
                by (symmetry; apply Z.leb_gt; Z.div_mod_to_equations; lia) ]
  | |- context [?a <? ?b] =>
      first [ replace (a <? b) with true
                by (symmetry; apply Z.ltb_lt; Z.div_mod_to_equations; lia)
            | replace (a <? b) with false
                by (symmetry; apply Z.ltb_ge; Z.div_mod_to_equations; lia) ]
  | |- context [?a =? ?b] =>
      first [ replace (a =? b) with true
                by (symmetry; apply Z.eqb_eq; Z.div_mod_to_equations; lia)
            | replace (a =? b) with false
                by (symmetry; apply Z.eqb_neq; Z.div_mod_to_equations; lia) ]
  end.

Ltac decode_run :=
  repeat (cbn [decode_cps app dec_needed dec_cp dec_lower dec_upper dec_init
               opt_cons andb fst snd];
          unfold dec_lead;
          repeat decide_cmp;
          cbn [andb]).

Lemma encode_cp_bytes (cp : Z) :
  0 <= cp < 1114112 -> Forall is_byte (encode_cp cp).
Proof.
  intros H. unfold encode_cp, is_byte.
  destruct (Z.ltb_spec cp 128); [repeat constructor; lia|].
  destruct (Z.ltb_spec cp 2048);
    [repeat constructor; Z.div_mod_to_equations; lia|].
  destruct (Z.ltb_spec cp 65536);
    repeat constructor; Z.div_mod_to_equations; lia.
Qed.

(** The decoder reads back the code point that was encoded. *)
Lemma decode_encode_cp (cp : Z) (rest : list Z) :
  scalar cp ->
  decode_cps dec_init (encode_cp cp ++ rest) = cp :: decode_cps dec_init rest.
Proof.
  intros [Hr Hs]. unfold encode_cp.
  destruct (Z.ltb_spec cp 128).
  { decode_run. reflexivity. }
  destruct (Z.ltb_spec cp 2048).
  { decode_run. f_equal. Z.div_mod_to_equations; lia. }
  destruct (Z.ltb_spec cp 65536).
  - destruct (Z.eq_dec (cp / 4096) 0) as [E0 | E0];
      [|destruct (Z.eq_dec (cp / 4096) 13) as [E13 | E13]];
      decode_run; f_equal; Z.div_mod_to_equations; lia.
  - destruct (Z.eq_dec (cp / 262144) 0) as [E0 | E0];
      [|destruct (Z.eq_dec (cp / 262144) 4) as [E4 | E4]];
      decode_run; f_equal; Z.div_mod_to_equations; lia.
Qed.

Lemma decode_encode (cps rest : list Z) :
  Forall scalar cps ->
  decode_cps dec_init (flat_map encode_cp cps ++ rest) =
  cps ++ decode_cps dec_init rest.
Proof.
  induction 1 as [|cp cps Hcp _ IH]; [reflexivity|].
  cbn [flat_map]. rewrite <- app_assoc, decode_encode_cp by exact Hcp.
  now rewrite IH.
Qed.

Lemma is_high_iff (c : Z) : is_high c = true <-> 55296 <= c <= 56319.
Proof. unfold is_high. rewrite andb_true_iff, !Z.leb_le. tauto. Qed.

Lemma is_low_iff (c : Z) : is_low c = true <-> 56320 <= c <= 57343.
Proof. unfold is_low. rewrite andb_true_iff, !Z.leb_le. tauto. Qed.

Lemma utf16_of_pair (c d : Z) :
  55296 <= c <= 56319 -> 56320 <= d <= 57343 ->
  utf16_of_cp (65536 + (c - 55296) * 1024 + (d - 56320)) = [c; d].
Proof.
  intros Hc Hd. unfold utf16_of_cp.
  destruct (Z.ltb_spec (65536 + (c - 55296) * 1024 + (d - 56320)) 65536); [lia|].
  f_equal; [|f_equal]; Z.div_mod_to_equations; lia.
Qed.

(** On a well-formed string the code points are scalar values, and
    their UTF-16 form is the string. *)
Lemma code_points_well_formed (n : nat) :
  forall s : jsstring,
    (List.length s <= n)%nat -> well_formed s = true ->
    Forall scalar (code_points s) /\
    flat_map utf16_of_cp (code_points s) = s.
Proof.
  induction n as [|n IH]; intros s Hlen Hwf.
  - destruct s; [now split | simpl in Hlen; lia].
  - destruct s as [|c s]; [now split|].
    cbn [well_formed code_points] in *.
    apply andb_true_iff in Hwf as [Hrange Hwf].
    apply andb_true_iff in Hrange as [Hc0 Hc1].
    apply Z.leb_le in Hc0, Hc1.
    destruct (is_high c) eqn:Hh.
    + apply is_high_iff in Hh.
      destruct s as [|d s]; [discriminate|].
      apply andb_true_iff in Hwf as [Hl Hwf]. rewrite Hl.
      apply is_low_iff in Hl.
      destruct (IH s) as [Hsc Hrt]; [simpl in Hlen; lia | exact Hwf |].
      split.
      * constructor; [unfold scalar; lia | exact Hsc].
      * cbn [flat_map]. rewrite utf16_of_pair by assumption. now rewrite Hrt.
    + apply andb_true_iff in Hwf as [Hl Hwf]. apply negb_true_iff in Hl.
      rewrite Hl.
      assert (Hnh : ~ 55296 <= c <= 56319).
      { intros H. apply is_high_iff in H. congruence. }
      assert (Hnl : ~ 56320 <= c <= 57343).
      { intros H. apply is_low_iff in H. congruence. }
      destruct (IH s) as [Hsc Hrt]; [simpl in Hlen; lia | exact Hwf |].
      split.
      * constructor; [unfold scalar; lia | exact Hsc].
      * cbn [flat_map]. unfold utf16_of_cp at 1.
        destruct (Z.ltb_spec c 65536); [|lia]. now rewrite Hrt.
Qed.

(** Encoding then decoding gives back a well-formed string. *)
Lemma utf8_round_trip (s : jsstring) :
  well_formed s = true -> to_utf8_string (from_utf8 s) = s.
Proof.
  intros Hwf.
  destruct (@code_points_well_formed (List.length s) s (le_n _) Hwf) as [Hsc Hrt].
  unfold to_utf8_string, from_utf8.
  rewrite <- (app_nil_r (flat_map encode_cp (code_points s))).
  rewrite decode_encode by exact Hsc.
  cbn [decode_cps dec_needed dec_init]. now rewrite app_nil_r.
Qed.

Lemma well_formed_units (s : jsstring) : well_formed s = true -> units_ok s.
Proof.
  assert (H : forall n (s : jsstring),
             (List.length s <= n)%nat -> well_formed s = true -> units_ok s).
  { induction n as [|n IH]; intros s0 Hlen Hwf.
    - destruct s0; [constructor | simpl in Hlen; lia].
    - destruct s0 as [|c s0]; [constructor|].
      cbn [well_formed] in Hwf.
      apply andb_true_iff in Hwf as [Hrange Hwf].
      apply andb_true_iff in Hrange as [Hc0 Hc1].
      apply Z.leb_le in Hc0, Hc1.
      constructor; [lia|].
      destruct (is_high c).
      + destruct s0 as [|d s0]; [discriminate|].
        apply andb_true_iff in Hwf as [Hl Hwf]. apply is_low_iff in Hl.
        constructor; [lia|]. apply IH; [simpl in Hlen; lia | exact Hwf].
      + apply andb_true_iff in Hwf as [_ Hwf].
        apply IH; [simpl in Hlen; lia | exact Hwf]. }
  apply (H (List.length s)). apply le_n.
Qed.

Lemma code_points_range (s : jsstring) :
  units_ok s -> Forall (fun cp => 0 <= cp < 1114112) (code_points s).
Proof.
  assert (H : forall n (s : jsstring),
             (List.length s <= n)%nat -> units_ok s ->
             Forall (fun cp => 0 <= cp < 1114112) (code_points s)).
  { induction n as [|n IH]; intros s0 Hlen Hu.
    - destruct s0; [constructor | simpl in Hlen; lia].
    - destruct s0 as [|c s0]; [constructor|].
      inversion Hu as [|? ? Hc Hu']; subst.
      cbn [code_points].
      destruct (is_high c) eqn:Hh.
      + apply is_high_iff in Hh.
        destruct s0 as [|d s0]; [repeat constructor; lia|].
        destruct (is_low d) eqn:Hl.
        * apply is_low_iff in Hl. inversion Hu' as [|? ? Hd Hu'']; subst.
          constructor; [lia|]. apply IH; [simpl in *; lia | exact Hu''].
        * constructor; [lia|]. apply IH; [simpl in *; lia | exact Hu'].
      + destruct (is_low c);
          (constructor; [lia|]; apply IH; [simpl in *; lia | exact Hu']). }
  apply (H (List.length s)). apply le_n.
Qed.

Lemma from_utf8_bytes (s : jsstring) : units_ok s -> Forall is_byte (from_utf8 s).
Proof.
  intros Hu. unfold from_utf8.
  induction (code_points_range Hu) as [|cp cps Hcp _ IH]; [constructor|].
  cbn [flat_map]. apply Forall_app. split; [now apply encode_cp_bytes | exact IH].
Qed.

(** *** Writing into a buffer *)

Lemma set_length (buf : t) (i : nat) (v : Z) :
  List.length (set buf i v) = List.length buf.
Proof.
  revert i; induction buf as [|b buf IH]; intros [|i]; simpl; auto.
Qed.

Lemma get_set_eq (buf : t) (i : nat) (v : Z) :
  (i < List.length buf)%nat -> get (set buf i v) i = v mod 256.
Proof.
  revert i; induction buf as [|b buf IH]; intros [|i] H; simpl in *; try lia.
  - reflexivity.
  - apply IH. lia.
Qed.

Lemma get_set_neq (buf : t) (i j : nat) (v : Z) :
  i <> j -> get (set buf i v) j = get buf j.
Proof.
  revert i j; induction buf as [|b buf IH]; intros [|i] [|j] H; simpl;
    try reflexivity; try lia.
  apply IH. lia.
Qed.

Lemma lxor_byte (a b : Z) : is_byte a -> is_byte b -> is_byte (Z.lxor a b).
Proof.
  unfold is_byte. intros Ha Hb.
  assert (H0 : 0 <= Z.lxor a b) by (apply Z.lxor_nonneg; lia).
  split; [exact H0|].
  destruct (Z.eq_dec (Z.lxor a b) 0) as [E | E]; [lia|].
  apply (Z.log2_lt_pow2 _ 8); [lia|].
  eapply Z.le_lt_trans; [apply Z.log2_lxor; lia|].
  apply Z.max_lub_lt.
  - destruct (Z.eq_dec a 0) as [-> | Ha0]; [reflexivity|].
    apply Z.log2_lt_pow2; lia.
  - destruct (Z.eq_dec b 0) as [-> | Hb0]; [reflexivity|].
    apply Z.log2_lt_pow2; lia.
Qed.

Lemma lxor_cancel (a b : Z) : Z.lxor (Z.lxor a b) b = a.
Proof. now rewrite Z.lxor_assoc, Z.lxor_nilpotent, Z.lxor_0_r. Qed.

Lemma lxor_fixed (a b : Z) : Z.lxor a b = a -> b = 0.
Proof.
  intros H. rewrite <- (Z.lxor_0_l b), <- (Z.lxor_nilpotent a).
  now rewrite Z.lxor_assoc, H, Z.lxor_nilpotent.
Qed.

End BufferFacts.

(** ** The credential store *)

Module VaultFacts.
Import Buffer BufferFacts ApiClient.
Import BufferSpec VaultSpec.

Lemma xor_fold (src key : Buffer.t) (m : nat) :
  forall (a : nat) (dst : Buffer.t),
    (a + m <= List.length dst)%nat ->
    List.length (fold_left (fun d i => set d i (xor_at src key i)) (seq a m) dst)
    = List.length dst /\
    forall i,
      get (fold_left (fun d i => set d i (xor_at src key i)) (seq a m) dst) i =
      if (a <=? i)%nat && (i <? a + m)%nat
      then xor_at src key i mod 256 else get dst i.
Proof.
  induction m as [|m IH]; intros a dst Hlen; cbn [seq fold_left].
  - split; [reflexivity|]. intros i.
    destruct (Nat.leb_spec a i), (Nat.ltb_spec i (a + 0)); cbn [andb];
      try reflexivity; lia.
  - destruct (IH (S a) (set dst a (xor_at src key a))) as [Hl Hget].
    { rewrite set_length. lia. }
    split; [now rewrite Hl, set_length|].
    intros i. rewrite Hget.
    destruct (Nat.leb_spec (S a) i), (Nat.ltb_spec i (S a + m)),
             (Nat.leb_spec a i), (Nat.ltb_spec i (a + S m)); cbn [andb];
      first [ reflexivity
            | lia
            | assert (i = a) by lia; subst i; apply get_set_eq; lia
            | apply get_set_neq; lia ].
Qed.

Lemma xor_loop_spec (n : nat) (src key dst : Buffer.t) :
  List.length dst = n ->
  List.length (xor_loop n src key dst) = n /\
  forall i, (i < n)%nat -> get (xor_loop n src key dst) i = xor_at src key i mod 256.
Proof.
  intros Hlen. destruct (@xor_fold src key n 0%nat dst) as [Hl Hget]; [lia|].
  change (fold_left (fun d i => set d i (xor_at src key i)) (seq 0 n) dst)
    with (xor_loop n src key dst) in Hl, Hget.
  split; [congruence|].
  intros i Hi. rewrite (Hget i).
  destruct (Nat.leb_spec 0 i), (Nat.ltb_spec i (0 + n)); cbn [andb];
    try reflexivity; lia.
Qed.

Lemma alloc_length (n : nat) : List.length (alloc n) = n.
Proof. apply repeat_length. Qed.

Lemma get_byte (buf : Buffer.t) (i : nat) : Forall is_byte buf -> is_byte (get buf i).
Proof.
  intros H. unfold get. revert i.
  induction H as [|b buf Hb _ IH]; intros [|i]; simpl; try (unfold is_byte; lia);
    [exact Hb | apply IH].
Qed.

Lemma buffer_ext (a b : Buffer.t) :
  List.length a = List.length b ->
  (forall i, (i < List.length a)%nat -> get a i = get b i) -> a = b.
Proof.
  intros Hl Hn. apply (nth_ext a b 0 0 Hl). exact Hn.
Qed.

(** The bytes stored by the constructor and the bytes rebuilt by
    [getToken]. *)
Lemma obfuscated_bytes (randomBytes : nat -> Buffer.t) (secret : jsstring) (now : Z) :
  mask_ok randomBytes -> units_ok secret ->
  let plain := from_utf8 secret in
  let c := fst (constructor randomBytes {| apiToken := secret |} now) in
  List.length (tokenXorKey c) = List.length plain /\
  List.length (obfuscatedToken c) = List.length plain /\
  Forall is_byte (tokenXorKey c) /\
  (forall i, (i < List.length plain)%nat ->
             get (obfuscatedToken c) i = Z.lxor (get plain i) (get (tokenXorKey c) i)) /\
  (forall i, (i < List.length plain)%nat ->
             get plain i = Z.lxor (get (obfuscatedToken c) i) (get (tokenXorKey c) i)).
Proof.
  intros Hmask Hu plain c.
  destruct (Hmask (List.length plain)) as [Hkl Hkb].
  destruct (@xor_loop_spec (List.length plain) plain
              (randomBytes (List.length plain)) (alloc (List.length plain))
              (alloc_length _)) as [Hol Hog].
  pose proof (from_utf8_bytes Hu) as Hpb. fold plain in Hpb.
  assert (Hobf : forall i, (i < List.length plain)%nat ->
                           get (obfuscatedToken c) i =
                           Z.lxor (get plain i) (get (tokenXorKey c) i)).
  { intros i Hi. unfold c; cbn [constructor fst obfuscatedToken tokenXorKey apiToken].
    fold plain. rewrite Hog by exact Hi. unfold xor_at.
    apply Z.mod_small. apply lxor_byte; now apply get_byte. }
  repeat split.
  - exact Hkl.
  - exact Hol.
  - exact Hkb.
  - exact Hobf.
  - intros i Hi. rewrite Hobf by exact Hi. now rewrite lxor_cancel.
Qed.

Lemma getToken_bytes (c : CloudflareClient) :
  List.length (tokenXorKey c) = List.length (obfuscatedToken c) ->
  forall plain : Buffer.t,
    List.length plain = List.length (obfuscatedToken c) ->
    Forall is_byte plain ->
    (forall i, (i < List.length plain)%nat ->
               get plain i = Z.lxor (get (obfuscatedToken c) i) (get (tokenXorKey c) i)) ->
    getToken_run c = (to_utf8_string plain, alloc (List.length plain)).
Proof.
  intros Hk plain Hl Hb Hx. unfold getToken_run.
  set (n := List.length (obfuscatedToken c)) in *.
  destruct (@xor_loop_spec n (obfuscatedToken c) (tokenXorKey c) (alloc n)
              (alloc_length _)) as [Htl Htg].
  assert (E : xor_loop n (obfuscatedToken c) (tokenXorKey c) (alloc n) = plain).
  { apply buffer_ext; [now rewrite Htl, Hl|].
    intros i Hi. rewrite Htl in Hi. rewrite Htg by exact Hi. unfold xor_at.
    rewrite <- Hx by (rewrite Hl; exact Hi).
    apply Z.mod_small. now apply get_byte. }
  rewrite E. unfold fill0, alloc. reflexivity.
Qed.

Lemma fixed_mask_ok : mask_ok fixed_mask.
Proof.
  intros n. unfold fixed_mask. split; [apply repeat_length|].
  apply Forall_forall. intros x Hx. apply repeat_spec in Hx. subst.
  unfold is_byte. lia.
Qed.

(** C3, as amended: for every well-formed credential string (no
    surrogate code unit without its partner) the token rebuilt by
    [getToken] is the string given to the constructor, and the
    temporary buffer is left zeroed; for every string, each stored
    byte is the plaintext byte XOR the mask byte, and when some mask
    byte is not zero the stored bytes differ from the plaintext bytes
    at that position. *)
Theorem vault_round_trip (randomBytes : nat -> Buffer.t) (secret : jsstring) (now : Z) :
  mask_ok randomBytes ->
  units_ok secret ->
  let plain := from_utf8 secret in
  let c := fst (constructor randomBytes {| apiToken := secret |} now) in
  (well_formed secret = true ->
   getToken c = secret /\ snd (getToken_run c) = alloc (List.length plain)) /\
  (forall i, (i < List.length plain)%nat ->
             get plain i = Z.lxor (get (obfuscatedToken c) i) (get (tokenXorKey c) i)) /\
  (forall i, get (tokenXorKey c) i <> 0 ->
             (i < List.length plain)%nat /\
             get (obfuscatedToken c) i <> get plain i).
Proof.
  intros Hmask Hu plain c.
  destruct (obfuscated_bytes now Hmask Hu) as (Hkl & Hol & Hkb & Hobf & Hinv).
  fold plain in Hkl, Hol, Hobf, Hinv. fold c in Hkl, Hol, Hkb, Hobf, Hinv.
  split; [|split].
  - intros Hwf.
    assert (Hrun : getToken_run c = (to_utf8_string plain, alloc (List.length plain))).
    { apply getToken_bytes; [congruence | congruence | now apply from_utf8_bytes | exact Hinv]. }
    unfold getToken. rewrite Hrun. cbn [fst snd]. split; [|reflexivity].
    now apply utf8_round_trip.
  - exact Hinv.
  - intros i Hi.
    assert (Hlt : (i < List.length plain)%nat).
    { destruct (Nat.lt_ge_cases i (List.length plain)) as [H | H]; [exact H|].
      elim Hi. unfold get. apply nth_overflow. now rewrite Hkl. }
    split; [exact Hlt|].
    rewrite Hobf by exact Hlt. intros E. apply lxor_fixed in E. contradiction.
Qed.

(** An ASCII token under the fixed mask comes back, and its first
    stored byte is not its first plaintext byte. *)
Lemma vault_round_trip_witness :
  getToken (fst (constructor fixed_mask {| apiToken := js "cf-token-1" |} 0)) =
  js "cf-token-1" /\
  get (obfuscatedToken (fst (constructor fixed_mask {| apiToken := js "cf-token-1" |} 0))) 0
  <> get (from_utf8 (js "cf-token-1")) 0.
Proof.
  assert (Hu : units_ok (js "cf-token-1")).
  { apply well_formed_units. vm_compute. reflexivity. }
  destruct (@vault_round_trip fixed_mask (js "cf-token-1") 0 fixed_mask_ok Hu)
    as (Hrt & _ & Hdiff).
  split.
  - apply Hrt. vm_compute. reflexivity.
  - apply (Hdiff 0%nat). vm_compute. discriminate.
Defined.

(** A string made of one high surrogate: it is encoded as U+FFFD, so
    the token that comes back is another string. *)
Lemma vault_loses_lone_surrogate :
  mask_ok fixed_mask /\ units_ok [55296] /\
  getToken (fst (constructor fixed_mask {| apiToken := [55296] |} 0)) = [65533] /\
  getToken (fst (constructor fixed_mask {| apiToken := [55296] |} 0)) <> [55296].
Proof.
  split; [exact fixed_mask_ok|]. split; [repeat constructor; lia|].
  split; [vm_compute; reflexivity | vm_compute; discriminate].
Qed.

(** C8: the constructor leaves the caller's configuration object as
    it was: the plaintext is still there. *)
Theorem constructor_keeps_plaintext :
  (forall (randomBytes : nat -> Buffer.t) (config : CloudflareConfig) (now : Z),
      snd (constructor randomBytes config now) = config) /\
  apiToken (snd (constructor fixed_mask {| apiToken := js "secret-token" |} 0)) =
  js "secret-token" /\
  apiToken (snd (constructor fixed_mask {| apiToken := js "secret-token" |} 0)) <> [].
Proof.
  split; [reflexivity|]. split; [reflexivity | discriminate].
Qed.

End VaultFacts.

(** ** The gateway *)

Module GatewayFacts.
Import ApiClient RateLimiterFacts JsStringFacts.
Import GatewaySpec.

Lemma safe_message_fixed (c : Z) : In (safe_message c) SAFE_STRINGS.
Proof.
  unfold safe_message, SAFE_ERROR_CODES, SAFE_STRINGS.
  destruct c as [|p|p]; try (simpl; tauto).
  repeat (destruct p as [p|p|]; try (simpl; tauto)).
Qed.

Lemma request_try_failure (data : CloudflareResponse) :
  success data = false ->
  request_try (Json data) =
  Throw (ErrorObj (safe_error_message (map code (errors data)))).
Proof.
  intros H. unfold request_try, safe_error_message. rewrite H. cbn [negb].
  now rewrite map_map.
Qed.

(** *** Deduplication *)

Lemma unique_fold (l seen : list jsstring) :
  NoDup seen ->
  NoDup (fold_left unique_step l seen) /\
  (forall x, In x (fold_left unique_step l seen) <-> In x seen \/ In x l).
Proof.
  revert seen; induction l as [|y l IH]; intros seen Hnd; cbn [fold_left].
  - split; [exact Hnd | intros x; simpl; tauto].
  - unfold unique_step at 2 4.
    destruct (existsb (JsString.eqb y) seen) eqn:E.
    + destruct (IH seen Hnd) as [H1 H2]. split; [exact H1|].
      intros x. rewrite H2. apply existsb_eqb_In in E. simpl.
      intuition (subst; auto).
    + assert (Hy : ~ In y seen).
      { intros H. apply existsb_eqb_In in H. congruence. }
      destruct (IH (seen ++ [y])) as [H1 H2].
      { apply NoDup_app; [exact Hnd | repeat constructor; inversion 1 |].
        intros x Hx [<- | []]. contradiction. }
      split; [exact H1|].
      intros x. rewrite H2, in_app_iff. simpl. tauto.
Qed.

Lemma unique_spec (l : list jsstring) :
  NoDup (unique l) /\ forall x, In x (unique l) <-> In x l.
Proof.
  destruct (@unique_fold l [] (NoDup_nil _)) as [H1 H2].
  split; [exact H1|]. intros x. unfold unique. fold unique_step.
  rewrite H2. simpl. tauto.
Qed.

(** *** The two routines, once the caller is admitted *)

Lemma served_admitted (wake : Z -> Z -> Z) (fuel : nat)
      (c : CloudflareClient) (rt : Runtime) :
  served wake fuel c rt ->
  exists startTime limiter,
    RateLimiter.acquire wake fuel (clock rt) (rateLimiter c) =
    Some (startTime, limiter) /\ clock rt <= startTime.
Proof.
  intros (Hw & Hwf & Ht & m & k & Hm & Hm1 & Hk & Hgain & Hf).
  destruct (@acquire_within_turns wake k (clock rt) (rateLimiter c) m fuel
                                  Hw Hk Hwf Ht Hm Hm1 Hgain Hf)
    as [[t0 l] H].
  exists t0, l. split; [exact H|].
  now apply (@acquire_leaves wake fuel (clock rt) (rateLimiter c) t0 l Hw Hwf Ht H).
Qed.

Lemma spread_message_idem (m : option jsstring) :
  AuditLogger.spread_message (AuditLogger.spread_message m) =
  AuditLogger.spread_message m.
Proof. destruct m as [[|c m]|]; reflexivity. Qed.

Lemma finally_log_line {A} (toolName : jsstring) (params : obj)
      (startTime endTime : Z) (r : outcome A) (err : list AuditLogger.AuditLine) :
  finally_log toolName params startTime endTime r err =
  err ++ [audit_line toolName params startTime endTime r].
Proof.
  unfold finally_log, AuditLogger.logAuditEvent, audit_line.
  cbn [AuditLogger.timestamp AuditLogger.tool AuditLogger.parameters
       AuditLogger.success AuditLogger.durationMs AuditLogger.errorMessage].
  now rewrite spread_message_idem.
Qed.

Lemma request_admitted (wake : Z -> Z -> Z) (fuel : nat)
      (upstream : HttpRequest -> NetReply CloudflareResponse)
      (method endpoint : jsstring) (params : option obj)
      (c : CloudflareClient) (rt : Runtime) (startTime : Z) (limiter : RateLimiter.t) :
  RateLimiter.acquire wake fuel (clock rt) (rateLimiter c) = Some (startTime, limiter) ->
  let c' := with_limiter c limiter in
  let reply := upstream (request_sent method endpoint params c') in
  let r := request_try (answer reply) in
  request wake fuel upstream method endpoint params c rt =
  Some (r, c',
        {| clock := startTime + latency reply;
           stderr := stderr rt ++
                     [audit_line (method ++ js " " ++ endpoint) (params_or_empty params)
                                 startTime (startTime + latency reply) r] |}).
Proof.
  intros Hacq. cbv zeta. unfold request. rewrite Hacq.
  rewrite finally_log_line. reflexivity.
Qed.

Lemma graphql_admitted (wake : Z -> Z -> Z) (JSON_parse : jsstring -> option value)
      (fuel : nat) (B : Type) (upstream : HttpRequest -> NetReply B)
      (query : jsstring) (variables : option jsstring)
      (c : CloudflareClient) (rt : Runtime) (startTime : Z) (limiter : RateLimiter.t)
      (vars : option obj) :
  GraphqlValidator.validateGraphQLQuery (VStr query) = Return tt ->
  RateLimiter.acquire wake fuel (clock rt) (rateLimiter c) = Some (startTime, limiter) ->
  graphql_variables JSON_parse variables = Return vars ->
  let c' := with_limiter c limiter in
  let reply := upstream (graphql_sent query vars c') in
  let r := graphql_try (answer reply) in
  @graphqlAnalytics wake JSON_parse fuel B upstream query variables c rt =
  Some (r, c',
        {| clock := startTime + latency reply;
           stderr := stderr rt ++
                     [audit_line (js "POST /graphql") (graphql_params query variables)
                                 startTime (startTime + latency reply) r] |}).
Proof.
  intros Hq Hacq Hv. cbv zeta. unfold graphqlAnalytics. rewrite Hq, Hacq, Hv.
  rewrite finally_log_line. reflexivity.
Qed.

(** A query or variables that the guard turns down: the error goes
    to the caller and nothing is written. *)
Lemma graphql_rejected (wake : Z -> Z -> Z) (JSON_parse : jsstring -> option value)
      (fuel : nat) (B : Type) (upstream : HttpRequest -> NetReply B)
      (query : jsstring) (variables : option jsstring)
      (c : CloudflareClient) (rt : Runtime) :
  (forall e,
      GraphqlValidator.validateGraphQLQuery (VStr query) = Throw e ->
      @graphqlAnalytics wake JSON_parse fuel B upstream query variables c rt =
      Some (Throw e, c, rt)) /\
  (forall e startTime limiter,
      GraphqlValidator.validateGraphQLQuery (VStr query) = Return tt ->
      RateLimiter.acquire wake fuel (clock rt) (rateLimiter c) = Some (startTime, limiter) ->
      graphql_variables JSON_parse variables = Throw e ->
      @graphqlAnalytics wake JSON_parse fuel B upstream query variables c rt =
      Some (Throw e, with_limiter c limiter,
            {| clock := startTime; stderr := stderr rt |})).
Proof.
  split.
  - intros e Hq. unfold graphqlAnalytics. now rewrite Hq.
  - intros e t0 l Hq Hacq Hv. unfold graphqlAnalytics. now rewrite Hq, Hacq, Hv.
Qed.

(** *** Examples: a client, a runtime and a stubbed upstream *)

Lemma example_served : served RateLimiter.punctual 1 example_client example_runtime.
Proof.
  split; [exact punctual_timely|].
  split.
  { exists 100%Q, 100%Q, 10%Q. cbn.
    split; [reflexivity|]. split; [reflexivity|]. split; [reflexivity|].
    split; [apply (@DoubleFacts.representable_Z 100); lia|].
    split; [apply (@DoubleFacts.representable_Z 100); lia|].
    split; [discriminate|]. split; [vm_compute; discriminate | reflexivity]. }
  split; [cbn; lia|].
  exists 100%Q, 0. split; [reflexivity|]. split; [discriminate|].
  split; [lia|]. split; [vm_compute; discriminate|].
  vm_compute. constructor.
Qed.

(** C1, as amended: when the upstream answers with an envelope whose
    [success] is false, [request] raises an error whose message is
    the fixed prefix followed by the safe messages of the error
    codes, each taken from the fixed table or the generic fallback,
    without repetition, joined by a semicolon and a space.  The
    message is computed from the codes alone: two envelopes with the
    same codes raise the same error whatever their message texts, and
    one error of code 7003 gives the prefix followed by the string of
    7003 for every upstream text.  The audit record carries the same
    message. *)
Theorem upstream_failure_is_safe
        (wake : Z -> Z -> Z) (fuel : nat)
        (upstream : HttpRequest -> NetReply CloudflareResponse)
        (method endpoint : jsstring) (params : option obj)
        (c : CloudflareClient) (rt : Runtime) (data : CloudflareResponse) :
  served wake fuel c rt ->
  (forall req, answer (upstream req) = Json data) ->
  success data = false ->
  (exists c' rt' line,
      request wake fuel upstream method endpoint params c rt =
      Some (Throw (ErrorObj (safe_error_message (map code (errors data)))), c', rt') /\
      stderr rt' = stderr rt ++ [line] /\
      AuditLogger.line_success line = false /\
      AuditLogger.line_errorMessage line =
      Some (safe_error_message (map code (errors data)))) /\
  Forall (fun m => In m SAFE_STRINGS)
         (unique (map safe_message (map code (errors data)))) /\
  NoDup (unique (map safe_message (map code (errors data)))) /\
  (forall m, In m (unique (map safe_message (map code (errors data)))) <->
             exists k, In k (map code (errors data)) /\ m = safe_message k) /\
  (forall data',
      success data' = false ->
      map code (errors data') = map code (errors data) ->
      request_try (Json data') = request_try (Json data)) /\
  (forall detail,
      errors data = [ {| code := 7003; message := detail |} ] ->
      safe_error_message (map code (errors data)) =
      js "Cloudflare API error: Forbidden - insufficient permissions").
Proof.
  intros Hserved Hup Hfail.
  destruct (unique_spec (map safe_message (map code (errors data)))) as [Hnd Hin].
  split; [|split; [|split; [|split; [|split]]]].
  - destruct (served_admitted Hserved) as (t0 & l & Hacq & _).
    pose proof (@request_admitted wake fuel upstream method endpoint params c rt
                  t0 l Hacq) as Hreq.
    cbv zeta in Hreq. rewrite Hup in Hreq.
    rewrite (request_try_failure data Hfail) in Hreq.
    eexists; eexists; eexists. split; [exact Hreq|].
    cbn [stderr]. split; [reflexivity|]. split; reflexivity.
  - apply Forall_forall. intros m Hm. apply Hin in Hm.
    apply in_map_iff in Hm as (k & <- & _). apply safe_message_fixed.
  - exact Hnd.
  - intros m. rewrite Hin, in_map_iff. split.
    + intros (k & <- & Hk). now exists k.
    + intros (k & Hk & ->). now exists k.
  - intros data' Hfail' Hcodes.
    now rewrite (request_try_failure data' Hfail'), (request_try_failure data Hfail), Hcodes.
  - intros detail ->. reflexivity.
Qed.

(** A failed envelope with an internal detail as text: the error
    raised carries the string of 7003 and nothing of the detail. *)
Lemma upstream_failure_is_safe_witness :
  outcome_of (request RateLimiter.punctual 1 (stub (failed_envelope (js "zone 1a2b is locked")))
                      (js "GET") (js "/zones") None example_client example_runtime) =
  Some (Throw (ErrorObj (js "Cloudflare API error: Forbidden - insufficient permissions"))).
Proof.
  destruct (@upstream_failure_is_safe
              RateLimiter.punctual 1 (stub (failed_envelope (js "zone 1a2b is locked")))
              (js "GET") (js "/zones") None example_client example_runtime
              (failed_envelope (js "zone 1a2b is locked"))
              example_served (fun _ => eq_refl) eq_refl)
    as ((c' & rt' & line & Hreq & _) & _).
  rewrite Hreq. reflexivity.
Defined.

(** The raised message is not the bare string of 7003, and it does
    contain the upstream text when that text is, say, [Forbidden]. *)
Lemma upstream_text_may_occur :
  outcome_of (request RateLimiter.punctual 1 (stub (failed_envelope (js "Forbidden")))
                      (js "GET") (js "/zones") None example_client example_runtime) =
  Some (Throw (ErrorObj (js "Cloudflare API error: Forbidden - insufficient permissions"))) /\
  JsString.includes (js "Cloudflare API error: Forbidden - insufficient permissions")
                    (js "Forbidden") = true /\
  js "Cloudflare API error: Forbidden - insufficient permissions" <>
  js "Forbidden - insufficient permissions".
Proof.
  split; [vm_compute; reflexivity|]. split; [vm_compute; reflexivity|].
  vm_compute. discriminate.
Qed.

(** C2: every call of [request] that the limiter admits, and every
    call of [graphqlAnalytics] that passes the guard and that the
    limiter admits, writes exactly one line to the diagnostic
    channel, whether the call returns or throws; the line carries the
    operation, the sanitized parameters, the outcome, the error
    summary if any, and the time elapsed since admission. *)
Theorem one_audit_record_per_attempt
        (wake : Z -> Z -> Z) (JSON_parse : jsstring -> option value) (fuel : nat)
        (B : Type)
        (upstream_rest : HttpRequest -> NetReply CloudflareResponse)
        (upstream_graphql : HttpRequest -> NetReply B)
        (method endpoint : jsstring) (params : option obj)
        (query : jsstring) (variables : option jsstring)
        (c : CloudflareClient) (rt : Runtime) :
  served wake fuel c rt ->
  (exists startTime c' reply,
      clock rt <= startTime /\
      reply = upstream_rest (request_sent method endpoint params c') /\
      request wake fuel upstream_rest method endpoint params c rt =
      Some (request_try (answer reply), c',
            {| clock := startTime + latency reply;
               stderr :=
                 stderr rt ++
                 [ {| AuditLogger.line_type := js "audit";
                      AuditLogger.line_timestamp := startTime + latency reply;
                      AuditLogger.line_tool := method ++ js " " ++ endpoint;
                      AuditLogger.line_parameters :=
                        AuditLogger.kept
                          (AuditLogger.sanitizeParams
                             (VObj (params_or_empty params)));
                      AuditLogger.line_success := is_return (request_try (answer reply));
                      AuditLogger.line_durationMs := latency reply;
                      AuditLogger.line_errorMessage :=
                        AuditLogger.spread_message
                          (error_summary (request_try (answer reply))) |} ] |})) /\
  (forall vars,
      GraphqlValidator.validateGraphQLQuery (VStr query) = Return tt ->
      graphql_variables JSON_parse variables = Return vars ->
      exists startTime c' reply,
        clock rt <= startTime /\
        reply = upstream_graphql (graphql_sent query vars c') /\
        @graphqlAnalytics wake JSON_parse fuel B upstream_graphql query variables c rt =
        Some (graphql_try (answer reply), c',
              {| clock := startTime + latency reply;
                 stderr :=
                   stderr rt ++
                   [ {| AuditLogger.line_type := js "audit";
                        AuditLogger.line_timestamp := startTime + latency reply;
                        AuditLogger.line_tool := js "POST /graphql";
                        AuditLogger.line_parameters :=
                          AuditLogger.kept
                            (AuditLogger.sanitizeParams
                               (VObj (graphql_params query variables)));
                        AuditLogger.line_success := is_return (graphql_try (answer reply));
                        AuditLogger.line_durationMs := latency reply;
                        AuditLogger.line_errorMessage :=
                          AuditLogger.spread_message
                            (error_summary (graphql_try (answer reply))) |} ] |})).
Proof.
  intros Hserved.
  destruct (served_admitted Hserved) as (t0 & l & Hacq & Hle).
  assert (Hdur : forall d, t0 + d - t0 = d) by (intros; lia).
  split.
  - exists t0, (with_limiter c l), (upstream_rest (request_sent method endpoint params (with_limiter c l))).
    split; [exact Hle|]. split; [reflexivity|].
    rewrite (@request_admitted wake fuel upstream_rest method endpoint params c rt t0 l Hacq).
    unfold audit_line. now rewrite Hdur.
  - intros vars Hq Hv.
    exists t0, (with_limiter c l), (upstream_graphql (graphql_sent query vars (with_limiter c l))).
    split; [exact Hle|]. split; [reflexivity|].
    rewrite (@graphql_admitted wake JSON_parse fuel B upstream_graphql query variables
               c rt t0 l vars Hq Hacq Hv).
    unfold audit_line. now rewrite Hdur.
Qed.

(** One call of each routine on an empty channel leaves one line. *)
Lemma one_audit_record_per_attempt_witness :
  List.length
    (stderr_of (request RateLimiter.punctual 1
                        (stub (failed_envelope (js "zone 1a2b is locked")))
                        (js "GET") (js "/zones") None example_client example_runtime))
  = 1%nat /\
  List.length
    (stderr_of (@graphqlAnalytics RateLimiter.punctual no_json 1 CloudflareResponse
                  (stub (failed_envelope (js "zone 1a2b is locked")))
                  (js "query { zones { id } }") None example_client example_runtime))
  = 1%nat.
Proof.
  destruct (@one_audit_record_per_attempt
              RateLimiter.punctual no_json 1 CloudflareResponse
              (stub (failed_envelope (js "zone 1a2b is locked")))
              (stub (failed_envelope (js "zone 1a2b is locked")))
              (js "GET") (js "/zones") None (js "query { zones { id } }") None
              example_client example_runtime example_served)
    as [(t0 & c' & reply & _ & _ & Hreq) Hgql].
  split.
  - rewrite Hreq. reflexivity.
  - destruct (Hgql None eq_refl eq_refl) as (t1 & c1 & reply1 & _ & _ & Hrun).
    rewrite Hrun. reflexivity.
Defined.




End GatewayFacts.

(** ** The token bucket: what a caller can and cannot get *)

Module ThrottleFacts.
Import Double DoubleFacts RateLimiter RateLimiterSpec RateLimiterFacts.
Import RateLimiterSpec ThrottleSpec.

Lemma last_cons {A} (a d : A) (l : list A) : last (a :: l) d = last l a.
Proof.
  revert a d. induction l as [|x l IH]; intros a d; [reflexivity|].
  change (last (a :: x :: l) d) with (last (x :: l) d).
  rewrite (IH x d). symmetry. apply (IH x a).
Qed.

Lemma inject_succ (n : nat) :
  (inject_Z (Z.of_nat (S n)) == inject_Z (Z.of_nat n) + 1)%Q.
Proof.
  rewrite Nat2Z.inj_succ. unfold Z.succ. rewrite inject_Z_plus. reflexivity.
Qed.

Lemma regular_sound (b : t) : regular b -> sound b.
Proof.
  intros (c & m & r & Hc & Hm & Hr & Rc & Rm & Hle & Hmax & _).
  exists c, m, r. repeat split; assumption.
Qed.

Lemma regular_level (b : t) :
  regular b -> tokens b = Fin (level b) /\ (0 <= level b)%Q.
Proof.
  intros (c & m & r & Hc & _ & _ & Rc & _). unfold level. rewrite Hc.
  split; [reflexivity|]. cbn. now apply representable_nonneg.
Qed.

(** *** The bound on the admissions *)

(** The balance of one call: the token taken and what is left are at
    most what was there and what the time brought, up to the
    rounding of the checks made. *)
Lemma acquire_balance (wake : Z -> Z -> Z) (fuel : nat) :
  timely wake ->
  forall (now : Z) (b : t) (admitted : Z) (b' : t),
    regular b -> lastRefill b <= now ->
    admitted - lastRefill b < 2 ^ 53 ->
    acquire wake fuel now b = Some (admitted, b') ->
    (level b' + 1 <=
     level b + excess * due b (lastRefill b) admitted +
     inject_Z (Z.of_nat fuel) * check_slack b)%Q.
Proof.
  intros Hwake. induction fuel as [|fuel IH];
    intros now b admitted b' Hwf Ht Hhor Hacq; [discriminate|].
  pose proof (check_slack_nonneg Hwf) as Hslack.
  pose proof (@acquire_leaves wake (S fuel) now b admitted b' Hwake Hwf Ht Hacq)
    as (Hadm & _).
  assert (Hd : 0 <= now - lastRefill b < 2 ^ 53) by lia.
  pose proof (@refill_upper now b Hwf Hd) as Hup.
  pose proof (refill_regular Hwf Ht) as Hwf1.
  assert (Hn0 : (0 <= inject_Z (Z.of_nat fuel))%Q)
    by (change 0%Q with (inject_Z 0); rewrite <- Zle_Qle; lia).
  assert (Hfs : (0 <= inject_Z (Z.of_nat fuel) * check_slack b)%Q)
    by (apply Qmult_le_0_compat; assumption).
  rewrite inject_succ.
  cbn [acquire] in Hacq.
  destruct (below_one (refill now b)) eqn:Hb.
  - assert (Ht1 : lastRefill (refill now b) <=
                  wake now (timer_delay (waitMs (refill now b)))).
    { pose proof (Hwake now (timer_delay (waitMs (refill now b)))).
      pose proof (proj1 (timer_delay_bounds (waitMs (refill now b)))).
      cbn [lastRefill refill]. lia. }
    assert (Hhor1 : admitted - lastRefill (refill now b) < 2 ^ 53)
      by (cbn [lastRefill refill]; lia).
    specialize (IH _ _ _ _ Hwf1 Ht1 Hhor1 Hacq).
    cbn [lastRefill refill] in IH.
    change (due (refill now b) now admitted) with (due b now admitted) in IH.
    change (check_slack (refill now b)) with (check_slack b) in IH.
    pose proof (due_split b (lastRefill b) now admitted) as Hsplit.
    set (c1 := level (refill now b)) in *.
    set (d1 := due b (lastRefill b) now) in *.
    set (d2 := due b now admitted) in *.
    set (d := due b (lastRefill b) admitted) in *.
    set (s := check_slack b) in *.
    set (fs := (inject_Z (Z.of_nat fuel) * s)%Q) in *.
    assert (E : (excess * d == excess * d1 + excess * d2)%Q)
      by (rewrite Hsplit; ring).
    set (e1 := (excess * d1)%Q) in *. set (e2 := (excess * d2)%Q) in *.
    set (e := (excess * d)%Q) in *.
    setoid_replace ((inject_Z (Z.of_nat fuel) + 1) * s)%Q with (fs + s)%Q
      by (unfold fs; ring).
    lra.
  - injection Hacq as <- <-.
    destruct (regular_level Hwf1) as [Hc1 _].
    destruct (@take_spec (refill now b) _ Hwf1 Hb Hc1) as (c' & Hc' & Ec' & _).
    unfold level at 1. rewrite Hc'. cbn [amount].
    set (c1 := level (refill now b)) in *.
    set (e := (excess * due b (lastRefill b) now)%Q) in *.
    set (s := check_slack b) in *.
    set (fs := (inject_Z (Z.of_nat fuel) * s)%Q) in *.
    setoid_replace ((inject_Z (Z.of_nat fuel) + 1) * s)%Q with (fs + s)%Q
      by (unfold fs; ring).
    lra.
Qed.

(** The balance of a sequence of calls. *)
Lemma admissions_balance (wake : Z -> Z -> Z) (fuel : nat) (gaps : list Z) :
  timely wake ->
  Forall (fun g => 0 <= g) gaps ->
  forall (now : Z) (b : t) (trace : list (t * Z * t)),
    regular b -> lastRefill b <= now ->
    acquire_each wake fuel gaps now b = Some trace ->
    finish now trace - lastRefill b < 2 ^ 53 ->
    (inject_Z (Z.of_nat (List.length trace)) + level (final_bucket b trace) <=
     level b + excess * due b (lastRefill b) (finish now trace) +
     inject_Z (Z.of_nat (List.length trace * fuel)) * check_slack b)%Q /\
    (0 <= level (final_bucket b trace))%Q /\
    now <= finish now trace.
Proof.
  intros Hwake Hgaps. induction Hgaps as [|g gaps Hg Hgaps IH];
    intros now b trace Hwf Hlast Hrun Hhor.
  - cbn [acquire_each] in Hrun. injection Hrun as <-.
    unfold finish, final_bucket in *. cbn [map last List.length] in *.
    destruct (regular_level Hwf) as [_ Hc0].
    split; [|split; [exact Hc0 | lia]].
    destruct Hwf as (c & m & r & _ & _ & Hr & _ & _ & _ & _ & Hpos).
    pose proof (@due_nonneg b r (lastRefill b) now Hr Hpos Hlast) as Hdue.
    pose proof excess_ge_1 as Hex.
    assert (0 <= excess * due b (lastRefill b) now)%Q
      by (apply Qmult_le_0_compat; lra).
    cbn [Nat.mul Z.of_nat].
    set (e := (excess * due b (lastRefill b) now)%Q) in *.
    set (s := check_slack b) in *.
    change (inject_Z 0) with 0%Q.
    setoid_replace (0 * s)%Q with 0%Q by ring. lra.
  - cbn [acquire_each] in Hrun.
    destruct (acquire wake fuel (now + g) b) as [[adm b']|] eqn:Hacq;
      [|discriminate].
    destruct (acquire_each wake fuel gaps adm b') as [trace'|] eqn:Hrest;
      [|discriminate].
    injection Hrun as <-.
    assert (Ht' : lastRefill b <= now + g) by lia.
    destruct (@acquire_leaves wake fuel (now + g) b adm b' Hwake Hwf Ht' Hacq)
      as (Hadm & Hwf' & Hl' & Hmax' & Hrate').
    unfold finish, final_bucket in *. cbn [map List.length] in *.
    rewrite !last_cons in *. cbn [admitted_at fst snd] in *.
    assert (Hlast' : lastRefill b' <= adm) by lia.
    destruct (IH adm b' trace' Hwf' Hlast' Hrest) as (Hbal & Hfin & Hmono);
      [rewrite Hl'; lia|].
    split; [|split; [exact Hfin | lia]].
    set (fin := last (map admitted_at trace') adm) in *.
    assert (Hhor1 : adm - lastRefill b < 2 ^ 53) by lia.
    pose proof (@acquire_balance wake fuel Hwake (now + g) b adm b' Hwf Ht'
                                 Hhor1 Hacq) as Hone.
    rewrite Hl' in Hbal.
    assert (Ed : due b' adm fin = due b adm fin)
      by (unfold due; rewrite Hrate'; reflexivity).
    assert (Es : check_slack b' = check_slack b)
      by (unfold check_slack; rewrite Hmax'; reflexivity).
    rewrite Ed, Es in Hbal.
    pose proof (due_split b (lastRefill b) adm fin) as Hsplit.
    rewrite inject_succ.
    assert (En : (inject_Z (Z.of_nat (S (List.length trace') * fuel)) ==
                  inject_Z (Z.of_nat fuel) +
                  inject_Z (Z.of_nat (List.length trace' * fuel)))%Q).
    { cbn [Nat.mul]. rewrite Nat2Z.inj_add, inject_Z_plus. reflexivity. }
    rewrite En.
    set (n := inject_Z (Z.of_nat (List.length trace'))) in *.
    set (cf := level (last (map (fun step => snd step) trace') b')) in *.
    set (s := check_slack b) in *.
    set (f1 := inject_Z (Z.of_nat fuel)) in *.
    set (f2 := inject_Z (Z.of_nat (List.length trace' * fuel))) in *.
    set (d1 := due b (lastRefill b) adm) in *.
    set (d2 := due b adm fin) in *.
    set (d := due b (lastRefill b) fin) in *.
    assert (E : (excess * d == excess * d1 + excess * d2)%Q)
      by (rewrite Hsplit; ring).
    set (e1 := (excess * d1)%Q) in *. set (e2 := (excess * d2)%Q) in *.
    set (e := (excess * d)%Q) in *.
    setoid_replace ((f1 + f2) * s)%Q with (f1 * s + f2 * s)%Q by ring.
    set (fs1 := (f1 * s)%Q) in *. set (fs2 := (f2 * s)%Q) in *.
    lra.
Qed.

(** X1: however the calls are spaced and however late the timers
    fire, the calls admitted up to some moment number at most the
    tokens the bucket held at the start plus the rate times the time
    that passed, up to the rounding of the double arithmetic: the
    refill counts with a relative excess of [(1 + 2^-53)^2], and
    every check of the bucket can add [2^-53] of the capacity and
    [2^-1074]. *)
Theorem admissions_bounded (wake : Z -> Z -> Z) (fuel : nat) (gaps : list Z)
        (now : Z) (b : t) (trace : list (t * Z * t)) :
  timely wake ->
  Forall (fun g => 0 <= g) gaps ->
  regular b ->
  lastRefill b <= now ->
  acquire_each wake fuel gaps now b = Some trace ->
  finish now trace - lastRefill b < 2 ^ 53 ->
  (inject_Z (Z.of_nat (List.length trace)) <=
   level b + excess * due b (lastRefill b) (finish now trace) +
   inject_Z (Z.of_nat (List.length trace * fuel)) * check_slack b)%Q /\
  (inject_Z (Z.of_nat (List.length trace)) <=
   amount (maxTokens b) + excess * due b (lastRefill b) (finish now trace) +
   inject_Z (Z.of_nat (List.length trace * fuel)) * check_slack b)%Q /\
  now <= finish now trace.
Proof.
  intros Hwake Hgaps Hwf Hlast Hrun Hhor.
  destruct (@admissions_balance wake fuel gaps Hwake Hgaps now b trace
                                Hwf Hlast Hrun Hhor)
    as (Hbal & Hfin & Hmono).
  assert (Hcm : (level b <= amount (maxTokens b))%Q).
  { destruct Hwf as (c & m & r & Hc & Hm & _ & _ & _ & Hle & _).
    unfold level. rewrite Hc, Hm. exact Hle. }
  set (n := inject_Z (Z.of_nat (List.length trace))) in *.
  set (e := (excess * due b (lastRefill b) (finish now trace))%Q) in *.
  set (s := (inject_Z (Z.of_nat (List.length trace * fuel)) * check_slack b)%Q) in *.
  set (tf := level (final_bucket b trace)) in *.
  split; [lra | split; [lra | exact Hmono]].
Qed.

Lemma admissions_bounded_witness :
  (inject_Z (Z.of_nat (List.length example_trace)) <=
   level example_bucket +
   excess * due example_bucket (lastRefill example_bucket)
                (finish 0 example_trace) +
   inject_Z (Z.of_nat (List.length example_trace * 3)) *
   check_slack example_bucket)%Q.
Proof.
  assert (Hgaps : Forall (fun g => 0 <= g) example_gaps)
    by (repeat constructor; discriminate).
  assert (Ht : lastRefill example_bucket <= 0) by (vm_compute; discriminate).
  assert (Hrun : acquire_each punctual 3 example_gaps 0 example_bucket =
                 Some example_trace) by (vm_compute; reflexivity).
  assert (Hhor : finish 0 example_trace - lastRefill example_bucket < 2 ^ 53)
    by (vm_compute; reflexivity).
  exact (proj1 (@admissions_bounded punctual 3 example_gaps 0 example_bucket
                  example_trace punctual_timely Hgaps
                  example_bucket_regular Ht Hrun Hhor)).
Defined.

(** *** A burst *)

Lemma acquire_now (wake : Z -> Z -> Z) (fuel : nat) (now : Z) (b : t) :
  below_one (refill now b) = false ->
  acquire wake (S fuel) now b = Some (now, take (refill now b)).
Proof. intros H. cbn [acquire]. rewrite H. reflexivity. Qed.

Lemma acquire_later (wake : Z -> Z -> Z) (fuel : nat) (now : Z) (b : t) :
  below_one (refill now b) = true ->
  acquire wake (S fuel) now b =
  acquire wake fuel (wake now (delay (refill now b))) (refill now b).
Proof. intros H. cbn [acquire]. rewrite H. reflexivity. Qed.

Lemma sound_level (b : t) :
  sound b -> tokens b = Fin (level b) /\ (0 <= level b)%Q.
Proof.
  intros (c & m & r & Hc & _ & _ & Rc & _). unfold level. rewrite Hc.
  split; [reflexivity|]. cbn. now apply representable_nonneg.
Qed.

(** A refill at the instant of the last one leaves the count. *)
Lemma same_instant (b : t) :
  sound b ->
  sound (refill (lastRefill b) b) /\
  (level (refill (lastRefill b) b) == level b)%Q.
Proof.
  intros (c & m & r & Hc & Hm & Hr & Rc & Rm & Hle & Hmax).
  assert (Ht : tokens (refill (lastRefill b) b) = Double.min (Fin m) (rnd (c + 0))).
  { rewrite refill_tokens, Hc, Hm. unfold refilled, elapsed.
    rewrite Hr, Z.sub_diag.
    change (div (of_Z 0) (Fin 1000)) with (rnd (0 / 1000)).
    assert (E0 : (0 / 1000 == 0)%Q) by reflexivity.
    rewrite (rnd_comp E0), rnd_zero. cbn [mul].
    assert (E1 : (0 * r == 0)%Q) by ring.
    rewrite (rnd_comp E1), rnd_zero. reflexivity. }
  destruct (add_zero Rc) as (c0 & E0 & Ec0). cbn [add] in E0.
  rewrite E0 in Ht.
  destruct (min_Fin m c0) as (z & Ez & Hcase). rewrite Ez in Ht.
  assert (Ezc : (z == c)%Q) by (destruct Hcase as [[H ->] | [H ->]]; lra).
  split.
  - exists z, m, r. cbn [refill maxTokens refillRate].
    split; [exact Ht|]. split; [exact Hm|]. split; [exact Hr|].
    split; [apply representable_comp with c; [symmetry; exact Ezc | exact Rc]|].
    split; [exact Rm|]. split; [lra | exact Hmax].
  - unfold level. rewrite Ht, Hc. exact Ezc.
Qed.

(** An admission takes exactly one token. *)
Lemma sound_take (b : t) :
  sound b -> below_one b = false ->
  sound (take b) /\ (level (take b) == level b - 1)%Q.
Proof.
  intros (c & m & r & Hc & Hm & Hr & Rc & Rm & Hle & Hmax) Hb.
  apply (@below_one_false_iff b c Hc) in Hb.
  assert (Rp : representable (c - 1))
    by (apply representable_pred; [exact Rc | exact Hb | lra]).
  assert (E : (c + - (1) == c - 1)%Q) by ring.
  destruct (@rnd_representable (c - 1)) as (c' & Ec' & Eq');
    [lra | exact Rp |].
  assert (Ht : tokens (take b) = Fin c').
  { cbn [take tokens]. rewrite Hc. unfold sub. cbn [neg add].
    rewrite (rnd_comp E). exact Ec'. }
  split.
  - exists c', m, r. cbn [take maxTokens refillRate].
    split; [exact Ht|]. split; [exact Hm|]. split; [exact Hr|].
    split; [apply representable_comp with (c - 1)%Q;
            [symmetry; exact Eq' | exact Rp]|].
    split; [exact Rm|]. split; [lra | exact Hmax].
  - unfold level. rewrite Ht, Hc. exact Eq'.
Qed.

Lemma sound_below_one (b : t) :
  sound b ->
  (below_one b = true <-> (level b < 1)%Q) /\
  (below_one b = false <-> (1 <= level b)%Q).
Proof.
  intros Hs. destruct (sound_level Hs) as [Hc _].
  split; [apply (below_one_iff b Hc) | apply (below_one_false_iff b Hc)].
Qed.

Lemma burst (wake : Z -> Z -> Z) (k : nat) :
  forall (now : Z) (b : t),
    sound b -> lastRefill b = now ->
    (inject_Z (Z.of_nat k) <= level b)%Q ->
    exists trace,
      acquire_each wake 1 (repeat 0 k) now b = Some trace /\
      List.length trace = k /\
      Forall (fun step => admitted_at step = now) trace /\
      sound (final_bucket b trace) /\
      lastRefill (final_bucket b trace) = now /\
      (level (final_bucket b trace) == level b - inject_Z (Z.of_nat k))%Q.
Proof.
  induction k as [|k IH]; intros now b Hok Hlast Hk.
  - exists []. cbn [repeat acquire_each]. unfold final_bucket.
    cbn [map last List.length].
    change (inject_Z (Z.of_nat 0)) with 0%Q.
    repeat (split; [first [reflexivity | assumption | constructor]|]).
    ring.
  - rewrite inject_succ in Hk.
    destruct (same_instant Hok) as (Hok1 & Heq1).
    rewrite Hlast in Hok1, Heq1.
    assert (Hone : below_one (refill now b) = false).
    { apply (sound_below_one Hok1). rewrite Heq1.
      assert (0 <= inject_Z (Z.of_nat k))%Q
        by (change 0%Q with (inject_Z 0); rewrite <- Zle_Qle; lia).
      set (n := inject_Z (Z.of_nat k)) in *. lra. }
    pose proof (@acquire_now wake 0 now b Hone) as Hacq.
    destruct (sound_take Hok1 Hone) as (Hok' & Hcount').
    set (b' := take (refill now b)) in *.
    assert (Hk' : (inject_Z (Z.of_nat k) <= level b')%Q).
    { rewrite Hcount', Heq1.
      set (n := inject_Z (Z.of_nat k)) in *. lra. }
    destruct (IH now b' Hok' eq_refl Hk')
      as (trace & Hrun & Hlen & Hall & Hokf & Hlf & Htf).
    exists ((b, now, b') :: trace).
    cbn [repeat acquire_each]. rewrite Z.add_0_r, Hacq, Hrun.
    unfold final_bucket in *. cbn [map List.length]. rewrite last_cons.
    cbn [snd].
    split; [reflexivity|].
    split; [now rewrite Hlen|].
    split; [constructor; [reflexivity | exact Hall]|].
    split; [exact Hokf|].
    split; [exact Hlf|].
    rewrite Htf, inject_succ, Hcount', Heq1. ring.
Qed.

(** X2: a bucket that holds at least [k] tokens admits [k] calls made
    at the instant of its last refill, none of them waiting; each
    takes one token.  If fewer than [k + 1] tokens were there, one
    more call at that instant is not admitted without a wait.  The
    bucket of the server, just made, so admits a burst of 100 calls
    and makes the next one wait. *)
Theorem burst_then_wait (wake : Z -> Z -> Z) (k : nat) (now : Z) (b : t) :
  sound b -> lastRefill b = now ->
  (inject_Z (Z.of_nat k) <= level b)%Q ->
  exists trace,
    acquire_each wake 1 (repeat 0 k) now b = Some trace /\
    List.length trace = k /\
    Forall (fun step => admitted_at step = now) trace /\
    (level (final_bucket b trace) == level b - inject_Z (Z.of_nat k))%Q /\
    ((level b < inject_Z (Z.of_nat k) + 1)%Q ->
     acquire wake 1 now (final_bucket b trace) = None).
Proof.
  intros Hok Hlast Hk.
  destruct (@burst wake k now b Hok Hlast Hk)
    as (trace & Hrun & Hlen & Hall & Hokf & Hlf & Htf).
  exists trace.
  split; [exact Hrun|]. split; [exact Hlen|]. split; [exact Hall|].
  split; [exact Htf|].
  intros Hlt.
  destruct (same_instant Hokf) as (Hok1 & Heq).
  rewrite Hlf in Hok1, Heq.
  rewrite acquire_later; [reflexivity|].
  apply (sound_below_one Hok1).
  rewrite Heq, Htf.
  set (n := inject_Z (Z.of_nat k)) in *. lra.
Qed.

Lemma server_bucket_sound (now : Z) : sound (server_bucket now).
Proof.
  exists 100%Q, 100%Q, 10%Q. cbn.
  split; [reflexivity|]. split; [reflexivity|]. split; [reflexivity|].
  split; [apply (@representable_Z 100); lia|].
  split; [apply (@representable_Z 100); lia|].
  split; [discriminate | vm_compute; discriminate].
Qed.

Lemma burst_then_wait_witness :
  exists trace,
    acquire_each punctual 1 (repeat 0 100) 0 (server_bucket 0) = Some trace /\
    List.length trace = 100%nat /\
    Forall (fun step => admitted_at step = 0) trace /\
    acquire punctual 1 0 (final_bucket (server_bucket 0) trace) = None.
Proof.
  assert (Hk : (inject_Z (Z.of_nat 100) <= level (server_bucket 0))%Q)
    by (vm_compute; discriminate).
  assert (Hlt : (level (server_bucket 0) < inject_Z (Z.of_nat 100) + 1)%Q)
    by (vm_compute; reflexivity).
  destruct (@burst_then_wait punctual 100 0 (server_bucket 0)
                             (server_bucket_sound 0) eq_refl Hk)
    as (trace & Hrun & Hlen & Hall & _ & Hwait).
  exists trace.
  split; [exact Hrun|]. split; [exact Hlen|]. split; [exact Hall|].
  exact (Hwait Hlt).
Defined.

(** *** Starvation *)

Lemma starving_refill (now : Z) (b : t) :
  starving b -> 0 <= now - lastRefill b < 2 ^ 53 ->
  starving (refill now b) /\ below_one (refill now b) = true.
Proof.
  intros (c & m & r & Hc & Hm & Hr & Hc0 & Hm0 & Hr0 & Hcase) Hd.
  destruct (@elapsed_finite now (lastRefill b) Hd) as (e & Ee & He0).
  assert (Hp : num_le (Fin 0) (refilled now b)).
  { unfold refilled. rewrite Ee, Hr. cbn [mul]. apply rnd_nonneg.
    apply Qmult_le_0_compat; assumption. }
  assert (Hs : num_le (Fin 0) (add (Fin c) (refilled now b)))
    by (apply add_nonneg; assumption).
  destruct (min_cases m _ Hs) as (z & Ez & Hzm & Hzs & Hzcase).
  assert (Ht : tokens (refill now b) = Fin z)
    by (rewrite refill_tokens, Hc, Hm; exact Ez).
  assert (Hz0 : (0 <= z)%Q).
  { destruct Hzcase as [E | E]; [rewrite E; exact Hm0|].
    rewrite E in Hs. exact Hs. }
  assert (Hz1 : (z < 1)%Q /\
                ((m < 1)%Q \/
                 (r == 0)%Q /\
                 exists u, representable u /\ (z <= u)%Q /\ (u < 1)%Q)).
  { destruct Hcase as [Hlt | (Hz & u & Ru & Hcu & Hu1)].
    - split; [lra | left; exact Hlt].
    - assert (Hsu : num_le (add (Fin c) (refilled now b)) (Fin u)).
      { unfold refilled. rewrite Ee, Hr. cbn [mul].
        assert (E1 : (e * r == 0)%Q) by (rewrite Hz; ring).
        rewrite (rnd_comp E1), rnd_zero. cbn [add].
        destruct (@rnd_representable u (representable_nonneg Ru) Ru)
          as (u' & Eu' & Equ').
        assert (Hle : (c + 0 <= u)%Q) by lra.
        pose proof (rnd_mono Hle) as M. rewrite Eu' in M.
        destruct (rnd (c + 0)); cbn in M |- *; try contradiction; try exact I.
        lra. }
      pose proof (num_le_trans _ _ _ Hzs Hsu) as Hzu. cbn in Hzu.
      split; [lra|]. right. split; [exact Hz|].
      exists u. split; [exact Ru|]. split; [exact Hzu | exact Hu1]. }
  destruct Hz1 as [Hz1 Hcase'].
  split.
  - exists z, m, r. cbn [refill maxTokens refillRate].
    repeat (split; [assumption|]). exact Hcase'.
  - apply (@below_one_iff (refill now b) z Ht). exact Hz1.
Qed.

(** X3: a bucket whose capacity is below one, or whose rate is zero
    and which holds less than one token, admits nobody: the caller
    waits for ever, however late the timers fire.  The fields are
    finite and not negative, and the clock reads integers a double
    holds. *)
Theorem acquire_starves (wake : Z -> Z -> Z) (now : Z) (b : t) (c m r : Q) :
  patient wake ->
  0 <= now - lastRefill b < 2 ^ 53 ->
  tokens b = Fin c -> maxTokens b = Fin m -> refillRate b = Fin r ->
  (0 <= c)%Q -> (0 <= m)%Q -> (0 <= r)%Q ->
  (m < 1)%Q \/ (r == 0 /\ c < 1)%Q /\ representable c ->
  forall fuel, acquire wake fuel now b = None.
Proof.
  intros Hwake Hd Hc Hm Hr Hc0 Hm0 Hr0 Hcase fuel.
  assert (Hst : starving b).
  { exists c, m, r. repeat (split; [assumption|]).
    destruct Hcase as [H | [[Hz H1] Rc]]; [left; exact H|].
    right. split; [exact Hz|]. exists c.
    split; [exact Rc|]. split; [apply Qle_refl | exact H1]. }
  clear Hc Hm Hr Hc0 Hm0 Hr0 Hcase. revert now b Hd Hst.
  induction fuel as [|fuel IH]; intros now b Hd Hst; [reflexivity|].
  destruct (@starving_refill now b Hst Hd) as (Hst' & Hlt).
  rewrite acquire_later; [|exact Hlt].
  apply IH; [|exact Hst'].
  cbn [lastRefill refill].
  pose proof (Hwake now (delay (refill now b))
                    (timer_delay_bounds (waitMs (refill now b)))) as Hw.
  lia.
Qed.

Lemma punctual_patient : patient punctual.
Proof. intros now d Hd. unfold punctual. lia. Qed.

Lemma acquire_starves_witness :
  acquire punctual 1000 0 (create (Fin 0) (Fin 10) 0) = None /\
  acquire punctual 1000 5 {| tokens := Fin 0; lastRefill := 0;
                             maxTokens := Fin 100; refillRate := Fin 0 |} = None.
Proof.
  split.
  - apply (@acquire_starves punctual 0 (create (Fin 0) (Fin 10) 0) 0 0 10
                            punctual_patient);
      try reflexivity; try discriminate.
    + cbn. lia.
    + left. reflexivity.
  - apply (@acquire_starves punctual 5
             {| tokens := Fin 0; lastRefill := 0;
                maxTokens := Fin 100; refillRate := Fin 0 |} 0 100 0
             punctual_patient);
      try reflexivity; try discriminate.
    + cbn. lia.
    + right. split; [split; reflexivity|]. apply (@representable_Z 0). lia.
Defined.

(** *** Reading the count *)

(** X4: [getAvailableTokens] refills the bucket and reports the whole
    tokens of the refilled count, an integer between 0 and the
    capacity; it reports at least one exactly when a call made at
    that instant would be admitted without waiting.  The read is not
    without effect on later calls: the emptied bucket of the server
    admits a caller 100 ms later at once, but only after a wait, at
    200 ms, when the count was read at 10 ms. *)
Theorem getAvailableTokens_observes (wake : Z -> Z -> Z) (now : Z) (b : t) :
  regular b -> lastRefill b <= now ->
  snd (getAvailableTokens now b) = refill now b /\
  bucket_ok (snd (getAvailableTokens now b)) /\
  (exists n : Z,
      fst (getAvailableTokens now b) = Fin (inject_Z n) /\
      0 <= n <= Qfloor (amount (maxTokens b)) /\
      (inject_Z n <= level (refill now b))%Q /\
      (level (refill now b) < inject_Z (n + 1))%Q /\
      (1 <= n <-> acquire wake 1 now b = Some (now, take (refill now b))) /\
      (n < 1 <-> acquire wake 1 now b = None)) /\
  option_map fst (acquire punctual 2 100 drained_bucket) = Some 100 /\
  option_map fst (acquire punctual 2 100
                          (snd (getAvailableTokens 10 drained_bucket))) =
  Some 200.
Proof.
  intros Hwf Hlast.
  pose proof (refill_regular Hwf Hlast) as Hwf1.
  destruct (regular_level Hwf1) as [Hc1 Hc0].
  split; [reflexivity|].
  split; [apply regular_ok; exact Hwf1|].
  split; [|split; vm_compute; reflexivity].
  exists (Qfloor (level (refill now b))).
  unfold getAvailableTokens. cbn [fst snd]. rewrite Hc1. cbn [floor].
  split; [reflexivity|].
  assert (Hhi : (level (refill now b) <= amount (maxTokens b))%Q).
  { destruct Hwf1 as (c & m & r & Hc & Hm & _ & _ & _ & Hle & _).
    cbn [refill maxTokens] in Hm. unfold level. rewrite Hc, Hm. exact Hle. }
  assert (Hone : 1 <= Qfloor (level (refill now b)) <->
                 (1 <= level (refill now b))%Q).
  { split; intros H.
    - apply Qle_trans with (inject_Z (Qfloor (level (refill now b))));
        [|apply Qfloor_le].
      change 1%Q with (inject_Z 1). rewrite <- Zle_Qle. exact H.
    - change 1 with (Qfloor (inject_Z 1)). apply Qfloor_resp_le. exact H. }
  split.
  { split.
    - change 0 with (Qfloor (inject_Z 0)). apply Qfloor_resp_le. exact Hc0.
    - apply Qfloor_resp_le. exact Hhi. }
  split; [apply Qfloor_le|].
  split; [apply Qlt_floor|].
  split.
  { rewrite Hone. split; intros H.
    - apply acquire_now. apply (@below_one_false_iff (refill now b) _ Hc1).
      exact H.
    - cbn [acquire] in H.
      destruct (below_one (refill now b)) eqn:Hb; [discriminate|].
      apply (@below_one_false_iff (refill now b) _ Hc1). exact Hb. }
  split; intros H.
  - rewrite acquire_later; [reflexivity|].
    apply (@below_one_iff (refill now b) _ Hc1).
    apply Qnot_le_lt. intros Hle. apply Hone in Hle. lia.
  - cbn [acquire] in H.
    destruct (below_one (refill now b)) eqn:Hb; [|discriminate].
    apply (@below_one_iff (refill now b) _ Hc1) in Hb.
    destruct (Z_lt_le_dec (Qfloor (level (refill now b))) 1) as [Hlt|Hge];
      [exact Hlt|].
    apply Hone in Hge. exfalso. apply (Qlt_not_le _ _ Hb Hge).
Qed.

Lemma getAvailableTokens_observes_witness :
  fst (getAvailableTokens 250 drained_bucket) = Fin 2 /\
  bucket_ok (snd (getAvailableTokens 250 drained_bucket)).
Proof.
  assert (Ht : lastRefill drained_bucket <= 250) by (vm_compute; discriminate).
  destruct (@getAvailableTokens_observes punctual 250 drained_bucket
              drained_bucket_regular Ht)
    as (_ & Hok & _).
  split; [vm_compute; reflexivity | exact Hok].
Defined.

End ThrottleFacts.

(** ** The audit sanitizer, at every depth *)

Module RedactionFacts.
Import AuditLogger AuditLoggerSpec AuditLoggerFacts JsStringFacts.
Import AuditLoggerSpec RedactionSpec.

Lemma object_loop_NoDup (props acc : obj) :
  NoDup (map fst acc) -> NoDup (map fst (object_loop props acc)).
Proof.
  revert acc. induction props as [|[k v] props IH]; intros acc H; [exact H|].
  unfold object_loop in *. cbn [fold_left fst snd].
  apply IH. rewrite sanitize_entry_set. apply set_prop_NoDup. exact H.
Qed.

Lemma sanitizeParams_NoDup (params : value) :
  NoDup (map fst (sanitizeParams params)).
Proof.
  rewrite sanitizeParams_entries. apply object_loop_NoDup. constructor.
Qed.

Lemma get_sanitizeParams (params : value) (key : jsstring) (w : value) :
  get_prop (sanitizeParams params) key = Some w ->
  exists v, w = sanitized_value key v.
Proof.
  rewrite sanitizeParams_entries.
  destruct (JsString.eq_dec key PROTO) as [-> | Hkey].
  - rewrite get_object_loop_proto. discriminate.
  - rewrite get_object_loop by exact Hkey.
    destruct (get_prop (rev (entries params)) key) as [v|]; [|discriminate].
    intros H. injection H as <-. exists v. reflexivity.
Qed.

Lemma reach_scalar (v : value) (key : jsstring) (path : list jsstring) :
  is_object v = false -> reach v (key :: path) = None.
Proof. destruct v; intros H; try reflexivity; discriminate. Qed.

Lemma reach_marker (key : jsstring) (path : list jsstring) :
  reach REDACTED (key :: path) = None.
Proof. reflexivity. Qed.

Lemma sanitized_value_cases (key : jsstring) (v : value) :
  (redact_key key = true /\ sanitized_value key v = REDACTED) \/
  (redact_key key = false /\ is_object v = true /\
   sanitized_value key v = VObj (sanitizeParams v)) \/
  (redact_key key = false /\ is_object v = false /\ sanitized_value key v = v).
Proof.
  unfold sanitized_value.
  destruct (redact_key key); [left; split; reflexivity|].
  destruct (is_object v); [right; left | right; right];
    (split; [reflexivity | split; reflexivity]).
Qed.

(** What is reachable in a sanitized object: under a matching key
    only the marker, and never an array. *)
Lemma reach_sanitized (path : list jsstring) :
  forall (params : value) (w : value),
    reach (VObj (sanitizeParams params)) path = Some w ->
    (forall key path', path = path' ++ [key] -> redact_key key = true ->
                       w = REDACTED) /\
    (forall items, w <> VArr items) /\
    (forall props, w = VObj props -> NoDup (map fst props)).
Proof.
  induction path as [|k path IH]; intros params w Hreach.
  - cbn [reach] in Hreach. injection Hreach as <-.
    split; [intros key path' Hp; destruct path'; discriminate|].
    split; [intros items; discriminate|].
    intros props H. injection H as <-. apply sanitizeParams_NoDup.
  - cbn [reach] in Hreach.
    destruct (get_prop (sanitizeParams params) k) as [w0|] eqn:Hget;
      [|discriminate].
    destruct (@get_sanitizeParams params k w0 Hget) as (v & ->).
    destruct (sanitized_value_cases k v)
      as [(Hk & Hv) | [(Hk & Hobj & Hv) | (Hk & Hobj & Hv)]];
      rewrite Hv in Hreach.
    + destruct path as [|k' path].
      * cbn [reach] in Hreach. injection Hreach as <-.
        split; [reflexivity|].
        split; [intros items; discriminate | intros props; discriminate].
      * rewrite reach_marker in Hreach. discriminate.
    + destruct (IH v w Hreach) as (Hred & Harr & Hdup).
      split; [|split; [exact Harr | exact Hdup]].
      intros key path' Hp Hkey.
      destruct path' as [|k0 path'].
      * cbn [app] in Hp. injection Hp as Hk0 Hpath. subst.
        rewrite Hkey in Hk. discriminate.
      * cbn [app] in Hp. injection Hp as Hk0 Hpath. subst.
        apply (Hred key path' eq_refl Hkey).
    + destruct path as [|k' path].
      * cbn [reach] in Hreach. injection Hreach as <-.
        split.
        { intros key path' Hp Hkey.
          destruct path' as [|k0 path']; cbn [app] in Hp.
          - injection Hp as ->. rewrite Hkey in Hk. discriminate.
          - injection Hp as _ Hp. destruct path'; discriminate. }
        split.
        { intros items ->. discriminate. }
        { intros props ->. discriminate. }
      * rewrite (@reach_scalar v k' path Hobj) in Hreach. discriminate.
Qed.

(** X6: in the object that [sanitizeParams] returns, whatever is
    found at the end of a path of keys whose last key contains one
    of the six terms is the marker, at any depth and also where the
    input had arrays; nothing that can be reached is an array; every
    object that can be reached has distinct keys and is left as it
    is when it is sanitized again. *)
Theorem sanitizeParams_deep (params : value) (path : list jsstring) (w : value) :
  reach (VObj (sanitizeParams params)) path = Some w ->
  (forall key path', path = path' ++ [key] -> redact_key key = true ->
                     w = REDACTED) /\
  (forall items, w <> VArr items) /\
  (forall props, w = VObj props ->
                 NoDup (map fst props) /\ sanitizeParams (VObj props) = props).
Proof.
  intros Hreach.
  destruct (@reach_sanitized path params w Hreach) as (Hred & Harr & Hdup).
  split; [exact Hred|]. split; [exact Harr|].
  intros props Hw. split; [apply Hdup; exact Hw|].
  subst w. clear Hred Harr Hdup. revert params Hreach.
  induction path as [|k path IH]; intros params Hreach.
  - cbn [reach] in Hreach. injection Hreach as <-.
    apply sanitizeParams_idempotent.
  - cbn [reach] in Hreach.
    destruct (get_prop (sanitizeParams params) k) as [w0|] eqn:Hget;
      [|discriminate].
    destruct (@get_sanitizeParams params k w0 Hget) as (v & ->).
    destruct (sanitized_value_cases k v)
      as [(Hk & Hv) | [(Hk & Hobj & Hv) | (Hk & Hobj & Hv)]];
      rewrite Hv in Hreach.
    + destruct path; [discriminate Hreach|].
      rewrite reach_marker in Hreach. discriminate.
    + apply (IH v Hreach).
    + destruct path as [|k' path].
      * cbn [reach] in Hreach. injection Hreach as ->. discriminate.
      * rewrite (@reach_scalar v k' path Hobj) in Hreach. discriminate.
Qed.

Lemma sanitizeParams_deep_witness :
  reach (VObj (sanitizeParams (VObj deep_params)))
        [js "hooks"; js "0"; js "auth"; js "Secret_Key"] = Some REDACTED /\
  forall items, REDACTED <> VArr items.
Proof.
  assert (H : reach (VObj (sanitizeParams (VObj deep_params)))
                    [js "hooks"; js "0"; js "auth"; js "Secret_Key"] =
              Some REDACTED) by (vm_compute; reflexivity).
  split; [exact H|].
  exact (proj1 (proj2 (@sanitizeParams_deep (VObj deep_params)
                         [js "hooks"; js "0"; js "auth"; js "Secret_Key"]
                         REDACTED H))).
Defined.

(** *** What the JSON text keeps *)

Lemma jsonify_object (o : obj) : jsonify (VObj o) = VObj (kept o).
Proof. reflexivity. Qed.

Lemma kept_cons (k : jsstring) (x : value) (o : obj) :
  kept ((k, x) :: o) =
  match x with
  | VUndefined => kept o
  | _ => (k, jsonify x) :: kept o
  end.
Proof. destruct x; reflexivity. Qed.

Lemma kept_keys (o : obj) (key : jsstring) :
  In key (map fst (kept o)) -> In key (map fst o).
Proof.
  induction o as [|[k x] o IH]; [intros []|].
  rewrite kept_cons. cbn [map fst].
  destruct x; cbn [map fst In]; intuition.
Qed.

(** A property of the text is a property of the object that is not
    [undefined]. *)
Lemma get_kept (o : obj) (key : jsstring) (w : value) :
  NoDup (map fst o) ->
  get_prop (kept o) key = Some w ->
  exists x, get_prop o key = Some x /\ x <> VUndefined /\ w = jsonify x.
Proof.
  induction o as [|[k x] o IH]; intros Hnd Hget; [discriminate|].
  cbn [map fst] in Hnd. inversion Hnd as [|? ? Hk Hnd']; subst.
  rewrite kept_cons in Hget. cbn [get_prop].
  destruct (JsString.eqb k key) eqn:E.
  - apply eqb_eq in E. subst k.
    assert (Hno : get_prop (kept o) key = None).
    { destruct (get_prop (kept o) key) as [y|] eqn:G; [|reflexivity].
      exfalso. apply Hk. apply kept_keys.
      clear - G. induction (kept o) as [|[k' y'] l IHl]; [discriminate|].
      cbn [get_prop] in G. cbn [map fst In].
      destruct (JsString.eqb k' key) eqn:E'.
      - left. now apply eqb_eq.
      - right. now apply IHl. }
    destruct x; cbn [get_prop] in Hget;
      try (rewrite eqb_refl in Hget; injection Hget as <-;
           eexists; split; [reflexivity|]; split; [discriminate | reflexivity]).
    rewrite Hno in Hget. discriminate.
  - destruct x; cbn [get_prop] in Hget; try rewrite E in Hget;
      now apply IH.
Qed.

Lemma jsonify_scalar (v : value) : is_object v = false -> jsonify v = v.
Proof. destruct v; intros H; try reflexivity; discriminate. Qed.

(** What can be reached in the text of a sanitized object can be
    reached in the object, and is what the text keeps of it. *)
Lemma reach_kept_sanitized (path : list jsstring) :
  forall (params : value) (w : value),
    reach (VObj (kept (sanitizeParams params))) path = Some w ->
    exists w0, reach (VObj (sanitizeParams params)) path = Some w0 /\
               w = jsonify w0.
Proof.
  induction path as [|k path IH]; intros params w Hreach.
  - cbn [reach] in Hreach. injection Hreach as <-.
    eexists. split; [reflexivity|]. reflexivity.
  - cbn [reach] in Hreach |- *.
    destruct (get_prop (kept (sanitizeParams params)) k) as [w1|] eqn:Hget;
      [|discriminate].
    destruct (@get_kept (sanitizeParams params) k w1
                        (sanitizeParams_NoDup params) Hget)
      as (x & Hx & Hdef & ->).
    rewrite Hx.
    destruct (@get_sanitizeParams params k x Hx) as (v & ->).
    destruct (sanitized_value_cases k v)
      as [(Hk & Hv) | [(Hk & Hobj & Hv) | (Hk & Hobj & Hv)]];
      rewrite Hv in *.
    + exists w. split; [exact Hreach|].
      destruct path; cbn [reach] in Hreach;
        [injection Hreach as <-; reflexivity | discriminate].
    + rewrite jsonify_object in Hreach. apply (IH v w Hreach).
    + rewrite (jsonify_scalar v Hobj) in Hreach.
      exists w. split; [exact Hreach|].
      destruct path as [|k' path].
      * cbn [reach] in Hreach. injection Hreach as <-.
        symmetry. now apply jsonify_scalar.
      * rewrite (@reach_scalar v k' path Hobj) in Hreach. discriminate.
Qed.

(** In the text of a sanitized object too, what is found under a
    matching key is the marker. *)
Lemma reach_kept_marker (params : value) (path : list jsstring)
      (key : jsstring) (w : value) :
  reach (VObj (kept (sanitizeParams params))) (path ++ [key]) = Some w ->
  redact_key key = true -> w = REDACTED.
Proof.
  intros Hreach Hkey.
  destruct (@reach_kept_sanitized (path ++ [key]) params w Hreach)
    as (w0 & Hreach0 & ->).
  destruct (@reach_sanitized (path ++ [key]) params w0 Hreach0) as (Hred & _).
  rewrite (Hred key path eq_refl Hkey). reflexivity.
Qed.

(** An object without [undefined] values and without nested objects
    is kept as it is. *)
Lemma kept_flat (o : obj) :
  Forall (fun kv => is_object (snd kv) = false /\ snd kv <> VUndefined) o ->
  kept o = o.
Proof.
  intros H. induction H as [|[k x] o [Hobj Hdef] _ IH]; [reflexivity|].
  rewrite kept_cons, IH. cbn [snd] in *.
  destruct x; try reflexivity; try discriminate. contradiction.
Qed.

(** X7: [logAuditEvent] keeps the lines already written and adds
    one; the line has the type [audit], the time, tool, outcome and
    duration of the event, and what the JSON text keeps of the
    parameters sanitized at every depth.  The error message is
    written as it is given, never sanitized, and left out when it is
    empty. *)
Theorem logAuditEvent_line (event : AuditEvent) (err : list AuditLine) :
  exists line,
    logAuditEvent event err = err ++ [line] /\
    line_type line = js "audit" /\
    line_timestamp line = timestamp event /\
    line_tool line = tool event /\
    line_success line = success event /\
    line_durationMs line = durationMs event /\
    (forall path key w,
        reach (VObj (line_parameters line)) (path ++ [key]) = Some w ->
        redact_key key = true -> w = REDACTED) /\
    (forall m, errorMessage event = Some m -> m <> [] ->
               line_errorMessage line = Some m) /\
    (errorMessage event = None \/ errorMessage event = Some [] ->
     line_errorMessage line = None).
Proof.
  eexists. split; [reflexivity|]. cbn.
  repeat (split; [reflexivity|]).
  split.
  { intros path key w Hreach Hkey.
    apply (@reach_kept_marker (VObj (parameters event)) path key w Hreach Hkey). }
  split.
  - intros m -> Hm. destruct m; [contradiction|reflexivity].
  - intros [-> | ->]; reflexivity.
Qed.

End RedactionFacts.

(** ** The handler wrapper *)

Module WrapperFacts.
Import AuditLogger AuditedHandler ApiClient RedactionFacts GatewaySpec GatewayFacts.
Import RedactionSpec.

(** X8: the wrapped handler returns or throws exactly what the
    handler does and leaves the handler's state as it is; after the
    lines of the handler it writes one line more, for a result and
    for an exception alike, with the tool name, the outcome, the
    time the handler took, the message of the exception, and what
    the JSON text keeps of the parameters sanitized at every depth.
    A handler that never settles gets no line. *)
Theorem createAuditedHandler_logs_once
        (S R : Type) (toolName : jsstring)
        (handler : obj -> S * Runtime -> option (outcome R * (S * Runtime)))
        (params : obj) (st : S * Runtime) :
  (handler params st = None ->
   createAuditedHandler toolName handler params st = None) /\
  (forall r st',
      handler params st = Some (r, st') ->
      exists line,
        createAuditedHandler toolName handler params st =
        Some (r, (fst st',
                  {| clock := clock (snd st');
                     stderr := stderr (snd st') ++ [line] |})) /\
        line_tool line = toolName /\
        line_timestamp line = clock (snd st') /\
        line_durationMs line = clock (snd st') - clock (snd st) /\
        line_success line = is_return r /\
        line_errorMessage line = spread_message (error_summary r) /\
        line_parameters line = kept (sanitizeParams (VObj params)) /\
        (forall path key w,
            reach (VObj (line_parameters line)) (path ++ [key]) = Some w ->
            redact_key key = true -> w = REDACTED)).
Proof.
  split.
  - intros H. unfold createAuditedHandler. rewrite H. reflexivity.
  - intros r st' H. unfold createAuditedHandler. rewrite H.
    eexists. split; [reflexivity|].
    destruct r as [a|e]; cbn;
      (repeat (split; [reflexivity|]));
      intros path key w Hreach Hkey;
      apply (@reach_kept_marker (VObj params) path key w Hreach Hkey).
Qed.

End WrapperFacts.

(** ** The credential store: what comes back *)

Module CredentialFacts.
Import Buffer BufferSpec BufferFacts ApiClient VaultSpec VaultFacts.
Import BufferSpec VaultSpec CredentialSpec.

Lemma utf16_of_unit (c : Z) : c <= 65535 -> utf16_of_cp c = [c].
Proof.
  intros H. unfold utf16_of_cp.
  destruct (c <? 65536) eqn:E; [reflexivity|].
  apply Z.ltb_ge in E. lia.
Qed.

Lemma toWellFormed_cons (cp : Z) (s : jsstring) (cps : list Z) :
  code_points s = cp :: cps ->
  toWellFormed s = utf16_of_cp cp ++ flat_map utf16_of_cp cps.
Proof. intros H. unfold toWellFormed. rewrite H. reflexivity. Qed.

Lemma well_formed_replacement (s : jsstring) :
  well_formed (65533 :: s) = well_formed s.
Proof. reflexivity. Qed.

Lemma code_points_facts (n : nat) :
  forall s : jsstring,
    (List.length s <= n)%nat -> units_ok s ->
    Forall scalar (code_points s) /\
    well_formed (toWellFormed s) = true /\
    (toWellFormed s = s -> well_formed s = true).
Proof.
  induction n as [|n IH]; intros s Hlen Hu.
  - destruct s; [|simpl in Hlen; lia].
    split; [constructor | split; reflexivity].
  - destruct s as [|c s]; [split; [constructor | split; reflexivity]|].
    inversion Hu as [|? ? Hc Hu']; subst.
    unfold toWellFormed. cbn [code_points well_formed].
    assert (Hc0 : (0 <=? c) = true) by (apply Z.leb_le; lia).
    assert (Hc1 : (c <=? 65535) = true) by (apply Z.leb_le; lia).
    rewrite Hc0, Hc1. cbn [andb].
    destruct (is_high c) eqn:Hh.
    + pose proof Hh as Hhb. apply is_high_iff in Hh.
      destruct s as [|d s].
      * split; [repeat constructor; unfold scalar; lia|].
        split; [reflexivity|].
        cbn. intros H. injection H as H. lia.
      * destruct (is_low d) eqn:Hl.
        -- pose proof Hl as Hlb. apply is_low_iff in Hl.
           inversion Hu' as [|? ? Hd Hu'']; subst.
           destruct (IH s) as (Hsc & Hwf & Hback);
             [simpl in *; lia | exact Hu'' |].
           split; [constructor; [unfold scalar; lia | exact Hsc]|].
           cbn [flat_map]. rewrite utf16_of_pair by assumption.
           cbn [app well_formed].
           assert (Hd0 : (0 <=? c) = true) by (apply Z.leb_le; lia).
           rewrite Hc0, Hc1, Hhb, Hlb. cbn [andb].
           split; [exact Hwf|].
           intros H. injection H as H. apply Hback. exact H.
        -- destruct (IH (d :: s)) as (Hsc & Hwf & Hback);
             [simpl in *; lia | exact Hu' |].
           split; [constructor; [unfold scalar; lia | exact Hsc]|].
           cbn [flat_map].
           change (utf16_of_cp 65533) with [65533]. cbn [app].
           rewrite well_formed_replacement.
           split; [exact Hwf|].
           intros H. injection H as H _. lia.
    + destruct (is_low c) eqn:Hl.
      * pose proof Hl as Hlb. apply is_low_iff in Hl.
        destruct (IH s) as (Hsc & Hwf & Hback);
          [simpl in *; lia | exact Hu' |].
        split; [constructor; [unfold scalar; lia | exact Hsc]|].
        cbn [flat_map].
        change (utf16_of_cp 65533) with [65533]. cbn [app].
        rewrite well_formed_replacement.
        split; [exact Hwf|].
        intros H. injection H as H _. lia.
      * assert (Hnh : ~ 55296 <= c <= 56319).
        { intros H. apply is_high_iff in H. congruence. }
        assert (Hnl : ~ 56320 <= c <= 57343).
        { intros H. apply is_low_iff in H. congruence. }
        destruct (IH s) as (Hsc & Hwf & Hback);
          [simpl in *; lia | exact Hu' |].
        split; [constructor; [unfold scalar; lia | exact Hsc]|].
        cbn [flat_map]. rewrite utf16_of_unit by lia.
        cbn [app well_formed].
        rewrite Hc0, Hc1, Hh, Hl. cbn [andb negb].
        split; [exact Hwf|].
        intros H. injection H as H. apply Hback. exact H.
Qed.

Lemma utf8_there_and_back (s : jsstring) :
  units_ok s -> to_utf8_string (from_utf8 s) = toWellFormed s.
Proof.
  intros Hu.
  destruct (@code_points_facts (List.length s) s (le_n _) Hu) as (Hsc & _).
  unfold to_utf8_string, from_utf8, toWellFormed.
  rewrite <- (app_nil_r (flat_map encode_cp (code_points s))).
  rewrite decode_encode by exact Hsc.
  cbn [decode_cps dec_needed dec_init]. now rewrite app_nil_r.
Qed.

Lemma getToken_client_of (randomBytes : nat -> Buffer.t) (secret : jsstring)
      (now : Z) :
  mask_ok randomBytes -> units_ok secret ->
  getToken_run (client_of randomBytes secret now) =
  (toWellFormed secret, alloc (List.length (from_utf8 secret))) /\
  List.length (obfuscatedToken (client_of randomBytes secret now)) =
  List.length (from_utf8 secret) /\
  List.length (tokenXorKey (client_of randomBytes secret now)) =
  List.length (from_utf8 secret).
Proof.
  intros Hmask Hu.
  destruct (@obfuscated_bytes randomBytes secret now Hmask Hu)
    as (Hlk & Hlo & _ & _ & Hback).
  fold (client_of randomBytes secret now) in Hlk, Hlo, Hback.
  split; [|split; [exact Hlo | exact Hlk]].
  rewrite <- (@utf8_there_and_back secret Hu).
  apply getToken_bytes.
  - rewrite Hlk, Hlo. reflexivity.
  - symmetry. exact Hlo.
  - apply from_utf8_bytes. exact Hu.
  - exact Hback.
Qed.

(** X9: whatever the random mask, [getToken] returns the token the
    client was made from with every unpaired surrogate replaced by
    U+FFFD: the token itself exactly when it is well formed, and
    always a well-formed string; the two buffers the client keeps
    have the length of the token in UTF-8; and a client made from
    the returned string returns it again. *)
Theorem getToken_exact (randomBytes : nat -> Buffer.t) (secret : jsstring)
        (now : Z) :
  mask_ok randomBytes -> units_ok secret ->
  getToken (client_of randomBytes secret now) = toWellFormed secret /\
  (getToken (client_of randomBytes secret now) = secret <->
   well_formed secret = true) /\
  well_formed (getToken (client_of randomBytes secret now)) = true /\
  List.length (obfuscatedToken (client_of randomBytes secret now)) =
  List.length (from_utf8 secret) /\
  List.length (tokenXorKey (client_of randomBytes secret now)) =
  List.length (from_utf8 secret) /\
  (forall now',
      getToken (client_of randomBytes
                          (getToken (client_of randomBytes secret now)) now') =
      getToken (client_of randomBytes secret now)).
Proof.
  intros Hmask Hu.
  destruct (@getToken_client_of randomBytes secret now Hmask Hu)
    as (Hrun & Hlo & Hlk).
  destruct (@code_points_facts (List.length secret) secret (le_n _) Hu)
    as (_ & Hwf & Hback).
  assert (Hget : getToken (client_of randomBytes secret now) = toWellFormed secret)
    by (unfold getToken; rewrite Hrun; reflexivity).
  rewrite Hget.
  split; [reflexivity|].
  split.
  { split; [exact Hback|].
    intros H.
    apply (@code_points_well_formed (List.length secret) secret (le_n _) H). }
  split; [exact Hwf|].
  split; [exact Hlo|].
  split; [exact Hlk|].
  intros now'.
  pose proof (@well_formed_units (toWellFormed secret) Hwf) as Hu'.
  destruct (@getToken_client_of randomBytes (toWellFormed secret) now' Hmask Hu')
    as (Hrun' & _).
  unfold getToken. rewrite Hrun'. cbn [fst].
  apply (@code_points_well_formed (List.length (toWellFormed secret))
           (toWellFormed secret) (le_n _) Hwf).
Qed.

Lemma getToken_exact_witness :
  getToken (client_of fixed_mask [99; 55296; 102] 0) = [99; 65533; 102] /\
  List.length (obfuscatedToken (client_of fixed_mask [99; 55296; 102] 0)) = 5%nat.
Proof.
  assert (Hu : units_ok [99; 55296; 102])
    by (repeat constructor; lia).
  destruct (@getToken_exact fixed_mask [99; 55296; 102] 0 fixed_mask_ok Hu)
    as (Hget & _ & _ & Hlen & _).
  split; [exact Hget | exact Hlen].
Defined.

End CredentialFacts.

(** ** The start of the server *)

Module StartupFacts.
Import Buffer BufferSpec BufferFacts ApiClient VaultSpec VaultFacts CredentialFacts Server.
Import VaultSpec CredentialSpec.

(** X10: the server stops at once with exit code 1 exactly when the
    environment gives no token or an empty one.  Otherwise it runs
    with one client, made from that token, whose limiter is full
    with 100 tokens and refills 10 a second, and which hands the
    token back whenever a request asks for it, if the token is a
    well-formed string. *)
Theorem start_needs_token (randomBytes : nat -> Buffer.t) (token : option jsstring)
        (now : Z) :
  ((exists message, start randomBytes token now = Exit 1 message) <->
   token = None \/ token = Some []) /\
  (forall apiToken,
      token = Some apiToken -> apiToken <> [] ->
      start randomBytes token now = Running (client_of randomBytes apiToken now) /\
      rateLimiter (client_of randomBytes apiToken now) =
      RateLimiter.create (Double.Fin 100) (Double.Fin 10) now /\
      (mask_ok randomBytes -> well_formed apiToken = true ->
       getToken (client_of randomBytes apiToken now) = apiToken)).
Proof.
  split.
  - split.
    + intros [message H]. destruct token as [[|c s]|]; cbn in H;
        [right; reflexivity | discriminate | left; reflexivity].
    + intros [-> | ->]; eexists; reflexivity.
  - intros apiToken -> Hne.
    destruct apiToken as [|c s]; [contradiction|].
    split; [reflexivity|]. split; [reflexivity|].
    intros Hmask Hwf.
    pose proof (@well_formed_units (c :: s) Hwf) as Hu.
    destruct (@getToken_client_of randomBytes (c :: s) now Hmask Hu) as (Hrun & _).
    unfold getToken. rewrite Hrun. cbn [fst].
    apply (@code_points_well_formed (List.length (c :: s)) (c :: s) (le_n _) Hwf).
Qed.

End StartupFacts.

(** ** The endpoint methods and the tools *)

Module EndpointFacts.
Import AuditLogger AuditLoggerSpec AuditLoggerFacts JsStringFacts ApiClient Endpoints.
Import GatewaySpec GatewayFacts.
Import AuditLoggerSpec EndpointSpec.

Lemma copy_string_filter (name : string) (f : option jsstring) (q : obj) :
  copy_string name f q = copy_filter q (js name, string_filter f).
Proof. destruct f as [[|c s]|]; reflexivity. Qed.

Lemma copy_number_filter (name : string) (f : option Z) (q : obj) :
  copy_number name f q = copy_filter q (js name, number_filter f).
Proof.
  destruct f as [n|]; [|reflexivity].
  unfold copy_number, copy_filter, number_filter. cbn [snd fst].
  destruct (n =? 0); reflexivity.
Qed.

Lemma audit_log_query_fold (p : AuditLogFilter) :
  audit_log_query (Some p) = fold_left copy_filter (upstream_filters p) [].
Proof.
  unfold audit_log_query.
  rewrite !copy_number_filter, !copy_string_filter. reflexivity.
Qed.

Lemma present_keys (l : list (jsstring * option value)) :
  incl (map fst (flat_map present l)) (map fst l).
Proof.
  induction l as [|[k [v|]] l IH]; cbn; intros x Hx.
  - exact Hx.
  - destruct Hx as [<- | Hx]; [left; reflexivity | right; apply IH; exact Hx].
  - right. apply IH. exact Hx.
Qed.

Lemma present_NoDup (l : list (jsstring * option value)) :
  NoDup (map fst l) -> NoDup (map fst (flat_map present l)).
Proof.
  induction l as [|[k [v|]] l IH]; cbn; intros H.
  - constructor.
  - inversion H as [|? ? Hk Hl]; subst.
    constructor; [|apply IH; exact Hl].
    intros Hin. apply Hk. apply (@present_keys l). exact Hin.
  - inversion H as [|? ? Hk Hl]; subst. apply IH. exact Hl.
Qed.

Lemma copy_filter_fold (l : list (jsstring * option value)) :
  forall acc : obj,
    NoDup (map fst acc ++ map fst l) ->
    fold_left copy_filter l acc = acc ++ flat_map present l.
Proof.
  induction l as [|[k [v|]] l IH]; intros acc H; cbn [fold_left flat_map].
  - now rewrite app_nil_r.
  - unfold copy_filter at 2. cbn [fst snd present app].
    cbn [map fst] in H.
    rewrite put_prop_fresh.
    + rewrite IH.
      * now rewrite <- app_assoc.
      * rewrite map_app. cbn [map fst]. rewrite <- app_assoc. exact H.
    + intros Hin. apply NoDup_remove_2 in H. apply H.
      apply in_or_app. left. exact Hin.
  - unfold copy_filter at 2. cbn [fst snd present app].
    apply IH. cbn [map fst] in H. apply NoDup_remove_1 in H. exact H.
Qed.

Lemma upstream_names (p : AuditLogFilter) :
  map fst (upstream_filters p) =
  [ js "since"; js "before"; js "actor.email"; js "actor.ip";
    js "action.type"; js "zone.name"; js "per_page"; js "page" ].
Proof. reflexivity. Qed.

Lemma upstream_names_NoDup (p : AuditLogFilter) :
  NoDup (map fst (upstream_filters p)).
Proof.
  rewrite upstream_names.
  repeat (constructor;
          [intros Hin; cbn [In] in Hin;
           repeat (destruct Hin as [Hin | Hin]; [vm_compute in Hin; discriminate|]);
           exact Hin|]).
  constructor.
Qed.

Lemma upstream_names_clear (p : AuditLogFilter) :
  Forall (fun k => redact_key k = false) (map fst (upstream_filters p)).
Proof. rewrite upstream_names. repeat constructor. Qed.

Lemma upstream_names_own (p : AuditLogFilter) :
  Forall (fun k => k <> PROTO) (map fst (upstream_filters p)).
Proof. rewrite upstream_names. repeat constructor; discriminate. Qed.

Lemma filter_values (p : AuditLogFilter) :
  Forall (fun kv => is_object (snd kv) = false /\ snd kv <> VUndefined)
         (flat_map present (upstream_filters p)).
Proof.
  assert (Hs : forall f v, string_filter f = Some v ->
                           is_object v = false /\ v <> VUndefined).
  { intros [[|c s]|] v H; try discriminate. injection H as <-.
    split; [reflexivity | discriminate]. }
  assert (Hn : forall f v, number_filter f = Some v ->
                           is_object v = false /\ v <> VUndefined).
  { intros [n|] v H; [|discriminate]. unfold number_filter in H.
    destruct (n =? 0); [discriminate|]. injection H as <-.
    split; [reflexivity | discriminate]. }
  unfold upstream_filters. cbn [flat_map].
  repeat (apply Forall_app; split;
          [unfold present; cbn [fst snd];
           match goal with
           | |- context [string_filter ?f] =>
               destruct (string_filter f) eqn:E;
               [constructor; [apply (Hs _ _ E) | constructor] | constructor]
           | |- context [number_filter ?f] =>
               destruct (number_filter f) eqn:E;
               [constructor; [apply (Hn _ _ E) | constructor] | constructor]
           end|]).
  constructor.
Qed.

Lemma filter_entries_facts (params : option AuditLogFilter) :
  audit_log_query params = filter_entries params /\
  NoDup (map fst (filter_entries params)) /\
  search_params (Some (filter_entries params)) = filter_entries params /\
  sanitizeParams (VObj (filter_entries params)) = filter_entries params /\
  kept (filter_entries params) = filter_entries params.
Proof.
  destruct params as [p|]; [|repeat split; constructor].
  cbn [filter_entries].
  pose proof (upstream_names_NoDup p) as Hnd.
  pose proof (@present_NoDup (upstream_filters p) Hnd) as Hnd'.
  pose proof (filter_values p) as Hv.
  split.
  { rewrite audit_log_query_fold. rewrite copy_filter_fold; [reflexivity|].
    exact Hnd. }
  split; [exact Hnd'|].
  split.
  { unfold search_params. apply forallb_filter_id. apply forallb_forall.
    intros kv Hin. rewrite Forall_forall in Hv. destruct (Hv kv Hin) as [_ H].
    destruct (snd kv); try reflexivity. contradiction. }
  split; [|apply RedactionFacts.kept_flat; exact Hv].
  apply sanitizeParams_settled; [|exact Hnd'].
  apply Forall_forall. intros kv Hin.
  rewrite Forall_forall in Hv. destruct (Hv kv Hin) as [Hobj _].
  assert (Hname : In (fst kv) (map fst (upstream_filters p))).
  { apply (@present_keys (upstream_filters p)). apply in_map. exact Hin. }
  assert (Hk : redact_key (fst kv) = false).
  { pose proof (upstream_names_clear p) as Hc. rewrite Forall_forall in Hc.
    apply Hc. exact Hname. }
  split.
  - pose proof (upstream_names_own p) as Hc. rewrite Forall_forall in Hc.
    apply Hc. exact Hname.
  - unfold sanitized_value. rewrite Hk, Hobj. reflexivity.
Qed.

Lemma getAuditLogs_filters_eq (wake : Z -> Z -> Z) (fuel : nat)
      (upstream : HttpRequest -> NetReply CloudflareResponse)
      (accountId : jsstring) (params : option AuditLogFilter) :
  getAuditLogs wake fuel upstream accountId params =
  request wake fuel upstream (js "GET")
          (js "/accounts/" ++ accountId ++ js "/audit_logs")
          (Some (filter_entries params)).
Proof.
  destruct (filter_entries_facts params) as (Hq & _).
  unfold getAuditLogs. rewrite Hq. reflexivity.
Qed.

(** X11: [getAuditLogs] forwards a filter exactly when it is a
    non-empty string or a non-zero number, under the dotted name of
    the upstream API, in a fixed order and each name once; everything
    it builds is appended to the query of the address; and the audit
    line shows these filters in full, since none of their names is
    redacted and none of their values is left out of the text.
    The call is a [GET] of the audit log path of the account. *)
Theorem getAuditLogs_filters (wake : Z -> Z -> Z) (fuel : nat)
        (upstream : HttpRequest -> NetReply CloudflareResponse)
        (accountId : jsstring) (params : option AuditLogFilter) :
  getAuditLogs wake fuel upstream accountId params =
  request wake fuel upstream (js "GET")
          (js "/accounts/" ++ accountId ++ js "/audit_logs")
          (Some (filter_entries params)) /\
  NoDup (map fst (filter_entries params)) /\
  search_params (Some (filter_entries params)) = filter_entries params /\
  sanitizeParams (VObj (filter_entries params)) = filter_entries params /\
  kept (sanitizeParams (VObj (filter_entries params))) = filter_entries params /\
  (forall p, params = Some p ->
             get_prop (filter_entries params) (js "since") = string_filter (since p) /\
             get_prop (filter_entries params) (js "before") = string_filter (before p) /\
             get_prop (filter_entries params) (js "actor.email") =
             string_filter (actor_email p) /\
             get_prop (filter_entries params) (js "actor.ip") =
             string_filter (actor_ip p) /\
             get_prop (filter_entries params) (js "action.type") =
             string_filter (action_type p) /\
             get_prop (filter_entries params) (js "zone.name") =
             string_filter (zone_name p) /\
             get_prop (filter_entries params) (js "per_page") =
             number_filter (Endpoints.per_page p) /\
             get_prop (filter_entries params) (js "page") =
             number_filter (Endpoints.page p)) /\
  (forall key v, get_prop (filter_entries params) key = Some v ->
                 In key [ js "since"; js "before"; js "actor.email"; js "actor.ip";
                          js "action.type"; js "zone.name"; js "per_page";
                          js "page" ]).
Proof.
  destruct (filter_entries_facts params) as (Hq & Hnd & Hsent & Hlog & Hkept).
  split; [unfold getAuditLogs; rewrite Hq; reflexivity|].
  split; [exact Hnd|]. split; [exact Hsent|]. split; [exact Hlog|].
  split; [rewrite Hlog; exact Hkept|].
  split.
  - intros p ->. cbn [filter_entries upstream_filters flat_map present fst snd].
    destruct (string_filter (since p)), (string_filter (before p)),
      (string_filter (actor_email p)), (string_filter (actor_ip p)),
      (string_filter (action_type p)), (string_filter (zone_name p)),
      (number_filter (Endpoints.per_page p)), (number_filter (Endpoints.page p));
      repeat split; reflexivity.
  - intros key v Hget.
    destruct params as [p|]; [|discriminate].
    rewrite <- (upstream_names p).
    apply (@present_keys (upstream_filters p)).
    cbn [filter_entries] in Hget.
    clear - Hget. induction (flat_map present (upstream_filters p)) as [|[k w] l IH];
      [discriminate|].
    cbn [get_prop] in Hget. cbn [map fst].
    destruct (JsString.eqb k key) eqn:E.
    + left. apply eqb_eq. exact E.
    + right. apply IH. exact Hget.
Qed.

End EndpointFacts.

(** ** The tool handlers *)

Module ToolFacts.
Import AuditLogger ApiClient Endpoints Server GatewaySpec GatewayFacts EndpointFacts.
Import GatewaySpec EndpointSpec ToolSpec.

Lemma tool_of_request (wake : Z -> Z -> Z) (fuel : nat)
      (upstream : HttpRequest -> NetReply CloudflareResponse)
      (stringify : CloudflareResponse -> jsstring)
      (endpoint : jsstring) (params : option obj)
      (c : CloudflareClient) (rt : Runtime) (startTime : Z) (limiter : RateLimiter.t) :
  RateLimiter.acquire wake fuel (clock rt) (rateLimiter c) = Some (startTime, limiter) ->
  tool stringify (request wake fuel upstream (js "GET") endpoint params) (c, rt) =
  Some (relay stringify
              (request_try
                 (answer (upstream (request_sent (js "GET") endpoint params
                                                 (with_limiter c limiter))))),
        (with_limiter c limiter,
         {| clock := startTime +
                     latency (upstream (request_sent (js "GET") endpoint params
                                                     (with_limiter c limiter)));
            stderr :=
              stderr rt ++
              [audit_line
                 (js "GET" ++ js " " ++ endpoint) (params_or_empty params) startTime
                 (startTime +
                  latency (upstream (request_sent (js "GET") endpoint params
                                                  (with_limiter c limiter))))
                 (request_try
                    (answer (upstream (request_sent (js "GET") endpoint params
                                                    (with_limiter c limiter)))))] |})).
Proof.
  intros Hacq. unfold tool. cbn [fst snd].
  rewrite (@request_admitted wake fuel upstream (js "GET") endpoint params c rt
                             startTime limiter Hacq).
  cbv zeta.
  destruct (request_try
              (answer (upstream (request_sent (js "GET") endpoint params
                                              (with_limiter c limiter)))));
    reflexivity.
Qed.

(** X12: a tool of the server makes one [GET] request through the
    client and nothing else.  Once the limiter has admitted the
    call, it hands back the envelope of a successful answer as one
    text item; it does not catch what the request throws, so the
    safe error of a failed envelope and the error of a failed
    transfer reach the protocol layer unchanged; and in each case
    the one audit line of the request is written.  The tools for
    accounts, members and audit logs differ only in the path and in
    the parameters. *)
Theorem tools_relay (wake : Z -> Z -> Z) (fuel : nat)
        (upstream : HttpRequest -> NetReply CloudflareResponse)
        (stringify : CloudflareResponse -> jsstring)
        (c : CloudflareClient) (rt : Runtime) :
  served wake fuel c rt ->
  exists startTime limiter,
    RateLimiter.acquire wake fuel (clock rt) (rateLimiter c) =
    Some (startTime, limiter) /\
    clock rt <= startTime /\
    (forall endpoint params,
        let reply := upstream (request_sent (js "GET") endpoint params
                                            (with_limiter c limiter)) in
        tool stringify (request wake fuel upstream (js "GET") endpoint params) (c, rt) =
        Some (relay stringify (request_try (answer reply)),
              (with_limiter c limiter,
               {| clock := startTime + latency reply;
                  stderr :=
                    stderr rt ++
                    [audit_line (js "GET" ++ js " " ++ endpoint)
                                (params_or_empty params) startTime
                                (startTime + latency reply)
                                (request_try (answer reply))] |})) /\
        (forall data,
            answer reply = Json data -> success data = true ->
            relay stringify (request_try (answer reply)) =
            Return (text_result stringify data)) /\
        (forall data,
            answer reply = Json data -> success data = false ->
            relay stringify (request_try (answer reply)) =
            Throw (ErrorObj (safe_error_message (map code (errors data))))) /\
        (forall e,
            answer reply = FetchRejects e \/ answer reply = JsonRejects e ->
            relay stringify (request_try (answer reply)) = Throw e)) /\
    list_accounts wake fuel upstream stringify =
    tool stringify (request wake fuel upstream (js "GET") (js "/accounts") None) /\
    (forall account_id,
        get_account wake fuel upstream stringify account_id =
        tool stringify (request wake fuel upstream (js "GET")
                                (js "/accounts/" ++ account_id) None)) /\
    (forall account_id,
        list_account_members wake fuel upstream stringify account_id =
        tool stringify (request wake fuel upstream (js "GET")
                                (js "/accounts/" ++ account_id ++ js "/members")
                                None)) /\
    (forall account_id filters,
        get_audit_logs wake fuel upstream stringify account_id filters =
        tool stringify (request wake fuel upstream (js "GET")
                                (js "/accounts/" ++ account_id ++ js "/audit_logs")
                                (Some (filter_entries (Some filters))))).
Proof.
  intros Hserved.
  destruct (@served_admitted wake fuel c rt Hserved)
    as (startTime & limiter & Hacq & Hle).
  exists startTime, limiter.
  split; [exact Hacq|]. split; [exact Hle|].
  split.
  { intros endpoint params reply.
    split; [apply tool_of_request; exact Hacq|].
    split.
    - intros data Ha Hs. rewrite Ha. unfold request_try. rewrite Hs. reflexivity.
    - split.
      + intros data Ha Hs. rewrite Ha.
        rewrite (@request_try_failure data Hs). reflexivity.
      + intros e [Ha | Ha]; rewrite Ha; reflexivity. }
  split; [reflexivity|]. split; [reflexivity|]. split; [reflexivity|].
  intros account_id filters. unfold get_audit_logs.
  rewrite (@getAuditLogs_filters_eq wake fuel upstream account_id (Some filters)).
  reflexivity.
Qed.

Lemma tools_relay_witness :
  exists st,
    list_accounts RateLimiter.punctual 1
                  (stub (failed_envelope (js "zone 1a2b is locked")))
                  (fun _ => js "{}") (example_client, example_runtime) =
    Some (Throw (ErrorObj (js "Cloudflare API error: Forbidden - insufficient permissions")),
          st) /\
    List.length (stderr (snd st)) = 1%nat.
Proof.
  destruct (@tools_relay RateLimiter.punctual 1
                         (stub (failed_envelope (js "zone 1a2b is locked")))
                         (fun _ => js "{}") example_client example_runtime
                         example_served)
    as (startTime & limiter & _ & _ & Hrun & Hlist & _).
  destruct (Hrun (js "/accounts") None) as (Heq & _ & Hfail & _).
  rewrite Hlist, Heq.
  rewrite (Hfail (failed_envelope (js "zone 1a2b is locked")) eq_refl eq_refl).
  eexists. split; [reflexivity|].
  cbn [snd stderr example_runtime app List.length]. reflexivity.
Defined.

End ToolFacts.

(** ** Requests: outcomes, the credential, the size of an error *)

Module RequestFacts.
Import AuditLogger ApiClient RateLimiterSpec RateLimiterFacts.
Import BufferSpec BufferFacts VaultSpec VaultFacts GatewaySpec GatewayFacts.
Import CredentialFacts.
Import RateLimiterSpec VaultSpec GatewaySpec CredentialSpec RequestSpec.

Lemma getToken_with_limiter (c : CloudflareClient) (l : RateLimiter.t) :
  getToken (with_limiter c l) = getToken c.
Proof. reflexivity. Qed.




(** X14: a client made from a well-formed token sends that token,
    after the word [Bearer], in the authorization header of every
    request, whatever the random mask was; the address is parsed
    from the API base followed by the endpoint as it was given; the
    parameters that are defined, and no others, are appended to its
    query in their order, redacted or not in the log; and no body is
    sent. *)
Theorem request_carries_token (randomBytes : nat -> Buffer.t)
        (wake : Z -> Z -> Z) (fuel : nat)
        (upstream : HttpRequest -> NetReply CloudflareResponse)
        (method endpoint : jsstring) (params : option obj)
        (secret : jsstring) (created : Z) (rt : Runtime) :
  mask_ok randomBytes ->
  Buffer.well_formed secret = true ->
  served wake fuel (client_of randomBytes secret created) rt ->
  exists startTime c' line,
    let req := {| http_method := method;
                  url_text := CF_API_BASE ++ endpoint;
                  url_appended := search_params params;
                  http_authorization := js "Bearer " ++ secret;
                  http_body := None |} in
    request wake fuel upstream method endpoint params
            (client_of randomBytes secret created) rt =
    Some (request_try (answer (upstream req)), c',
          {| clock := startTime + latency (upstream req);
             stderr := stderr rt ++ [line] |}) /\
    getToken c' = secret /\
    line_tool line = method ++ js " " ++ endpoint /\
    line_parameters line =
    kept (sanitizeParams (VObj (params_or_empty params))) /\
    url_appended req =
    filter (fun kv => match snd kv with VUndefined => false | _ => true end)
           (params_or_empty params) /\
    (forall key v, In (key, v) (url_appended req) <->
                   In (key, v) (params_or_empty params) /\ v <> VUndefined).
Proof.
  intros Hmask Hwf Hserved.
  pose proof (@well_formed_units secret Hwf) as Hu.
  destruct (@getToken_client_of randomBytes secret created Hmask Hu) as (Hrun & _).
  assert (Hget : getToken (client_of randomBytes secret created) = secret).
  { unfold getToken. rewrite Hrun. cbn [fst].
    apply (@code_points_well_formed (List.length secret) secret (le_n _) Hwf). }
  destruct (@served_admitted wake fuel _ rt Hserved)
    as (startTime & limiter & Hacq & Hle).
  pose proof (@request_admitted wake fuel upstream method endpoint params _ rt
                                startTime limiter Hacq) as Hreq.
  cbv zeta in Hreq.
  unfold request_sent in Hreq. rewrite getToken_with_limiter, Hget in Hreq.
  exists startTime, (with_limiter (client_of randomBytes secret created) limiter).
  eexists. cbv zeta.
  split; [exact Hreq|].
  split; [rewrite getToken_with_limiter; exact Hget|].
  split; [reflexivity|]. split; [reflexivity|].
  split; [destruct params; reflexivity|].
  intros key v. cbn [url_appended].
  destruct params as [ps|]; cbn [search_params params_or_empty].
  - rewrite filter_In. cbn [snd].
    split; intros [Hin Hv]; (split; [exact Hin|]).
    + intros ->. discriminate.
    + destruct v; try reflexivity. contradiction.
  - split; [contradiction | intros [[] _]].
Qed.

Lemma request_carries_token_witness :
  exists run,
    request RateLimiter.punctual 1
            (fun req => {| latency := 5;
                           answer := FetchRejects
                                       (ErrorObj (http_authorization req)) |})
            (js "GET") (js "/zones") None
            (client_of fixed_mask (js "cf-token-1") 0) example_runtime = Some run /\
    fst (fst run) = Throw (ErrorObj (js "Bearer cf-token-1")).
Proof.
  destruct (@request_carries_token
              fixed_mask RateLimiter.punctual 1
              (fun req => {| latency := 5;
                             answer := FetchRejects
                                         (ErrorObj (http_authorization req)) |})
              (js "GET") (js "/zones") None (js "cf-token-1") 0 example_runtime
              fixed_mask_ok eq_refl example_served)
    as (startTime & c' & line & Hrun & _).
  cbv zeta in Hrun.
  eexists. split; [exact Hrun | reflexivity].
Defined.

Lemma join_width (l : list jsstring) :
  (List.length (JsString.join (js "; ") l) <= width l - 2)%nat.
Proof.
  unfold width.
  assert (Hc : forall a w, list_sum (a :: w) = (a + list_sum w)%nat)
    by reflexivity.
  induction l as [|x l IH]; [cbn; lia|].
  destruct l as [|y l]; [cbn; lia|].
  change (JsString.join (js "; ") (x :: y :: l))
    with (x ++ js "; " ++ JsString.join (js "; ") (y :: l)).
  rewrite !length_app.
  change (List.length (js "; ")) with 2%nat.
  set (rest := JsString.join (js "; ") (y :: l)) in *.
  cbn [map] in *. rewrite !Hc in *. lia.
Qed.

Lemma sum_sub {A} (f : A -> nat) (l : list A) :
  NoDup l -> forall L, incl l L -> (list_sum (map f l) <= list_sum (map f L))%nat.
Proof.
  induction 1 as [|x l Hx Hnd IH]; intros L Hincl; [cbn; lia|].
  assert (Hin : In x L) by (apply Hincl; left; reflexivity).
  destruct (in_split x L Hin) as (L1 & L2 & ->).
  assert (Hincl' : incl l (L1 ++ L2)).
  { intros y Hy.
    assert (Hy' : In y (L1 ++ x :: L2)) by (apply Hincl; right; exact Hy).
    apply in_app_or in Hy'. apply in_or_app.
    destruct Hy' as [Hy' | [-> | Hy']];
      [left; exact Hy' | contradiction | right; exact Hy']. }
  specialize (IH _ Hincl').
  rewrite map_app, list_sum_app in IH.
  rewrite map_app, list_sum_app.
  assert (Hc : forall a w, list_sum (a :: w) = (a + list_sum w)%nat)
    by reflexivity.
  cbn [map]. rewrite !Hc. lia.
Qed.

Lemma width_sub (l : list jsstring) :
  NoDup l -> forall L, incl l L -> (width l <= width L)%nat.
Proof. intros Hnd L Hincl. unfold width. apply sum_sub; assumption. Qed.

(** X15: however many errors the upstream reports and whatever they
    say, the error that [request] raises names at most eight
    messages, each one once, and is at most 239 code units long, a length that eight different
    messages reach. *)
Theorem error_message_bounded (data : CloudflareResponse) :
  success data = false ->
  exists names,
    request_try (Json data) =
    Throw (ErrorObj (js "Cloudflare API error: " ++ JsString.join (js "; ") names)) /\
    NoDup names /\ incl names SAFE_STRINGS /\
    (List.length names <= 8)%nat /\
    (List.length (js "Cloudflare API error: " ++ JsString.join (js "; ") names)
     <= 239)%nat.
Proof.
  intros Hs.
  exists (unique (map safe_message (map code (errors data)))).
  destruct (unique_spec (map safe_message (map code (errors data)))) as (Hnd & Hin).
  assert (Hincl : incl (unique (map safe_message (map code (errors data))))
                       SAFE_STRINGS).
  { intros m Hm. apply Hin in Hm. apply in_map_iff in Hm.
    destruct Hm as (k & <- & _). apply safe_message_fixed. }
  split; [rewrite (@request_try_failure data Hs); reflexivity|].
  split; [exact Hnd|]. split; [exact Hincl|].
  split.
  - apply (NoDup_incl_length Hnd Hincl).
  - rewrite length_app.
    pose proof (join_width (unique (map safe_message (map code (errors data)))))
      as Hw.
    pose proof (@width_sub _ Hnd SAFE_STRINGS Hincl) as Hsub.
    change (width SAFE_STRINGS) with 219%nat in Hsub.
    change (List.length (js "Cloudflare API error: ")) with 22%nat.
    lia.
Qed.

Lemma error_message_bounded_witness :
  exists names,
    request_try (Json (envelope_with [6003; 6100; 6200; 7000; 7003; 1; 9109;
                                      7003; 10000; 2])) =
    Throw (ErrorObj (js "Cloudflare API error: " ++ JsString.join (js "; ") names)) /\
    List.length (js "Cloudflare API error: " ++ JsString.join (js "; ") names)
    = 239%nat.
Proof.
  destruct (@error_message_bounded
              (envelope_with [6003; 6100; 6200; 7000; 7003; 1; 9109; 7003;
                              10000; 2]) eq_refl)
    as (names & Hrun & _ & _ & _ & _).
  exists names. split; [exact Hrun|].
  remember (js "Cloudflare API error: " ++ JsString.join (js "; ") names)
    as text eqn:Htext.
  clear Htext. vm_compute in Hrun. injection Hrun as <-. reflexivity.
Defined.

End RequestFacts.

(** ** The query guard: white space, letter case, and the reason given *)

Module GuardFacts.
Import Regex RegexSpec RegexFacts GraphqlValidator JsStringFacts.
Import GraphqlValidatorSpec GraphqlValidatorFacts.
Import RegexSpec GraphqlValidatorSpec GuardSpec.

Lemma trimStart_blank (s : jsstring) : blank s -> JsString.trimStart s = [].
Proof.
  induction 1 as [|c s Hc _ IH]; [reflexivity|].
  cbn [JsString.trimStart]. rewrite Hc. exact IH.
Qed.

Lemma trimStart_nil_blank (s : jsstring) : JsString.trimStart s = [] -> blank s.
Proof.
  induction s as [|c s IH]; intros H; [constructor|].
  cbn [JsString.trimStart] in H.
  destruct (JsString.isWhiteSpace c) eqn:Hc; [|discriminate].
  constructor; [exact Hc | apply IH; exact H].
Qed.

Lemma trimStart_blank_app (pre s : jsstring) :
  blank pre -> JsString.trimStart (pre ++ s) = JsString.trimStart s.
Proof.
  induction 1 as [|c pre Hc _ IH]; [reflexivity|].
  cbn [app JsString.trimStart]. rewrite Hc. exact IH.
Qed.

Lemma trimStart_app (s p : jsstring) :
  JsString.trimStart s <> [] ->
  JsString.trimStart (s ++ p) = JsString.trimStart s ++ p.
Proof.
  induction s as [|c s IH]; intros H; [contradiction|].
  cbn [app JsString.trimStart] in *.
  destruct (JsString.isWhiteSpace c); [apply IH; exact H | reflexivity].
Qed.

Lemma trimStart_head (s : jsstring) (c : Z) (r : jsstring) :
  JsString.trimStart s = c :: r -> JsString.isWhiteSpace c = false.
Proof.
  induction s as [|d s IH]; intros H; [discriminate|].
  cbn [JsString.trimStart] in H.
  destruct (JsString.isWhiteSpace d) eqn:Hd; [apply IH; exact H|].
  injection H as -> _. exact Hd.
Qed.

Lemma blank_rev (s : jsstring) : blank s -> blank (rev s).
Proof. intros H. apply Forall_rev. exact H. Qed.

Lemma trimEnd_blank_app (s post : jsstring) :
  blank post -> JsString.trimEnd (s ++ post) = JsString.trimEnd s.
Proof.
  intros H. unfold JsString.trimEnd.
  rewrite rev_app_distr, trimStart_blank_app; [reflexivity | apply blank_rev; exact H].
Qed.

Lemma trimEnd_nil : JsString.trimEnd [] = [].
Proof. reflexivity. Qed.

Lemma trim_blank (s : jsstring) : blank s -> JsString.trim s = [].
Proof.
  intros H. unfold JsString.trim. rewrite (trimStart_blank H). reflexivity.
Qed.

Lemma trim_nil_blank (s : jsstring) : JsString.trim s = [] -> blank s.
Proof.
  unfold JsString.trim, JsString.trimEnd. intros H.
  destruct (JsString.trimStart s) as [|c r] eqn:Hs;
    [apply trimStart_nil_blank; exact Hs|].
  pose proof (trimStart_head _ Hs) as Hc.
  assert (Hrev : JsString.trimStart (rev (c :: r)) = []).
  { rewrite <- (rev_involutive (JsString.trimStart (rev (c :: r)))), H.
    reflexivity. }
  apply trimStart_nil_blank in Hrev.
  apply Forall_rev in Hrev. rewrite rev_involutive in Hrev.
  inversion Hrev as [|? ? Hc' _]; subst. congruence.
Qed.

Lemma trim_padded (pre s post : jsstring) :
  blank pre -> blank post ->
  JsString.trim (pre ++ s ++ post) = JsString.trim s.
Proof.
  intros Hpre Hpost. unfold JsString.trim.
  rewrite (trimStart_blank_app _ Hpre).
  destruct (JsString.trimStart s) as [|c r] eqn:Hs.
  - apply trimStart_nil_blank in Hs.
    rewrite trimStart_blank; [reflexivity|].
    apply Forall_app. split; assumption.
  - rewrite trimStart_app; [|rewrite Hs; discriminate].
    rewrite Hs. apply trimEnd_blank_app. exact Hpost.
Qed.

Lemma validate_verdict (q : jsstring) :
  validateGraphQLQuery (VStr q) =
  match q with
  | [] => throw_Error "GraphQL query must be a non-empty string"
  | _ :: _ =>
      match JsString.trim q with
      | [] => throw_Error "GraphQL query cannot be empty"
      | _ :: _ => verdict (JsString.trim q)
      end
  end.
Proof.
  destruct q as [|c q]; [reflexivity|].
  unfold validateGraphQLQuery, verdict. cbn [truthy negb].
  destruct (JsString.trim (c :: q)) as [|d r]; reflexivity.
Qed.

(** X16: white space around a query does not change what the guard
    says of it: the padded text is accepted when the text is and
    rejected with the same message when the text is; and a text of
    white space only is always rejected. *)
Theorem validateGraphQLQuery_ignores_padding (pre q post : jsstring) :
  blank pre -> blank post ->
  (q <> [] ->
   validateGraphQLQuery (VStr (pre ++ q ++ post)) =
   validateGraphQLQuery (VStr q)) /\
  (q = [] -> rejects (VStr (pre ++ q ++ post))) /\
  (blank q -> rejects (VStr (pre ++ q ++ post))).
Proof.
  intros Hpre Hpost.
  assert (Hblank : forall s, blank s -> rejects (VStr s)).
  { intros s Hs. unfold rejects. rewrite validate_verdict.
    destruct s; [eexists; reflexivity|].
    rewrite (trim_blank Hs). eexists. reflexivity. }
  split; [|split].
  - intros Hq. rewrite !validate_verdict.
    rewrite (@trim_padded pre q post Hpre Hpost).
    destruct q as [|c q]; [contradiction|].
    destruct (pre ++ (c :: q) ++ post) eqn:E; [|reflexivity].
    apply app_eq_nil in E. destruct E as [_ E]. discriminate.
  - intros ->. apply Hblank. apply Forall_app. split; assumption.
  - intros Hq. apply Hblank.
    apply Forall_app. split; [exact Hpre|].
    apply Forall_app. split; assumption.
Qed.

Lemma validateGraphQLQuery_ignores_padding_witness :
  validateGraphQLQuery (VStr (js "  " ++ js "mutation { x }" ++ [10; 9])) =
  throw_Error "GraphQL query contains disallowed operations".
Proof.
  assert (Hpre : blank (js "  ")) by (repeat constructor).
  assert (Hpost : blank [10; 9]) by (repeat constructor).
  assert (Hq : js "mutation { x }" <> []) by discriminate.
  rewrite (proj1 (@validateGraphQLQuery_ignores_padding
                    (js "  ") (js "mutation { x }") [10; 9] Hpre Hpost) Hq).
  vm_compute. reflexivity.
Defined.

Lemma verdict_cases (t : jsstring) :
  (blocked t /\
   verdict t = throw_Error "GraphQL query contains disallowed operations") \/
  (~ blocked t /\ ~ allowed_start t /\
   verdict t = throw_Error "GraphQL query must be a read-only query operation") \/
  (~ blocked t /\ allowed_start t /\ verdict t = Return tt).
Proof.
  unfold verdict.
  destruct (existsb (fun pattern => test pattern t) BLOCKED_PATTERNS) eqn:Hb.
  - left. split; [apply blocked_iff; exact Hb | reflexivity].
  - assert (Hnb : ~ blocked t).
    { intros H. apply blocked_iff in H. congruence. }
    destruct (existsb (fun op => JsString.startsWith (JsString.toLowerCase t) op)
                      ALLOWED_OPERATION_STARTS) eqn:Ha.
    + right. right. split; [exact Hnb|].
      split; [apply allowed_iff; exact Ha | reflexivity].
    + right. left. split; [exact Hnb|].
      split; [|reflexivity].
      intros H. apply allowed_iff in H. congruence.
Qed.

Lemma allowed_start_nonempty : ~ allowed_start [].
Proof. intros H. apply allowed_iff in H. discriminate. Qed.

(** X17: the message of the guard tells the reason, and the reasons
    are tried in a fixed order: no text at all; white space only; a
    blocked pattern in the trimmed text, whatever it begins with;
    else a beginning that is neither [query] nor a brace.  A text
    is accepted exactly when it is trimmed to something that begins
    with one of the two and holds no blocked pattern. *)
Theorem validateGraphQLQuery_message (query : value) :
  (validateGraphQLQuery query =
   throw_Error "GraphQL query must be a non-empty string" <->
   not_a_nonempty_string query) /\
  (validateGraphQLQuery query = throw_Error "GraphQL query cannot be empty" <->
   exists q, query = VStr q /\ q <> [] /\ blank q) /\
  (validateGraphQLQuery query =
   throw_Error "GraphQL query contains disallowed operations" <->
   exists q, query = VStr q /\ JsString.trim q <> [] /\
             blocked (JsString.trim q)) /\
  (validateGraphQLQuery query =
   throw_Error "GraphQL query must be a read-only query operation" <->
   exists q, query = VStr q /\ JsString.trim q <> [] /\
             ~ blocked (JsString.trim q) /\ ~ allowed_start (JsString.trim q)) /\
  (validateGraphQLQuery query = Return tt <->
   exists q, query = VStr q /\
             ~ blocked (JsString.trim q) /\ allowed_start (JsString.trim q)).
Proof.
  assert (Hne : forall s, JsString.trim s <> [] -> s <> []).
  { intros s H ->. apply H. reflexivity. }
  destruct query as [| |b|n|q|items|props];
    try (split; [split; [intros _; exact I | intros _; reflexivity]|];
         repeat split;
         try (intros H; discriminate H);
         try (intros (q0 & Hq & _); discriminate Hq)).
  rewrite validate_verdict.
  destruct q as [|c q].
  { split; [split; [intros _; exact I | intros _; reflexivity]|].
    split; [split; [intros H; discriminate H
                   | intros (q0 & Hq & Hq0 & _); injection Hq as <-; contradiction]|].
    split; [split; [intros H; discriminate H
                   | intros (q0 & Hq & Hq0 & _); injection Hq as <-;
                     exfalso; apply Hq0; reflexivity]|].
    split; [split; [intros H; discriminate H
                   | intros (q0 & Hq & Hq0 & _); injection Hq as <-;
                     exfalso; apply Hq0; reflexivity]|].
    split; [intros H; discriminate H|].
    intros (q0 & Hq & _ & Ha). injection Hq as <-.
    exfalso. apply allowed_start_nonempty. exact Ha. }
  destruct (JsString.trim (c :: q)) as [|d r] eqn:Ht.
  { pose proof (trim_nil_blank _ Ht) as Hb.
    split; [split; [intros H; discriminate H | intros H; contradiction H]|].
    split; [split; [intros _; exists (c :: q);
                    split; [reflexivity | split; [discriminate | exact Hb]]
                   | intros _; reflexivity]|].
    split; [split; [intros H; discriminate H
                   | intros (q0 & Hq & Hq0 & _); injection Hq as <-;
                     rewrite Ht in Hq0; contradiction]|].
    split; [split; [intros H; discriminate H
                   | intros (q0 & Hq & Hq0 & _); injection Hq as <-;
                     rewrite Ht in Hq0; contradiction]|].
    split; [intros H; discriminate H|].
    intros (q0 & Hq & _ & Ha). injection Hq as <-. rewrite Ht in Ha.
    exfalso. apply allowed_start_nonempty. exact Ha. }
  assert (Hnb : ~ blank (c :: q)).
  { intros H. rewrite (trim_blank H) in Ht. discriminate. }
  assert (Hex : forall P : jsstring -> Prop,
             (exists q0, VStr (c :: q) = VStr q0 /\ P q0) <-> P (c :: q)).
  { intros P. split; [intros (q0 & Hq & H); injection Hq as <-; exact H
                     | intros H; exists (c :: q); split; [reflexivity | exact H]]. }
  rewrite (Hex (fun q0 => q0 <> [] /\ blank q0)).
  rewrite (Hex (fun q0 => JsString.trim q0 <> [] /\ blocked (JsString.trim q0))).
  rewrite (Hex (fun q0 => JsString.trim q0 <> [] /\ ~ blocked (JsString.trim q0) /\
                          ~ allowed_start (JsString.trim q0))).
  rewrite (Hex (fun q0 => ~ blocked (JsString.trim q0) /\
                          allowed_start (JsString.trim q0))).
  rewrite Ht.
  assert (Hd : d :: r <> []) by discriminate.
  destruct (verdict_cases (d :: r))
    as [(Hb & ->) | [(Hb & Ha & ->) | (Hb & Ha & ->)]].
  - split; [split; [intros H; discriminate H | intros H; contradiction H]|].
    split; [split; [intros H; discriminate H | intros [_ H]; contradiction]|].
    split; [split; [intros _; split; assumption | intros _; reflexivity]|].
    split; [split; [intros H; discriminate H | intros (_ & H & _); contradiction]|].
    split; [intros H; discriminate H | intros (H & _); contradiction].
  - split; [split; [intros H; discriminate H | intros H; contradiction H]|].
    split; [split; [intros H; discriminate H | intros [_ H]; contradiction]|].
    split; [split; [intros H; discriminate H | intros (_ & H); contradiction]|].
    split; [split; [intros _; repeat split; assumption | intros _; reflexivity]|].
    split; [intros H; discriminate H | intros (_ & H); contradiction].
  - split; [split; [intros H; discriminate H | intros H; contradiction H]|].
    split; [split; [intros H; discriminate H | intros [_ H]; contradiction]|].
    split; [split; [intros H; discriminate H | intros (_ & H); contradiction]|].
    split; [split; [intros H; discriminate H | intros (_ & _ & H); contradiction]|].
    split; [intros _; split; assumption | intros _; reflexivity].
Qed.

Lemma not_white_letter (c : Z) :
  65 <= c <= 122 -> JsString.isWhiteSpace c = false.
Proof.
  intros H. unfold JsString.isWhiteSpace.
  repeat match goal with
         | |- context [?a <=? ?b] =>
             first [ replace (a <=? b) with true by (symmetry; apply Z.leb_le; lia)
                   | replace (a <=? b) with false by (symmetry; apply Z.leb_gt; lia) ]
         | |- context [?a =? ?b] =>
             replace (a =? b) with false by (symmetry; apply Z.eqb_neq; lia)
         end.
  reflexivity.
Qed.

Lemma same_case_cases (c c' : Z) :
  canonicalize c = canonicalize c' ->
  c = c' \/ (65 <= c <= 122 /\ 65 <= c' <= 122 /\ c <> 123 /\ c <> 40 /\
             c' <> 123 /\ c' <> 40).
Proof.
  intros H.
  destruct (canonicalize_cases c) as [[Hc Ec] | [Hc Ec]],
           (canonicalize_cases c') as [[Hc' Ec'] | [Hc' Ec']];
    rewrite Ec, Ec' in H; lia.
Qed.

Lemma space_caseless (c c' : Z) :
  canonicalize c = canonicalize c' ->
  JsString.isWhiteSpace c = JsString.isWhiteSpace c'.
Proof.
  intros H. destruct (@same_case_cases c c' H) as [-> | (Hc & Hc' & _)];
    [reflexivity|].
  rewrite !not_white_letter by assumption. reflexivity.
Qed.

Lemma opener_caseless (c c' : Z) :
  canonicalize c = canonicalize c' ->
  (c =? 123) || (c =? 40) = (c' =? 123) || (c' =? 40).
Proof.
  intros H.
  destruct (@same_case_cases c c' H) as [-> | (_ & _ & H1 & H2 & H3 & H4)];
    [reflexivity|].
  apply Z.eqb_neq in H1, H2, H3, H4. rewrite H1, H2, H3, H4. reflexivity.
Qed.

Lemma lit_i_caseless (w : list Z) : caseless (lit_i w).
Proof.
  induction w as [|x w IH]; [exact I|].
  cbn [lit_i caseless chr_i]. split; [|exact IH].
  intros c c' H. rewrite H. reflexivity.
Qed.

Lemma opens_caseless (kw : list Z) :
  caseless (Seq (lit_i kw) (Seq (Star space) opener)).
Proof.
  cbn [caseless space opener].
  split; [apply lit_i_caseless|].
  split; [intros c c' H; apply space_caseless; exact H
         | intros c c' H; apply opener_caseless; exact H].
Qed.

Lemma blocked_caseless : Forall caseless BLOCKED_PATTERNS.
Proof.
  unfold BLOCKED_PATTERNS.
  constructor; [apply lit_i_caseless|].
  constructor; [apply lit_i_caseless|].
  constructor; [apply opens_caseless|].
  constructor; [apply opens_caseless|].
  constructor.
Qed.

Lemma nullable_deriv_caseless (r : regex) (c c' : Z) :
  caseless r -> canonicalize c = canonicalize c' ->
  deriv c r = deriv c' r /\ caseless (deriv c r).
Proof.
  intros Hr Hc. induction r as [| |p|a IHa b IHb|a IHa b IHb|a IHa];
    cbn [deriv caseless] in *.
  - split; [reflexivity | exact I].
  - split; [reflexivity | exact I].
  - rewrite (Hr c c' Hc). split; [reflexivity|].
    destruct (p c'); exact I.
  - destruct Hr as [Ha Hb].
    destruct (IHa Ha) as [Ea Ca]. destruct (IHb Hb) as [Eb Cb].
    rewrite Ea, Eb. rewrite Ea in Ca. rewrite Eb in Cb.
    split; [reflexivity|].
    destruct (nullable a); cbn [caseless]; repeat split; assumption.
  - destruct Hr as [Ha Hb].
    destruct (IHa Ha) as [Ea Ca]. destruct (IHb Hb) as [Eb Cb].
    rewrite Ea, Eb. rewrite Ea in Ca. rewrite Eb in Cb.
    split; [reflexivity | split; assumption].
  - destruct (IHa Hr) as [Ea Ca]. rewrite Ea. rewrite Ea in Ca.
    split; [reflexivity | split; assumption].
Qed.

Lemma matches_at_caseless (s s' : list Z) :
  same_word_i s s' ->
  forall r, caseless r -> matches_at r s = matches_at r s'.
Proof.
  induction 1 as [|c c' s s' Hc _ IH]; intros r Hr; [reflexivity|].
  cbn [matches_at].
  destruct (@nullable_deriv_caseless r c c' Hr Hc) as [E C].
  rewrite <- E. rewrite (IH _ C). reflexivity.
Qed.

Lemma test_caseless (s s' : list Z) :
  same_word_i s s' ->
  forall r, caseless r -> test r s = test r s'.
Proof.
  intros H. pose proof H as H0.
  induction H as [|c c' s s' Hc Hs IH]; intros r Hr; [reflexivity|].
  cbn [test].
  rewrite (@matches_at_caseless (c :: s) (c' :: s') H0 r Hr).
  rewrite (IH Hs r Hr). reflexivity.
Qed.

Lemma same_word_sym (u w : list Z) : same_word_i u w -> same_word_i w u.
Proof.
  induction 1; constructor; [symmetry; assumption | assumption].
Qed.

Lemma same_word_trans (u v w : list Z) :
  same_word_i u v -> same_word_i v w -> same_word_i u w.
Proof.
  intros H. revert w. induction H as [|a b u v Hab _ IH]; intros w Hw;
    inversion Hw; subst; constructor; [congruence | apply IH; assumption].
Qed.

Lemma begins_caseless (t t' w : jsstring) :
  same_word_i t t' -> begins_i t w -> begins_i t' w.
Proof.
  intros H (u & rest & -> & Hu).
  apply Forall2_app_inv_l in H. destruct H as (u' & rest' & Hu' & _ & ->).
  exists u', rest'. split; [reflexivity|].
  apply same_word_trans with u; [apply same_word_sym; exact Hu' | exact Hu].
Qed.

Lemma allowed_caseless (t t' : jsstring) :
  same_word_i t t' ->
  existsb (fun op => JsString.startsWith (JsString.toLowerCase t) op)
          ALLOWED_OPERATION_STARTS =
  existsb (fun op => JsString.startsWith (JsString.toLowerCase t') op)
          ALLOWED_OPERATION_STARTS.
Proof.
  intros H. apply eq_true_iff_eq. rewrite !allowed_iff.
  unfold allowed_start.
  split; intros [Hq | Hb];
    [ left; apply (@begins_caseless t t' _ H Hq)
    | right; apply (@begins_caseless t t' _ H Hb)
    | left; apply (@begins_caseless t' t _ (@same_word_sym t t' H) Hq)
    | right; apply (@begins_caseless t' t _ (@same_word_sym t t' H) Hb) ].
Qed.

Lemma verdict_caseless (t t' : jsstring) :
  same_word_i t t' -> verdict t = verdict t'.
Proof.
  intros H. unfold verdict.
  assert (Hb : existsb (fun pattern => test pattern t) BLOCKED_PATTERNS =
               existsb (fun pattern => test pattern t') BLOCKED_PATTERNS).
  { induction blocked_caseless as [|r rs Hr _ IH]; [reflexivity|].
    cbn [existsb]. rewrite (@test_caseless t t' H r Hr), IH. reflexivity. }
  rewrite Hb, (@allowed_caseless t t' H). reflexivity.
Qed.

Lemma trimStart_caseless (s s' : jsstring) :
  same_word_i s s' ->
  same_word_i (JsString.trimStart s) (JsString.trimStart s').
Proof.
  induction 1 as [|c c' s s' Hc Hs IH]; [constructor|].
  cbn [JsString.trimStart]. rewrite <- (@space_caseless c c' Hc).
  destruct (JsString.isWhiteSpace c); [exact IH | constructor; assumption].
Qed.

Lemma rev_caseless (s s' : jsstring) :
  same_word_i s s' -> same_word_i (rev s) (rev s').
Proof.
  induction 1 as [|c c' s s' Hc Hs IH]; [constructor|].
  cbn [rev]. apply Forall2_app; [exact IH | constructor; [exact Hc | constructor]].
Qed.

Lemma trim_caseless (s s' : jsstring) :
  same_word_i s s' -> same_word_i (JsString.trim s) (JsString.trim s').
Proof.
  intros H. unfold JsString.trim, JsString.trimEnd.
  apply rev_caseless, trimStart_caseless, rev_caseless, trimStart_caseless.
  exact H.
Qed.

(** X18: the guard does not tell upper-case from lower-case letters:
    two texts that differ only in the case of ASCII letters are both
    accepted or both rejected with the same message. *)
Theorem validateGraphQLQuery_ignores_case (q q' : jsstring) :
  same_word_i q q' ->
  validateGraphQLQuery (VStr q) = validateGraphQLQuery (VStr q').
Proof.
  intros H. rewrite !validate_verdict.
  pose proof (@trim_caseless q q' H) as Ht.
  pose proof (@verdict_caseless _ _ Ht) as Hv.
  inversion H as [|c c' s s' Hc Hs]; subst; [reflexivity|].
  rewrite Hv.
  inversion Ht as [Ha Hb|d d' r r' Hd Hr Ha Hb]; reflexivity.
Qed.

Lemma validateGraphQLQuery_ignores_case_witness :
  validateGraphQLQuery (VStr (js "Query { a } MUTATION { b }")) =
  throw_Error "GraphQL query contains disallowed operations".
Proof.
  assert (H : same_word_i (js "Query { a } MUTATION { b }")
                          (js "query { a } mutation { b }"))
    by (repeat constructor).
  rewrite (@validateGraphQLQuery_ignores_case _ _ H).
  vm_compute. reflexivity.
Defined.

End GuardFacts.

(** ** The free-text endpoint: the order of its checks *)

Module AnalyticsFacts.
Import AuditLogger ApiClient GraphqlValidator RateLimiterSpec RateLimiterFacts.
Import GatewaySpec GatewayFacts RequestFacts.
Import AnalyticsSpec.

(** X19: [graphqlAnalytics] checks in a fixed order.  A query the
    guard rejects ends the call at once: no token is taken, nothing
    is sent or written, and no wait can hold it up.  Only then the
    caller waits for a token; and only after that the variables are
    parsed, so that variables that are no JSON or no JSON object
    cost a token although nothing is sent and no audit line is
    written.  Variables go into the body exactly when the text is
    not empty and parses to an object; an absent or empty text sends
    the query alone. *)
Theorem graphql_checks_in_order
        (wake : Z -> Z -> Z) (JSON_parse : jsstring -> option value) (fuel : nat)
        (B : Type) (upstream : HttpRequest -> NetReply B)
        (query : jsstring) (variables : option jsstring)
        (c : CloudflareClient) (rt : Runtime) :
  (forall e,
      validateGraphQLQuery (VStr query) = Throw e ->
      forall fuel' (upstream' : HttpRequest -> NetReply B) variables',
        @graphqlAnalytics wake JSON_parse fuel' B upstream' query variables' c rt =
        Some (Throw e, c, rt)) /\
  (validateGraphQLQuery (VStr query) = Return tt ->
   RateLimiter.acquire wake fuel (clock rt) (rateLimiter c) = None ->
   @graphqlAnalytics wake JSON_parse fuel B upstream query variables c rt = None) /\
  (forall startTime limiter,
      validateGraphQLQuery (VStr query) = Return tt ->
      RateLimiter.acquire wake fuel (clock rt) (rateLimiter c) =
      Some (startTime, limiter) ->
      (variables = None \/ variables = Some [] ->
       @graphqlAnalytics wake JSON_parse fuel B upstream query variables c rt =
       graphql_outcome upstream query variables None c rt startTime limiter) /\
      (forall text props,
          variables = Some text -> text <> [] ->
          JSON_parse text = Some (VObj props) ->
          @graphqlAnalytics wake JSON_parse fuel B upstream query variables c rt =
          graphql_outcome upstream query variables (Some props) c rt
                          startTime limiter) /\
      (forall text,
          variables = Some text -> text <> [] -> JSON_parse text = None ->
          @graphqlAnalytics wake JSON_parse fuel B upstream query variables c rt =
          Some (throw_Error "Invalid JSON in GraphQL variables parameter",
                with_limiter c limiter,
                {| clock := startTime; stderr := stderr rt |})) /\
      (forall text v,
          variables = Some text -> text <> [] -> JSON_parse text = Some v ->
          (forall props, v <> VObj props) ->
          @graphqlAnalytics wake JSON_parse fuel B upstream query variables c rt =
          Some (throw_Error "GraphQL variables must be a JSON object",
                with_limiter c limiter,
                {| clock := startTime; stderr := stderr rt |}))).
Proof.
  split; [|split].
  - intros e He fuel' upstream' variables'.
    apply (@graphql_rejected wake JSON_parse fuel' B upstream' query variables' c rt).
    exact He.
  - intros Hq Hacq. unfold graphqlAnalytics. rewrite Hq, Hacq. reflexivity.
  - intros startTime limiter Hq Hacq.
    pose proof (@graphql_admitted wake JSON_parse fuel B upstream query variables
                                  c rt startTime limiter) as Hsent.
    destruct (@graphql_rejected wake JSON_parse fuel B upstream query variables c rt)
      as (_ & Hthrow).
    cbv zeta in Hsent.
    assert (Huniq : forall text, variables = Some text -> text <> [] ->
                                 graphql_variables JSON_parse variables =
                                 match JSON_parse text with
                                 | None => throw_Error "Invalid JSON in GraphQL variables parameter"
                                 | Some (VObj props) => Return (Some props)
                                 | Some _ => throw_Error "GraphQL variables must be a JSON object"
                                 end).
    { intros text -> Hne. destruct text as [|d text]; [contradiction|].
      unfold graphql_variables, validateGraphQLVariables.
      destruct (JSON_parse (d :: text)) as [[]|]; reflexivity. }
    split; [|split; [|split]].
    + intros Hv. unfold graphql_outcome. apply Hsent; [exact Hq | exact Hacq|].
      destruct Hv as [-> | ->]; reflexivity.
    + intros text props Hv Hne Hp. unfold graphql_outcome.
      apply Hsent; [exact Hq | exact Hacq|].
      rewrite (Huniq text Hv Hne), Hp. reflexivity.
    + intros text Hv Hne Hp.
      apply Hthrow; [exact Hq | exact Hacq|].
      rewrite (Huniq text Hv Hne), Hp. reflexivity.
    + intros text v Hv Hne Hp Hobj.
      apply Hthrow; [exact Hq | exact Hacq|].
      rewrite (Huniq text Hv Hne), Hp.
      destruct v; try reflexivity. exfalso. apply (Hobj props). reflexivity.
Qed.

End AnalyticsFacts.

(** ** One client, many requests *)

Module TrailFacts.
Import AuditLogger ApiClient RateLimiterSpec RateLimiterFacts ThrottleFacts.
Import GatewaySpec GatewayFacts RequestFacts.
Import RateLimiterSpec GatewaySpec TrailSpec.

Lemma request_inv (wake : Z -> Z -> Z) (fuel : nat)
      (upstream : HttpRequest -> NetReply CloudflareResponse)
      (method endpoint : jsstring) (params : option obj)
      (c : CloudflareClient) (rt : Runtime)
      (r : outcome CloudflareResponse) (c' : CloudflareClient) (rt' : Runtime) :
  request wake fuel upstream method endpoint params c rt = Some (r, c', rt') ->
  exists startTime limiter,
    RateLimiter.acquire wake fuel (clock rt) (rateLimiter c) =
    Some (startTime, limiter) /\
    c' = with_limiter c limiter /\
    r = request_try (answer (upstream (request_sent method endpoint params c'))) /\
    rt' = {| clock := startTime +
                      latency (upstream (request_sent method endpoint params c'));
             stderr := stderr rt ++
                       [audit_line (method ++ js " " ++ endpoint)
                                   (params_or_empty params) startTime
                                   (startTime +
                                    latency (upstream (request_sent method endpoint
                                                                    params c')))
                                   r] |}.
Proof.
  intros Hrun.
  destruct (RateLimiter.acquire wake fuel (clock rt) (rateLimiter c))
    as [[startTime limiter]|] eqn:Hacq.
  - rewrite (@request_admitted wake fuel upstream method endpoint params c rt
                               startTime limiter Hacq) in Hrun.
    cbv zeta in Hrun. injection Hrun as <- <- <-.
    exists startTime, limiter.
    split; [reflexivity|]. split; [reflexivity|]. split; reflexivity.
  - unfold request in Hrun. rewrite Hacq in Hrun. discriminate.
Qed.

Lemma request_each_balance (wake : Z -> Z -> Z) (fuel : nat)
      (upstream : HttpRequest -> NetReply CloudflareResponse)
      (calls : list (Z * jsstring * option obj)) :
  timely wake ->
  (forall req, 0 <= latency (upstream req)) ->
  Forall (fun call => 0 <= fst (fst call)) calls ->
  forall (c : CloudflareClient) (rt : Runtime) rs c' rt',
    regular (rateLimiter c) ->
    RateLimiter.lastRefill (rateLimiter c) <= clock rt ->
    request_each wake fuel upstream calls c rt = Some (rs, c', rt') ->
    clock rt' - RateLimiter.lastRefill (rateLimiter c) < 2 ^ 53 ->
    List.length rs = List.length calls /\
    (exists lines,
        stderr rt' = stderr rt ++ lines /\
        map line_tool lines = map call_tool calls /\
        map line_success lines = map is_return rs) /\
    (inject_Z (Z.of_nat (List.length calls)) + level (rateLimiter c') <=
     level (rateLimiter c) +
     excess * due (rateLimiter c) (RateLimiter.lastRefill (rateLimiter c))
                  (RateLimiter.lastRefill (rateLimiter c')) +
     inject_Z (Z.of_nat (List.length calls * fuel)) *
     check_slack (rateLimiter c))%Q /\
    (0 <= level (rateLimiter c'))%Q /\
    RateLimiter.lastRefill (rateLimiter c) <= RateLimiter.lastRefill (rateLimiter c') /\
    RateLimiter.lastRefill (rateLimiter c') <= clock rt' /\
    clock rt <= clock rt' /\
    getToken c' = getToken c.
Proof.
  intros Hwake Hlat Hgaps.
  induction Hgaps as [|[[gap endpoint] params] calls Hg Hgaps IH];
    intros c rt rs c' rt' Hwf Hlast Hrun Hhor.
  - cbn [request_each] in Hrun. injection Hrun as <- <- <-.
    split; [reflexivity|].
    split; [exists []; rewrite app_nil_r; repeat split; reflexivity|].
    destruct (regular_level Hwf) as [_ Hc0].
    split.
    { cbn [List.length Nat.mul Z.of_nat]. change (inject_Z 0) with 0%Q.
      assert (Ed : (due (rateLimiter c) (RateLimiter.lastRefill (rateLimiter c))
                        (RateLimiter.lastRefill (rateLimiter c)) == 0)%Q).
      { unfold due. rewrite Z.sub_diag. reflexivity. }
      rewrite Ed.
      set (l := level (rateLimiter c)) in *.
      set (s := check_slack (rateLimiter c)) in *.
      setoid_replace (0 + l)%Q with l by ring.
      setoid_replace (l + excess * 0 + 0 * s)%Q with l by ring.
      apply Qle_refl. }
    repeat (split; [first [assumption | lia | reflexivity]|]). reflexivity.
  - cbn [request_each] in Hrun. cbn [fst] in Hg.
    destruct (request wake fuel upstream (js "GET") endpoint params c
                      {| clock := clock rt + gap; stderr := stderr rt |})
      as [[[r c1] rt1]|] eqn:Hreq; [|discriminate].
    destruct (request_each wake fuel upstream calls c1 rt1)
      as [[[rs' c2] rt2]|] eqn:Hrest; [|discriminate].
    injection Hrun as <- <- <-.
    destruct (@request_inv wake fuel upstream (js "GET") endpoint params c _
                           r c1 rt1 Hreq)
      as (startTime & limiter & Hacq & Hc1 & Hr1 & Hrt1).
    cbn [clock stderr] in Hacq, Hrt1.
    assert (Ht' : RateLimiter.lastRefill (rateLimiter c) <= clock rt + gap) by lia.
    destruct (@acquire_leaves wake fuel (clock rt + gap) (rateLimiter c)
                              startTime limiter Hwake Hwf Ht' Hacq)
      as (Hadm & Hwf1 & Hl1 & Hmax1 & Hrate1).
    assert (Hlim : rateLimiter c1 = limiter) by (rewrite Hc1; reflexivity).
    assert (Hclock1 : clock rt1 =
                      startTime +
                      latency (upstream (request_sent (js "GET") endpoint params c1)))
      by (rewrite Hrt1; reflexivity).
    pose proof (Hlat (request_sent (js "GET") endpoint params c1)) as Hl0.
    assert (Hwf' : regular (rateLimiter c1)) by (rewrite Hlim; exact Hwf1).
    assert (Hlast' : RateLimiter.lastRefill (rateLimiter c1) <= clock rt1)
      by (rewrite Hlim, Hl1, Hclock1; lia).
    assert (Hhor' : clock rt2 - RateLimiter.lastRefill (rateLimiter c1) < 2 ^ 53)
      by (rewrite Hlim, Hl1; lia).
    destruct (IH c1 rt1 rs' c2 rt2 Hwf' Hlast' Hrest Hhor')
      as (Hlen & (lines & Herr & Htools & Hsucc) & Hbal & Hpos2 & Hmono & Hfin &
          Hclk & Htoken).
    rewrite Hlim, Hl1 in Hbal, Hmono.
    split; [cbn [List.length]; rewrite Hlen; reflexivity|].
    split.
    { exists (audit_line (js "GET" ++ js " " ++ endpoint) (params_or_empty params)
                         startTime
                         (startTime +
                          latency (upstream (request_sent (js "GET") endpoint
                                                          params c1)))
                         r :: lines).
      split.
      - rewrite Herr, Hrt1. cbn [stderr]. rewrite <- app_assoc. reflexivity.
      - cbn [map]. rewrite Htools, Hsucc. split; reflexivity. }
    split.
    { assert (Hhor1 : startTime - RateLimiter.lastRefill (rateLimiter c) < 2 ^ 53)
        by lia.
      pose proof (@acquire_balance wake fuel Hwake (clock rt + gap) (rateLimiter c)
                                   startTime limiter Hwf Ht' Hhor1 Hacq) as Hone.
      set (b := rateLimiter c) in *.
      set (l2 := RateLimiter.lastRefill (rateLimiter c2)) in *.
      assert (Ed : due limiter startTime l2 = due b startTime l2)
        by (unfold due; rewrite Hrate1; reflexivity).
      assert (Es : check_slack limiter = check_slack b)
        by (unfold check_slack; rewrite Hmax1; reflexivity).
      rewrite Ed, Es in Hbal.
      pose proof (due_split b (RateLimiter.lastRefill b) startTime l2) as Hsplit.
      cbn [List.length]. rewrite inject_succ.
      assert (En : (inject_Z (Z.of_nat (S (List.length calls) * fuel)) ==
                    inject_Z (Z.of_nat fuel) +
                    inject_Z (Z.of_nat (List.length calls * fuel)))%Q).
      { cbn [Nat.mul]. rewrite Nat2Z.inj_add, inject_Z_plus. reflexivity. }
      rewrite En.
      set (n := inject_Z (Z.of_nat (List.length calls))) in *.
      set (cf := level (rateLimiter c2)) in *.
      set (s := check_slack b) in *.
      set (f1 := inject_Z (Z.of_nat fuel)) in *.
      set (f2 := inject_Z (Z.of_nat (List.length calls * fuel))) in *.
      set (d1 := due b (RateLimiter.lastRefill b) startTime) in *.
      set (d2 := due b startTime l2) in *.
      set (d := due b (RateLimiter.lastRefill b) l2) in *.
      assert (E : (excess * d == excess * d1 + excess * d2)%Q)
        by (rewrite Hsplit; ring).
      set (e1 := (excess * d1)%Q) in *. set (e2 := (excess * d2)%Q) in *.
      set (e := (excess * d)%Q) in *.
      setoid_replace ((f1 + f2) * s)%Q with (f1 * s + f2 * s)%Q by ring.
      set (fs1 := (f1 * s)%Q) in *. set (fs2 := (f2 * s)%Q) in *.
      set (c0 := level b) in *. set (c1' := level limiter) in *.
      lra. }
    split; [exact Hpos2|].
    split; [lia|]. split; [exact Hfin|]. split; [lia|].
    rewrite Htoken, Hc1. reflexivity.
Qed.

(** With enough fuel for every wait the run completes. *)
Lemma request_each_total (wake : Z -> Z -> Z) (k : Z)
      (upstream : HttpRequest -> NetReply CloudflareResponse)
      (calls : list (Z * jsstring * option obj)) :
  timely wake -> 0 <= k <= 52 ->
  (forall req, 0 <= latency (upstream req)) ->
  Forall (fun call => 0 <= fst (fst call)) calls ->
  forall (c : CloudflareClient) (rt : Runtime) (m : Q),
    regular (rateLimiter c) ->
    RateLimiter.lastRefill (rateLimiter c) <= clock rt ->
    RateLimiter.maxTokens (rateLimiter c) = Double.Fin m -> (1 <= m)%Q ->
    Double.num_le (Double.Fin (Double.pow2 (- k))) (timer_gain (rateLimiter c)) ->
    exists res,
      request_each wake (S (Z.to_nat (2 ^ k))) upstream calls c rt = Some res.
Proof.
  intros Hwake Hk Hlat Hgaps.
  induction Hgaps as [|[[gap endpoint] params] calls Hg Hgaps IH];
    intros c rt m Hwf Hlast Hm Hm1 Hgain.
  - eexists. reflexivity.
  - cbn [fst] in Hg. cbn [request_each].
    assert (Ht' : RateLimiter.lastRefill (rateLimiter c) <= clock rt + gap) by lia.
    destruct (@acquire_total wake k (clock rt + gap) (rateLimiter c) m
                             Hwake Hk Hwf Ht' Hm Hm1 Hgain)
      as [[startTime limiter] Hacq].
    destruct (@acquire_leaves wake _ (clock rt + gap) (rateLimiter c)
                              startTime limiter Hwake Hwf Ht' Hacq)
      as (Hadm & Hwf1 & Hl1 & Hmax1 & Hrate1).
    rewrite (@request_admitted wake _ upstream (js "GET") endpoint params c
               {| clock := clock rt + gap; stderr := stderr rt |}
               startTime limiter Hacq).
    cbv zeta. cbn [clock stderr].
    set (c1 := with_limiter c limiter).
    set (reply := upstream (request_sent (js "GET") endpoint params c1)).
    pose proof (Hlat (request_sent (js "GET") endpoint params c1)) as Hl0.
    fold reply in Hl0.
    destruct (IH c1 {| clock := startTime + latency reply;
                       stderr := stderr rt ++
                                 [audit_line (js "GET" ++ js " " ++ endpoint)
                                             (params_or_empty params) startTime
                                             (startTime + latency reply)
                                             (request_try (answer reply))] |} m)
      as [[[rs c2] rt2] Hrest].
    + exact Hwf1.
    + cbn [c1 with_limiter rateLimiter clock]. rewrite Hl1. lia.
    + cbn [c1 with_limiter rateLimiter]. rewrite Hmax1. exact Hm.
    + exact Hm1.
    + cbn [c1 with_limiter rateLimiter].
      unfold timer_gain, delay, RateLimiter.waitMs in *. rewrite Hrate1.
      exact Hgain.
    + cbn [stderr] in Hrest. rewrite Hrest. eexists. reflexivity.
Qed.

(** X20: a caller that makes request after request through one
    client gets one audit line per request, in the order of the
    requests, each with the outcome of its request; and the limiter
    holds the caller back: the requests made by any moment number at
    most the tokens that were there at the start plus the rate times
    the time that has passed, up to the rounding of the double
    arithmetic, a relative excess of [(1 + 2^-53)^2] on the refill
    and [2^-53] of the capacity and [2^-1074] for every check of the
    bucket; so about 100 and 10 a second for the client of the
    server.  The credential is the same at the end.  With a
    capacity of at least one and a timer period that gives at least
    [1/2^k] of a token, the requests are all served. *)
Theorem requests_throttled_and_logged
        (wake : Z -> Z -> Z) (fuel : nat)
        (upstream : HttpRequest -> NetReply CloudflareResponse)
        (calls : list (Z * jsstring * option obj))
        (c : CloudflareClient) (rt : Runtime)
        (rs : list (outcome CloudflareResponse))
        (c' : CloudflareClient) (rt' : Runtime) :
  timely wake ->
  (forall req, 0 <= latency (upstream req)) ->
  Forall (fun call => 0 <= fst (fst call)) calls ->
  regular (rateLimiter c) ->
  RateLimiter.lastRefill (rateLimiter c) <= clock rt ->
  request_each wake fuel upstream calls c rt = Some (rs, c', rt') ->
  clock rt' - RateLimiter.lastRefill (rateLimiter c) < 2 ^ 53 ->
  List.length rs = List.length calls /\
  (exists lines,
      stderr rt' = stderr rt ++ lines /\
      map line_tool lines = map call_tool calls /\
      map line_success lines = map is_return rs) /\
  (inject_Z (Z.of_nat (List.length calls)) <=
   level (rateLimiter c) +
   excess * due (rateLimiter c) (RateLimiter.lastRefill (rateLimiter c))
                (clock rt') +
   inject_Z (Z.of_nat (List.length calls * fuel)) *
   check_slack (rateLimiter c))%Q /\
  (inject_Z (Z.of_nat (List.length calls)) <=
   amount (RateLimiter.maxTokens (rateLimiter c)) +
   excess * due (rateLimiter c) (RateLimiter.lastRefill (rateLimiter c))
                (clock rt') +
   inject_Z (Z.of_nat (List.length calls * fuel)) *
   check_slack (rateLimiter c))%Q /\
  clock rt <= clock rt' /\
  getToken c' = getToken c /\
  (forall (m : Q) (k : Z),
      RateLimiter.maxTokens (rateLimiter c) = Double.Fin m -> (1 <= m)%Q ->
      0 <= k <= 52 ->
      Double.num_le (Double.Fin (Double.pow2 (- k)))
                    (timer_gain (rateLimiter c)) ->
      exists fuel' res,
        request_each wake fuel' upstream calls c rt = Some res).
Proof.
  intros Hwake Hlat Hgaps Hwf Hlast Hrun Hhor.
  destruct (@request_each_balance wake fuel upstream calls Hwake Hlat Hgaps
                                  c rt rs c' rt' Hwf Hlast Hrun Hhor)
    as (Hlen & Hlines & Hbal & Hpos & Hmono & Hfin & Hclk & Htoken).
  split; [exact Hlen|]. split; [exact Hlines|].
  assert (Htotal : forall (m : Q) (k : Z),
             RateLimiter.maxTokens (rateLimiter c) = Double.Fin m -> (1 <= m)%Q ->
             0 <= k <= 52 ->
             Double.num_le (Double.Fin (Double.pow2 (- k)))
                           (timer_gain (rateLimiter c)) ->
             exists fuel' res,
               request_each wake fuel' upstream calls c rt = Some res).
  { intros m k Hm Hm1 Hk Hgain.
    destruct (@request_each_total wake k upstream calls Hwake Hk Hlat Hgaps
                                  c rt m Hwf Hlast Hm Hm1 Hgain) as [res Hres].
    eexists; eexists; exact Hres. }
  set (b := rateLimiter c) in *.
  set (l0 := RateLimiter.lastRefill b) in *.
  set (l2 := RateLimiter.lastRefill (rateLimiter c')) in *.
  pose proof (due_split b l0 l2 (clock rt')) as Hsplit.
  assert (Hcm : (level b <= amount (RateLimiter.maxTokens b))%Q).
  { destruct Hwf as (c0 & m & r & Hc & Hm & _ & _ & _ & Hle & _).
    unfold level. rewrite Hc, Hm. exact Hle. }
  assert (Hd2 : (0 <= due b l2 (clock rt'))%Q).
  { destruct Hwf as (c0 & m & r & _ & _ & Hr & _ & _ & _ & _ & Hpos').
    apply (@due_nonneg b r l2 (clock rt') Hr Hpos' Hfin). }
  pose proof excess_ge_1 as Hex.
  assert (He2 : (0 <= excess * due b l2 (clock rt'))%Q)
    by (apply Qmult_le_0_compat; lra).
  assert (E : (excess * due b l0 (clock rt') ==
               excess * due b l0 l2 + excess * due b l2 (clock rt'))%Q)
    by (rewrite Hsplit; ring).
  set (n := inject_Z (Z.of_nat (List.length calls))) in *.
  set (t2 := level (rateLimiter c')) in *.
  set (t0 := level b) in *.
  set (mx := amount (RateLimiter.maxTokens b)) in *.
  set (s := (inject_Z (Z.of_nat (List.length calls * fuel)) * check_slack b)%Q) in *.
  set (e1 := (excess * due b l0 l2)%Q) in *.
  set (e2 := (excess * due b l2 (clock rt'))%Q) in *.
  set (e := (excess * due b l0 (clock rt'))%Q) in *.
  split; [lra|]. split; [lra|]. split; [exact Hclk|].
  split; [exact Htoken | exact Htotal].
Qed.

Lemma requests_throttled_and_logged_witness :
  exists rs c' rt',
    request_each RateLimiter.punctual 1 moody example_calls
                 example_client example_runtime = Some (rs, c', rt') /\
    map is_return rs = [true; false; true] /\
    map line_tool (stderr rt') =
    [js "GET /accounts"; js "GET /zones"; js "GET /user"] /\
    map line_success (stderr rt') = [true; false; true].
Proof.
  destruct (request_each RateLimiter.punctual 1 moody example_calls
                         example_client example_runtime)
    as [[[rs c'] rt']|] eqn:Hrun; [|vm_compute in Hrun; discriminate].
  assert (Hlat : forall req, 0 <= latency (moody req))
    by (intros req; cbn; lia).
  assert (Hgaps : Forall (fun call : Z * jsstring * option obj => 0 <= fst (fst call))
                         example_calls)
    by (repeat constructor; cbn; lia).
  destruct example_served as (_ & Hwf & Hlast & _).
  assert (Hhor : clock rt' - RateLimiter.lastRefill (rateLimiter example_client)
                 < 2 ^ 53).
  { assert (Hc : clock rt' = 25)
      by (vm_compute in Hrun; injection Hrun as _ _ <-; reflexivity).
    rewrite Hc. vm_compute. reflexivity. }
  destruct (@requests_throttled_and_logged
              RateLimiter.punctual 1 moody example_calls example_client
              example_runtime rs c' rt' punctual_timely Hlat Hgaps Hwf Hlast Hrun
              Hhor)
    as (_ & (lines & Herr & Htools & Hsucc) & _).
  exists rs, c', rt'.
  split; [reflexivity|].
  cbn [example_runtime stderr app] in Herr. rewrite Herr, Htools, Hsucc.
  vm_compute in Hrun. injection Hrun as <- _ _.
  split; [reflexivity | split; reflexivity].
Defined.

End TrailFacts.

(** ** The audit sanitizer on arrays *)

Module ArrayFacts.
Import AuditLogger AuditLoggerSpec AuditLoggerFacts JsStringFacts RedactionFacts.
Import AuditLoggerSpec ArraySpec.

Lemma js_cons (a : ascii) (s : string) :
  js (String a s) = Z.of_N (N_of_ascii a) :: js s.
Proof. reflexivity. Qed.

Lemma digits_of_uint (d : Decimal.uint) :
  Forall (fun c => is_digit c = true)
         (js (DecimalString.NilEmpty.string_of_uint d)).
Proof.
  induction d; cbn [DecimalString.NilEmpty.string_of_uint];
    [constructor | rewrite js_cons; constructor; [reflexivity | assumption] ..].
Qed.

Lemma to_uint_nonnil (i : nat) : Nat.to_uint i <> Decimal.Nil.
Proof.
  rewrite <- (DecimalNat.Unsigned.of_to i) at 1.
  rewrite DecimalNat.Unsigned.to_of. apply DecimalFacts.unorm_nonnil.
Qed.

Lemma index_key_uint (i : nat) :
  index_key i = js (DecimalString.NilEmpty.string_of_uint (Nat.to_uint i)).
Proof.
  unfold index_key, DecimalString.NilZero.string_of_uint.
  pose proof (to_uint_nonnil i) as H.
  destruct (Nat.to_uint i); [contradiction | reflexivity ..].
Qed.

Lemma index_key_digits (i : nat) :
  Forall (fun c => is_digit c = true) (index_key i).
Proof. rewrite index_key_uint. apply digits_of_uint. Qed.

Lemma js_inj (s s' : string) : js s = js s' -> s = s'.
Proof.
  revert s'. induction s as [|a s IH]; intros [|a' s'] H;
    try reflexivity; try discriminate.
  rewrite !js_cons in H. injection H as Ha Hs.
  apply N2Z.inj in Ha.
  assert (a = a').
  { rewrite <- (ascii_N_embedding a), <- (ascii_N_embedding a'), Ha. reflexivity. }
  subst. f_equal. apply IH. exact Hs.
Qed.

Lemma index_key_inj (i j : nat) : index_key i = index_key j -> i = j.
Proof.
  rewrite !index_key_uint. intros H. apply js_inj in H.
  apply DecimalNat.Unsigned.to_uint_inj.
  pose proof (DecimalString.NilEmpty.usu (Nat.to_uint i)) as Hi.
  pose proof (DecimalString.NilEmpty.usu (Nat.to_uint j)) as Hj.
  rewrite H in Hi. rewrite Hi in Hj. injection Hj as Hj. exact Hj.
Qed.

Lemma lower_digits (k : jsstring) :
  Forall (fun c => is_digit c = true) k -> JsString.toLowerCase k = k.
Proof.
  induction 1 as [|c k Hc _ IH]; [reflexivity|].
  unfold JsString.toLowerCase in *. cbn [flat_map]. rewrite IH.
  unfold is_digit in Hc. apply andb_true_iff in Hc as [H1 H2].
  apply Z.leb_le in H1, H2.
  unfold JsString.lower_unit.
  replace (c <=? 90) with true by (symmetry; apply Z.leb_le; lia).
  replace (65 <=? c) with false by (symmetry; apply Z.leb_gt; lia).
  replace (c =? 8490) with false by (symmetry; apply Z.eqb_neq; lia).
  replace (c =? 304) with false by (symmetry; apply Z.eqb_neq; lia).
  reflexivity.
Qed.

Lemma includes_head (s : jsstring) (x : Z) (t : jsstring) :
  JsString.includes s (x :: t) = true -> In x s.
Proof.
  intros H. apply includes_iff in H. destruct H as (pre & post & ->).
  apply in_or_app. right. left. reflexivity.
Qed.

Lemma redact_key_digits (k : jsstring) :
  Forall (fun c => is_digit c = true) k -> redact_key k = false.
Proof.
  intros Hk. unfold redact_key. rewrite (lower_digits Hk).
  apply not_true_is_false. intros H.
  apply existsb_exists in H. destruct H as (term & Hin & Hinc).
  rewrite Forall_forall in Hk.
  cbn [REDACT_KEYS In] in Hin.
  repeat (destruct Hin as [<- | Hin];
          [apply includes_head in Hinc; apply Hk in Hinc; discriminate|]).
  exact Hin.
Qed.

Lemma get_array_entry (items : list value) :
  forall (a i : nat),
    get_prop (array_entries a items) (index_key (a + i)) = nth_error items i.
Proof.
  induction items as [|v items IH]; intros a i.
  - destruct i; reflexivity.
  - cbn [array_entries get_prop]. destruct i as [|i].
    + rewrite Nat.add_0_r, eqb_refl. reflexivity.
    + assert (E : JsString.eqb (index_key a) (index_key (a + S i)) = false).
      { apply eqb_neq. intros H. apply index_key_inj in H. lia. }
      rewrite E. replace (a + S i)%nat with (S a + i)%nat by lia.
      apply IH.
Qed.

Lemma array_entries_NoDup (items : list value) :
  forall a : nat, NoDup (map fst (array_entries a items)).
Proof.
  induction items as [|v items IH]; intros a; [constructor|].
  cbn [array_entries map fst]. constructor; [|apply IH].
  intros Hin. apply in_map_iff in Hin. destruct Hin as ([k w] & Hk & Hin).
  cbn [fst] in Hk. subst k.
  assert (Hget : exists i, index_key a = index_key (S a + i)).
  { clear - Hin. revert Hin. generalize (S a) as b. 
    induction items as [|v items IH]; intros b Hin; [contradiction|].
    cbn [array_entries In] in Hin. destruct Hin as [Hin | Hin].
    - injection Hin as Hk _. exists 0%nat. rewrite Nat.add_0_r. symmetry. exact Hk.
    - destruct (IH (S b) Hin) as (i & Hi). exists (S i).
      replace (b + S i)%nat with (S b + i)%nat by lia. exact Hi. }
  destruct Hget as (i & Hi). apply index_key_inj in Hi. lia.
Qed.

Lemma array_entries_map (f : value -> value) (items : list value) :
  forall a : nat,
    map (fun kv => (fst kv, f (snd kv))) (array_entries a items) =
    array_entries a (map f items).
Proof.
  induction items as [|v items IH]; intros a; [reflexivity|].
  cbn [array_entries map fst snd]. rewrite IH. reflexivity.
Qed.

Lemma array_entries_keys (items : list value) :
  forall a : nat,
    Forall (fun kv => redact_key (fst kv) = false) (array_entries a items).
Proof.
  induction items as [|v items IH]; intros a; [constructor|].
  cbn [array_entries]. constructor; [|apply IH].
  cbn [fst]. apply redact_key_digits. apply index_key_digits.
Qed.

Lemma index_key_own (i : nat) : own_key (index_key i) = true.
Proof.
  apply own_key_true. intros H.
  pose proof (index_key_digits i) as Hd. rewrite H in Hd.
  inversion Hd as [|c k Hc _]; subst. discriminate.
Qed.

Lemma array_entries_own (items : list value) :
  forall a : nat,
    filter (fun kv => own_key (fst kv)) (array_entries a items) =
    array_entries a items.
Proof.
  induction items as [|v items IH]; intros a; [reflexivity|].
  cbn [array_entries filter fst]. rewrite index_key_own, IH. reflexivity.
Qed.

(** X21: an array among the parameters is logged as an object whose
    keys are the indices of its elements in decimal: no element is
    lost or moved, no index is taken for a credential name, and each
    element that is an object or an array is itself sanitized. *)
Theorem sanitizeParams_array_elements (items : list value) :
  sanitizeParams (VArr items) = array_entries 0 (map sanitized_element items) /\
  List.length (sanitizeParams (VArr items)) = List.length items /\
  (forall i, get_prop (sanitizeParams (VArr items)) (index_key i) =
             option_map sanitized_element (nth_error items i)) /\
  (forall i, redact_key (index_key i) = false) /\
  (forall i j, index_key i = index_key j -> i = j).
Proof.
  assert (Heq : sanitizeParams (VArr items) =
                array_entries 0 (map sanitized_element items)).
  { rewrite sanitizeParams_entries. cbn [entries].
    rewrite object_loop_distinct; [|cbn [map app]; apply array_entries_NoDup].
    cbn [app]. rewrite array_entries_own, <- array_entries_map.
    apply map_ext_in. intros [k v] Hin.
    pose proof (array_entries_keys items 0) as Hk.
    rewrite Forall_forall in Hk. specialize (Hk _ Hin). cbn [fst snd] in *.
    unfold sanitized_value, sanitized_element. rewrite Hk. reflexivity. }
  split; [exact Heq|].
  split.
  { rewrite Heq. clear Heq. generalize 0%nat.
    induction items as [|v items IH]; intros a; [reflexivity|].
    cbn [map array_entries List.length]. rewrite IH. reflexivity. }
  split.
  { intros i. rewrite Heq.
    change i with (0 + i)%nat at 1.
    rewrite (get_array_entry (map sanitized_element items) 0 i).
    apply nth_error_map. }
  split.
  - intros i. apply redact_key_digits. apply index_key_digits.
  - apply index_key_inj.
Qed.

End ArrayFacts.

(** ** The zone list: which arguments are sent *)

Module ZoneFacts.
Import AuditLogger AuditLoggerSpec ApiClient Endpoints Server.
Import GatewaySpec GatewayFacts EndpointFacts ToolFacts.
Import GatewaySpec EndpointSpec ToolSpec ZoneSpec.

Lemma params_given (args : ListZonesArgs) :
  search_params (Some (list_zones_params args)) =
  flat_map present (given_zone_args args) /\
  kept (sanitizeParams (VObj (list_zones_params args))) =
  flat_map present (given_zone_args args).
Proof. destruct args as [[a|] [n|] [s|] [pp|] [p|]]; split; reflexivity. Qed.

Lemma In_present (l : list (jsstring * option value)) (key : jsstring) (v : value) :
  In (key, v) (flat_map present l) <-> In (key, Some v) l.
Proof.
  induction l as [|[k [w|]] l IH]; cbn [flat_map present fst snd app In].
  - tauto.
  - rewrite IH. split; intros [H | H]; try (right; exact H); left.
    + injection H as <- <-. reflexivity.
    + injection H as <- <-. reflexivity.
  - rewrite IH. split; [intros H; right; exact H|].
    intros [H | H]; [discriminate | exact H].
Qed.

Lemma given_names (args : ListZonesArgs) (key : jsstring) :
  In key (map fst (flat_map present (given_zone_args args))) ->
  In key [ js "account_id"; js "name"; js "status"; js "per_page"; js "page" ].
Proof.
  intros H. apply (@present_keys (given_zone_args args)) in H. exact H.
Qed.

(** X22: the tool [list_zones] makes one [GET] whose address is
    parsed from the API base followed by [/zones].  Of its five
    optional arguments exactly those that were given are appended to
    the query, an empty string and a zero among them (the audit log
    method drops those); and the audit line names exactly the same
    arguments with the same values, none of them redacted: an
    argument that was not given is [undefined] in the parameters and
    so is left out of the text of the line. *)
Theorem list_zones_filters (wake : Z -> Z -> Z) (fuel : nat)
        (upstream : HttpRequest -> NetReply CloudflareResponse)
        (stringify : CloudflareResponse -> jsstring) (args : ListZonesArgs)
        (c : CloudflareClient) (rt : Runtime) :
  served wake fuel c rt ->
  exists c' startTime line,
    let req := {| http_method := js "GET";
                  url_text := CF_API_BASE ++ js "/zones";
                  url_appended := flat_map present (given_zone_args args);
                  http_authorization := js "Bearer " ++ getToken c;
                  http_body := None |} in
    list_zones wake fuel upstream stringify args (c, rt) =
    Some (relay stringify (request_try (answer (upstream req))),
          (c', {| clock := startTime + latency (upstream req);
                  stderr := stderr rt ++ [line] |})) /\
    line_tool line = js "GET /zones" /\
    line_parameters line = flat_map present (given_zone_args args) /\
    (forall key v,
        In (key, v) (line_parameters line) <->
        In (key, Some v) (given_zone_args args)) /\
    (forall key, In key (map fst (line_parameters line)) ->
                 In key [ js "account_id"; js "name"; js "status";
                          js "per_page"; js "page" ] /\
                 redact_key key = false).
Proof.
  intros Hserved.
  destruct (@served_admitted wake fuel c rt Hserved)
    as (startTime & limiter & Hacq & _).
  destruct (params_given args) as [Hsent Hkept].
  pose proof (@tool_of_request wake fuel upstream stringify (js "/zones")
                               (Some (list_zones_params args)) c rt
                               startTime limiter Hacq) as Hrun.
  unfold request_sent in Hrun. rewrite Hsent in Hrun.
  exists (with_limiter c limiter), startTime.
  eexists. cbv zeta.
  split; [exact Hrun|].
  split; [reflexivity|].
  unfold audit_line. cbn [line_parameters params_or_empty].
  rewrite Hkept.
  split; [reflexivity|].
  split.
  - intros key v. apply In_present.
  - intros key Hin. apply given_names in Hin. split; [exact Hin|].
    cbn [In] in Hin.
    repeat (destruct Hin as [<- | Hin]; [reflexivity|]).
    contradiction.
Qed.

Lemma list_zones_filters_witness :
  exists run,
    list_zones RateLimiter.punctual 1
               (stub (failed_envelope (js "zone 1a2b is locked")))
               (fun _ => js "{}")
               {| Server.account_id := None; Server.name := Some [];
                  Server.status := None; Server.per_page := Some 0;
                  Server.page := None |}
               (example_client, example_runtime) = Some run /\
    map line_parameters (stderr (snd (snd run))) =
    [ [ (js "name", VStr []); (js "per_page", VNum 0) ] ].
Proof.
  destruct (@list_zones_filters
              RateLimiter.punctual 1
              (stub (failed_envelope (js "zone 1a2b is locked")))
              (fun _ => js "{}")
              {| Server.account_id := None; Server.name := Some [];
                 Server.status := None; Server.per_page := Some 0;
                 Server.page := None |}
              example_client example_runtime example_served)
    as (c' & startTime & line & Hrun & _ & Hpar & _).
  cbv zeta in Hrun.
  eexists. split; [exact Hrun|].
  cbn [snd stderr example_runtime app map]. rewrite Hpar. reflexivity.
Defined.

End ZoneFacts.

(** ** The order of the messages of an error *)

Module OrderFacts.
Import ApiClient JsStringFacts GatewaySpec GatewayFacts.
Import GatewaySpec OrderSpec.

Lemma unique_is_fold (l : list jsstring) : unique l = fold_left unique_step l [].
Proof. reflexivity. Qed.

Lemma among_app (seen more : list jsstring) (x : jsstring) :
  among (seen ++ more) x = among seen x || among more x.
Proof. unfold among. apply existsb_app. Qed.

Lemma filter_filter {A} (f g : A -> bool) (l : list A) :
  filter f (filter g l) = filter (fun x => g x && f x) l.
Proof.
  induction l as [|x l IH]; [reflexivity|].
  cbn [filter]. destruct (g x); cbn [filter andb]; [destruct (f x)|]; now rewrite IH.
Qed.

Lemma among_one (x y : jsstring) : among [x] y = JsString.eqb y x.
Proof. unfold among. cbn [existsb]. apply orb_false_r. Qed.

Lemma unique_from (l : list jsstring) :
  forall seen : list jsstring,
    fold_left unique_step l seen =
    seen ++ filter (fun y => negb (among seen y)) (unique l).
Proof.
  induction l as [|x l IH]; intros seen.
  - cbn. now rewrite app_nil_r.
  - assert (Hu : unique (x :: l) =
                 x :: filter (fun y => negb (among [x] y)) (unique l)).
    { rewrite unique_is_fold. cbn [fold_left].
      change (unique_step [] x) with [x]. rewrite (IH [x]). reflexivity. }
    rewrite Hu. cbn [fold_left filter].
    rewrite (IH (unique_step seen x)).
    rewrite filter_filter.
    unfold unique_step. fold (among seen x).
    destruct (among seen x) eqn:E; cbn [negb].
    + f_equal. apply filter_ext_in. intros y _.
      rewrite among_one.
      destruct (JsString.eqb y x) eqn:Eyx; cbn [negb andb]; [|reflexivity].
      apply eqb_eq in Eyx. subst y. rewrite E. reflexivity.
    + rewrite <- app_assoc. cbn [app]. f_equal. f_equal.
      apply filter_ext_in. intros y _.
      rewrite among_app, among_one, negb_orb. apply andb_comm.
Qed.

(** X23: the messages of an error stand in the order in which their
    codes first occur in the answer of the upstream: the message of
    the first error leads, and what follows are the messages of the
    other errors without it, in their order. *)
Theorem error_message_order (k : Z) (codes : list Z) :
  unique (map safe_message (k :: codes)) =
  safe_message k ::
  filter (fun m => negb (JsString.eqb m (safe_message k)))
         (unique (map safe_message codes)) /\
  (forall l : list jsstring, NoDup l -> unique l = l) /\
  (forall l : list jsstring, unique (unique l) = unique l) /\
  exists rest,
    safe_error_message (k :: codes) =
    js "Cloudflare API error: " ++ safe_message k ++ rest.
Proof.
  assert (Hcons : forall x l,
             unique (x :: l) =
             x :: filter (fun m => negb (JsString.eqb m x)) (unique l)).
  { intros x l. rewrite unique_is_fold. cbn [fold_left].
    rewrite (unique_from l (unique_step [] x)).
    change (unique_step [] x) with [x]. cbn [app]. f_equal.
    apply filter_ext_in. intros y _. now rewrite among_one. }
  assert (Hnd : forall l : list jsstring, NoDup l -> unique l = l).
  { induction 1 as [|x l Hx Hl IH]; [reflexivity|].
    rewrite Hcons, IH. f_equal.
    apply forallb_filter_id. apply forallb_forall. intros y Hy.
    apply negb_true_iff. apply eqb_neq. intros ->. contradiction. }
  split; [cbn [map]; apply Hcons|].
  split; [exact Hnd|].
  split; [intros l; apply Hnd; apply unique_spec|].
  unfold safe_error_message. cbn [map]. rewrite Hcons.
  destruct (filter (fun m => negb (JsString.eqb m (safe_message k)))
                   (unique (map safe_message codes))) as [|y more].
  - exists []. cbn [JsString.join]. now rewrite app_nil_r.
  - exists (js "; " ++ JsString.join (js "; ") (y :: more)). reflexivity.
Qed.

End OrderFacts.

(** ** What the audit line of the free-text endpoint shows *)

Module DisclosureFacts.
Import AuditLogger ApiClient GraphqlValidator GatewaySpec GatewayFacts.
Import GatewaySpec DisclosureSpec.

(** X24: the parameters of the audit line of a call of
    [graphqlAnalytics] hold the length of the query and whether
    variables were given, and nothing else of either: neither name
    is redacted, and two queries of the same length leave the same
    parameters.  The error message of the line is not so guarded:
    it is the message of whatever the transfer or the parsing of the
    body threw, as it is, so that an upstream which fails with the
    query as its message puts the query into the line. *)
Theorem graphql_line_hides_query
        (wake : Z -> Z -> Z) (JSON_parse : jsstring -> option value) (fuel : nat)
        (B : Type) (upstream : HttpRequest -> NetReply B)
        (query : jsstring) (variables : option jsstring) (vars : option obj)
        (c : CloudflareClient) (rt : Runtime) :
  served wake fuel c rt ->
  validateGraphQLQuery (VStr query) = Return tt ->
  graphql_variables JSON_parse variables = Return vars ->
  exists r c' rt' line,
    @graphqlAnalytics wake JSON_parse fuel B upstream query variables c rt =
    Some (r, c', rt') /\
    stderr rt' = stderr rt ++ [line] /\
    line_tool line = js "POST /graphql" /\
    line_parameters line =
    [ (js "queryLength", VNum (Z.of_nat (List.length query)));
      (js "hasVariables", VBool (has_variables variables)) ] /\
    (forall query' variables',
        List.length query' = List.length query ->
        has_variables variables' = has_variables variables ->
        kept (sanitizeParams (VObj (graphql_params query' variables'))) =
        line_parameters line) /\
    (forall e,
        answer (upstream (graphql_sent query vars c')) = FetchRejects e \/
        answer (upstream (graphql_sent query vars c')) = JsonRejects e ->
        r = Throw e /\
        line_errorMessage line = spread_message (Some (catch_message e))) /\
    (forall text,
        text <> [] ->
        answer (upstream (graphql_sent query vars c')) =
        FetchRejects (ErrorObj text) ->
        line_errorMessage line = Some text).
Proof.
  intros Hserved Hq Hv.
  destruct (@served_admitted wake fuel c rt Hserved)
    as (startTime & limiter & Hacq & _).
  pose proof (@graphql_admitted wake JSON_parse fuel B upstream query variables
                                c rt startTime limiter vars Hq Hacq Hv) as Hrun.
  cbv zeta in Hrun.
  do 4 eexists.
  split; [exact Hrun|]. cbn [stderr].
  split; [reflexivity|]. split; [reflexivity|].
  split; [reflexivity|].
  split.
  { intros query' variables' Hlen Hhas.
    unfold graphql_params. rewrite Hlen, Hhas. reflexivity. }
  split.
  { intros e [He | He]; rewrite He; split; reflexivity. }
  intros text Htext He. rewrite He.
  destruct text; [contradiction | reflexivity].
Qed.

Lemma graphql_line_hides_query_witness :
  map line_parameters
      (stderr_of (@graphqlAnalytics RateLimiter.punctual no_json 1 CloudflareResponse
                    echoing (js "query { zones { id } }") None
                    example_client example_runtime)) =
  [ [ (js "queryLength", VNum 22); (js "hasVariables", VBool false) ] ] /\
  map line_errorMessage
      (stderr_of (@graphqlAnalytics RateLimiter.punctual no_json 1 CloudflareResponse
                    echoing (js "query { zones { id } }") None
                    example_client example_runtime)) =
  [ Some (js "query { zones { id } }") ].
Proof.
  destruct (@graphql_line_hides_query
              RateLimiter.punctual no_json 1 CloudflareResponse
              echoing (js "query { zones { id } }") None None
              example_client example_runtime example_served eq_refl eq_refl)
    as (r & c' & rt' & line & Hrun & Herr & _ & Hpar & _ & _ & Hmsg).
  rewrite Hrun. cbn [stderr_of snd]. rewrite Herr.
  cbn [example_runtime stderr app map]. rewrite Hpar.
  split; [reflexivity|].
  rewrite (Hmsg (js "query { zones { id } }")); [reflexivity | discriminate |].
  reflexivity.
Defined.

End DisclosureFacts.
